(** * gtree: the in-process tree engine of [GtreeService]

    A shallow embedding of [createIgnoreInstance], [scanDirectory],
    [formatTree], [generateTree] and [parseTreeArgs], followed by the
    properties of the ignore matcher, the scanner, the renderer and the
    argument translator.

    Strings are byte strings holding the UTF-8 encoding of the JavaScript
    string; prefix, suffix, substring and equality tests agree with their
    UTF-16 counterparts on well-formed text. *)

From Stdlib Require Import String Ascii List ZArith Bool Lia Permutation Sorted.
From Stdlib Require OrderedTypeEx.
From Stdlib Require Floats.SpecFloat.
Import ListNotations.
Open Scope string_scope.
Set Warnings "-register-all".

(** ** JavaScript numbers

    The numbers the service works with are depths and levels: doubles
    without a fraction, the two infinities and [NaN]. [Finite z] is the
    double whose value is the integer [z]; the two zeros are both
    [Finite 0], no comparison tells them apart. *)

Inductive JsNumber : Type :=
| NaN
| Infinity (negative : bool)
| Finite (value : Z).

Definition ofDouble (f : SpecFloat.spec_float) : JsNumber :=
  match f with
  | SpecFloat.S754_zero _ => Finite 0
  | SpecFloat.S754_infinity s => Infinity s
  | SpecFloat.S754_nan => NaN
  | SpecFloat.S754_finite s m e =>
      Finite (if s then - Z.shiftl (Z.pos m) e else Z.shiftl (Z.pos m) e)
  end.

(** The Number value for a mathematical integer: the nearest double,
    ties to the even mantissa, an infinity beyond the largest double. *)
Definition toNumber (z : Z) : JsNumber :=
  ofDouble (SpecFloat.binary_normalize 53 1024 z 0 false).

(** [isNaN(n)] *)
Definition isNaN (n : JsNumber) : bool :=
  match n with
  | NaN => true
  | _ => false
  end.

(** [level >= n] for an integer [level] *)
Definition atLeast (level : Z) (n : JsNumber) : bool :=
  match n with
  | NaN => false
  | Infinity negative => negative
  | Finite d => (d <=? level)%Z
  end.

(** ** JavaScript string primitives used by the service *)

Module JsString.

Fixpoint drop (n : nat) (s : string) : string :=
  match n, s with
  | O, _ => s
  | S _, EmptyString => EmptyString
  | S n', String _ s' => drop n' s'
  end.

Fixpoint take (n : nat) (s : string) : string :=
  match n, s with
  | O, _ => EmptyString
  | S _, EmptyString => EmptyString
  | S n', String c s' => String c (take n' s')
  end.

Fixpoint rev (s : string) : string :=
  match s with
  | EmptyString => EmptyString
  | String c s' => rev s' ++ String c EmptyString
  end.

(** [s.startsWith(p)] *)
Definition startsWith (s p : string) : bool := String.prefix p s.

(** [s.endsWith(p)] *)
Definition endsWith (s p : string) : bool :=
  (String.length p <=? String.length s)%nat
  && (drop (String.length s - String.length p) s =? p).

(** [s.slice(0, -k)] for a positive [k] *)
Definition sliceEnd (s : string) (k : nat) : string :=
  take (String.length s - k) s.

(** [s.substring(k)] *)
Definition substring (s : string) (k : nat) : string := drop k s.

(** [s.includes(p)] *)
Fixpoint includes (s p : string) : bool :=
  String.prefix p s
  || match s with
     | EmptyString => false
     | String _ s' => includes s' p
     end.

(** [s.split(sep)] for a one-character separator: never empty. *)
Fixpoint split (sep : ascii) (s : string) : list string :=
  match s with
  | EmptyString => [EmptyString]
  | String c s' =>
      if Ascii.eqb c sep then EmptyString :: split sep s'
      else match split sep s' with
           | [] => [String c EmptyString]
           | seg :: segs => String c seg :: segs
           end
  end.

(** [s.replace(/\\/g, '/')] *)
Fixpoint replaceBackslashes (s : string) : string :=
  match s with
  | EmptyString => EmptyString
  | String c s' =>
      String (if Ascii.eqb c "\"%char then "/"%char else c)
             (replaceBackslashes s')
  end.

(** White space and line terminators of ECMAScript, as UTF-8 byte
    sequences of one, two and three bytes. *)
Definition ws1 (c : ascii) : bool :=
  let n := nat_of_ascii c in
  ((9 <=? n) && (n <=? 13))%nat || (n =? 32)%nat.

Definition ws2 (c1 c2 : ascii) : bool :=
  (nat_of_ascii c1 =? 194)%nat && (nat_of_ascii c2 =? 160)%nat.

Definition ws3 (c1 c2 c3 : ascii) : bool :=
  let a := nat_of_ascii c1 in
  let b := nat_of_ascii c2 in
  let c := nat_of_ascii c3 in
  ((a =? 225) && (b =? 154) && (c =? 128))%nat
  || ((a =? 226) && (b =? 128)
      && (((128 <=? c) && (c <=? 138)) || (c =? 168) || (c =? 169)
          || (c =? 175)))%nat
  || ((a =? 226) && (b =? 129) && (c =? 159))%nat
  || ((a =? 227) && (b =? 128) && (c =? 128))%nat
  || ((a =? 239) && (b =? 187) && (c =? 191))%nat.

(** Strip white space from the front; with [mirrored] the string is read
    back to front, so multi-byte sequences arrive last byte first. *)
Fixpoint stripFront (mirrored : bool) (s : string) : string :=
  match s with
  | EmptyString => s
  | String c1 r1 =>
      if ws1 c1 then stripFront mirrored r1
      else match r1 with
           | EmptyString => s
           | String c2 r2 =>
               if (if mirrored then ws2 c2 c1 else ws2 c1 c2)
               then stripFront mirrored r2
               else match r2 with
                    | EmptyString => s
                    | String c3 r3 =>
                        if (if mirrored then ws3 c3 c2 c1 else ws3 c1 c2 c3)
                        then stripFront mirrored r3
                        else s
                    end
           end
  end.

Definition trimStart (s : string) : string := stripFront false s.

(** [s.trim()] *)
Definition trim (s : string) : string :=
  rev (stripFront true (rev (trimStart s))).

Definition digitValue (radix : Z) (c : ascii) : option Z :=
  let n := Z.of_nat (nat_of_ascii c) in
  let v :=
    (if (48 <=? n) && (n <=? 57) then Some (n - 48)
     else if (97 <=? n) && (n <=? 122) then Some (n - 87)
     else if (65 <=? n) && (n <=? 90) then Some (n - 55)
     else None)%Z in
  match v with
  | Some d => if (d <? radix)%Z then Some d else None
  | None => None
  end.

(** The longest prefix of radix-[radix] digits, as a number; [None] when
    the prefix is empty. *)
Fixpoint parseDigits (radix : Z) (s : string) (acc : option Z) : option Z :=
  match s with
  | EmptyString => acc
  | String c s' =>
      match digitValue radix c with
      | Some d =>
          parseDigits radix s'
            (Some (match acc with Some a => a * radix + d | None => d end)%Z)
      | None => acc
      end
  end.

(** The mathematical integer [parseInt(s)] reads without a radix:
    leading white space is dropped, a sign is read and removed, [0x] or
    [0X] selects radix 16 and is removed, and the longest run of digits
    is the value. [None]: there is no digit. *)
Definition mathInt (s : string) : option Z :=
  let s1 := trimStart s in
  let negative := startsWith s1 "-" in
  let s2 := if negative || startsWith s1 "+" then substring s1 1 else s1 in
  let hex := startsWith s2 "0x" || startsWith s2 "0X" in
  let s3 := if hex then substring s2 2 else s2 in
  option_map (fun n => if negative then (- n)%Z else n)
             (parseDigits (if hex then 16%Z else 10%Z) s3 None).

(** [parseInt(s)]: [NaN] without a digit, else the Number value for the
    integer read. *)
Definition parseInt (s : string) : JsNumber :=
  match mathInt s with
  | Some z => toNumber z
  | None => NaN
  end.

End JsString.

(** ** Node's [path] module on POSIX, for the paths the scanner builds:
    a normalized absolute directory and the name of one of its entries. *)

Module NodePath.

(** [path.join(dir, name)] *)
Definition join (dir name : string) : string :=
  if dir =? "/" then "/" ++ name else dir ++ "/" ++ name.

(** [path.relative(from, to)] for [to] below [from] *)
Definition relative (from to : string) : string :=
  JsString.drop (if from =? "/" then 1 else S (String.length from)) to.

(** [path.basename(p)] *)
Definition basename (p : string) : string :=
  last (JsString.split "/"%char p) EmptyString.

End NodePath.

(** ** The ignore matcher *)

Definition defaultIgnores : list string := [".git"; ".DS_Store"; "node_modules"].

(** The lines kept from the text of [.gitignore]. *)
Definition gitignorePatterns (gitignoreContent : string) : list string :=
  filter (fun line => negb (line =? "") && negb (JsString.startsWith line "#"))
         (map JsString.trim (JsString.split "010"%char gitignoreContent)).

(** The callback given to [allIgnores.some] *)
Definition patternMatches (normalizedPath pattern : string) : bool :=
  if JsString.endsWith pattern "/**" then
    let dir := JsString.sliceEnd pattern 3 in
    JsString.startsWith normalizedPath (dir ++ "/") || (normalizedPath =? dir)
  else if JsString.includes pattern "/" then
    JsString.includes normalizedPath pattern
  else
    existsb (String.eqb pattern) (JsString.split "/"%char normalizedPath).

(** [ig.ignores(filePath)], [ig] being the object closed over [allIgnores] *)
Definition ignores (allIgnores : list string) (filePath : string) : bool :=
  let normalizedPath := JsString.replaceBackslashes filePath in
  existsb (patternMatches normalizedPath) allIgnores.

(** ** Data model *)

(** What [readdirSync] finds on disk: a regular file with its text, or a
    directory whose listing is [None] when reading it fails. *)
Inductive Dirent : Type :=
| File (fileName : string) (content : string)
| Directory (dirName : string) (listing : option (list Dirent)).

Definition dirent_name (entry : Dirent) : string :=
  match entry with
  | File n _ => n
  | Directory n _ => n
  end.

Definition dirent_isDirectory (entry : Dirent) : bool :=
  match entry with
  | File _ _ => false
  | Directory _ _ => true
  end.

Record GtreeOptions : Type := mkOptions {
  maxDepth : option JsNumber;
  showHidden : option bool;
  excludeGit : option bool;
  baseDirectory : option string
}.

Inductive FileNode : Type :=
  mkFileNode (name path : string) (isDirectory : bool)
             (children : option (list FileNode)) (level : Z).

Definition name (n : FileNode) : string :=
  match n with mkFileNode x _ _ _ _ => x end.
Definition path (n : FileNode) : string :=
  match n with mkFileNode _ x _ _ _ => x end.
Definition isDirectory (n : FileNode) : bool :=
  match n with mkFileNode _ _ x _ _ => x end.
Definition children (n : FileNode) : option (list FileNode) :=
  match n with mkFileNode _ _ _ x _ => x end.
Definition level (n : FileNode) : Z :=
  match n with mkFileNode _ _ _ _ x => x end.

(** ** Effects: a log of the file-system reads and ignore queries, and
    exceptions *)

Inductive Event : Type :=
| ReadDir (dirPath : string)
| IgnoreQuery (relativePath : string).

Inductive Outcome (A : Type) : Type :=
| Returned (value : A)
| Thrown (message : string).
Arguments Returned {A} value.
Arguments Thrown {A} message.

Definition Eff (A : Type) : Type := (Outcome A * list Event)%type.

Definition ret {A} (a : A) : Eff A := (Returned a, []).
Definition throw {A} (message : string) : Eff A := (Thrown message, []).
Definition tell (e : Event) : Eff unit := (Returned tt, [e]).

Definition bind {A B} (m : Eff A) (k : A -> Eff B) : Eff B :=
  match m with
  | (Returned a, log) => let '(r, log') := k a in (r, (log ++ log')%list)
  | (Thrown message, log) => (Thrown message, log)
  end.

Notation "x <- m ;; k" := (bind m (fun x => k))
  (at level 61, m at next level, right associativity).
Notation "m ;;; k" := (bind m (fun _ => k))
  (at level 61, right associativity).

(** [for (const entry of entries) { ... items.push(node) ... }] inside
    [try { } catch { }]: the body pushes one node, pushes nothing
    ([continue]) or throws; a throw leaves the loop and is swallowed, the
    nodes pushed so far stay in [items]. *)
Definition tryForOf {A} (body : A -> Eff (option FileNode))
  : list A -> list FileNode * list Event :=
  fix loop (entries : list A) :=
    match entries with
    | [] => ([], [])
    | entry :: rest =>
        match body entry with
        | (Thrown _, log) => ([], log)
        | (Returned pushed, log) =>
            let '(items, log') := loop rest in
            (match pushed with Some node => node :: items | None => items end,
             (log ++ log')%list)
        end
    end.

(** [!options.showHidden] *)
Definition falsy (b : option bool) : bool :=
  match b with Some true => false | _ => true end.

(** [options.baseDirectory || '.'] *)
Definition orDot (s : option string) : string :=
  match s with
  | Some d => if d =? "" then "." else d
  | None => "."
  end.

(** [options.maxDepth !== undefined && currentLevel >= options.maxDepth] *)
Definition depthReached (options : GtreeOptions) (currentLevel : Z) : bool :=
  match maxDepth options with
  | Some d => atLeast currentLevel d
  | None => false
  end.

(** [Array.prototype.sort(compare)]: a stable sort, here by insertion; an
    element moves behind its right neighbour only when [compare] is
    positive. *)
Fixpoint insertSorted {A} (compare : A -> A -> Z) (x : A) (l : list A) : list A :=
  match l with
  | [] => [x]
  | y :: l' =>
      if (0 <? compare x y)%Z then y :: insertSorted compare x l' else x :: l
  end.

Definition sort {A} (compare : A -> A -> Z) (l : list A) : list A :=
  fold_right (insertSorted compare) [] l.

Section Scanner.

(** [String.prototype.localeCompare] of the host: negative, zero or
    positive. *)
Variable localeCompare : string -> string -> Z.

(** The comparator given to [items.sort] *)
Definition compareNodes (a b : FileNode) : Z :=
  if isDirectory a && negb (isDirectory b) then (-1)%Z
  else if negb (isDirectory a) && isDirectory b then 1%Z
  else localeCompare (name a) (name b).

(** One turn of the [for] loop of [scanDirectory]: [Some node] is what
    [items.push] receives, [None] is a [continue]. The query to
    [ig.ignores] is logged. *)
Definition scanEntry
    (recur : Dirent -> string -> GtreeOptions -> list string -> Z
             -> Eff (list FileNode))
    (dirPath : string) (options : GtreeOptions) (ig : list string)
    (currentLevel : Z) (entry : Dirent) : Eff (option FileNode) :=
  let fullPath := NodePath.join dirPath (dirent_name entry) in
  let relativePath :=
    NodePath.relative (orDot (baseDirectory options)) fullPath in
  if falsy (showHidden options) && JsString.startsWith (dirent_name entry) "."
  then ret None
  else
    tell (IgnoreQuery relativePath) ;;;
    if ignores ig relativePath then ret None
    else if dirent_isDirectory entry then
      kids <- recur entry fullPath options ig (currentLevel + 1)%Z ;;
      ret (Some (mkFileNode (dirent_name entry) relativePath true
                            (Some kids) currentLevel))
    else
      ret (Some (mkFileNode (dirent_name entry) relativePath false
                            None currentLevel)).

(** The body of [scanDirectory]; [listing] is what the disk holds at
    [dirPath] ([None]: [readdirSync] throws, with [items] still empty) and
    [recur entry] is [scanDirectory] on a subdirectory. Every call of
    [readdirSync] is logged, failed or not. *)
Definition scanDirectoryWith
    (recur : Dirent -> string -> GtreeOptions -> list string -> Z
             -> Eff (list FileNode))
    (listing : option (list Dirent))
    (dirPath : string) (options : GtreeOptions) (ig : list string)
    (currentLevel : Z) : Eff (list FileNode) :=
  if depthReached options currentLevel then ret []
  else
    let '(items, log) :=
      (* try { const entries = readdirSync(dirPath, ...); for ... } catch { } *)
      match listing with
      | None => ([], [ReadDir dirPath])
      | Some entries =>
          let '(items, log') :=
            tryForOf (scanEntry recur dirPath options ig currentLevel)
                     entries in
          (items, ReadDir dirPath :: log')
      end in
    (Returned (sort compareNodes items), log).

(** [scanDirectory] on the directory that [entry] is; reading a regular
    file as a directory fails. *)
Fixpoint scanSubdirectory (entry : Dirent) (dirPath : string)
    (options : GtreeOptions) (ig : list string) (currentLevel : Z)
    {struct entry} : Eff (list FileNode) :=
  match entry with
  | File _ _ =>
      scanDirectoryWith (fun _ _ _ _ _ => ret []) None
                        dirPath options ig currentLevel
  | Directory _ listing =>
      scanDirectoryWith scanSubdirectory listing
                        dirPath options ig currentLevel
  end.

Definition scanDirectory (listing : option (list Dirent)) (dirPath : string)
    (options : GtreeOptions) (ig : list string) (currentLevel : Z)
  : Eff (list FileNode) :=
  scanDirectoryWith scanSubdirectory listing dirPath options ig currentLevel.

End Scanner.

(** ** The renderer *)

(** The body of [formatTree]; [recur node] is [formatTree] on the children
    of [node]. *)
Definition formatTreeWith (recur : FileNode -> list bool -> string)
    (nodes : list FileNode) (isLast : list bool) : string :=
  (fix loop (rest : list FileNode) (i : nat) (result : string) : string :=
     match rest with
     | [] => result
     | node :: rest' =>
         let isLastNode := (i =? List.length nodes - 1)%nat in
         let prefix :=
           fold_left (fun prefix (flag : bool) =>
                        prefix ++ (if flag then "    " else "│   "))
                     isLast "" in
         let prefix := prefix ++ (if isLastNode then "└── " else "├── ") in
         let result := result ++ prefix ++ name node ++ "
" in
         let result :=
           match children node with
           | Some (_ :: _) => result ++ recur node (isLast ++ [isLastNode])%list
           | _ => result
           end in
         loop rest' (S i) result
     end) nodes 0%nat "".

Fixpoint formatChildren (node : FileNode) (isLast : list bool) : string :=
  match node with
  | mkFileNode _ _ _ (Some kids) _ => formatTreeWith formatChildren kids isLast
  | mkFileNode _ _ _ None _ => ""
  end.

Definition formatTree (nodes : list FileNode) (isLast : list bool) : string :=
  formatTreeWith formatChildren nodes isLast.

(** ** [generateTree] *)

(** What [existsSync], [statSync] and the reads see at an absolute path:
    nothing, a regular file with its text ([None] when [readFileSync]
    throws, the file being unreadable), or a directory with its listing
    ([None] when [readdirSync] throws). *)
Inductive PathState : Type :=
| Missing
| RegularFile (text : option string)
| Dir (listing : option (list Dirent)).

(** The process environment: [path.resolve], which asks for the working
    directory when its argument is relative and throws when that
    directory is gone, and the disk. *)
Record World : Type := mkWorld {
  resolve : string -> Outcome string;
  disk : string -> PathState
}.

(** [createIgnoreInstance(baseDir)]: [.gitignore] is read when it
    exists; a failed read (it is unreadable, or a directory) is
    swallowed. The result is [allIgnores], which [ignores] closes over. *)
Definition createIgnoreInstance (w : World) (baseDir : string) : list string :=
  let gitignorePath := NodePath.join baseDir ".gitignore" in
  let patterns :=
    match disk w gitignorePath with
    | RegularFile (Some gitignoreContent) => gitignorePatterns gitignoreContent
    | _ => []
    end in
  (defaultIgnores ++ patterns)%list.

(** [options.baseDirectory = absolutePath] *)
Definition withBaseDirectory (options : GtreeOptions) (absolutePath : string)
  : GtreeOptions :=
  mkOptions (maxDepth options) (showHidden options) (excludeGit options)
            (Some absolutePath).

Section Generate.

Variable localeCompare : string -> string -> Z.

Definition generateTree (w : World) (targetPath : string)
    (options : GtreeOptions) : Eff string :=
  match resolve w targetPath with
  | Thrown message => throw message
  | Returned absolutePath =>
      match disk w absolutePath with
      | Missing => throw ("Path does not exist: " ++ targetPath)
      | RegularFile _ => throw ("Path is not a directory: " ++ targetPath)
      | Dir listing =>
          let options := withBaseDirectory options absolutePath in
          let ig := createIgnoreInstance w absolutePath in
          nodes <- scanDirectory localeCompare listing absolutePath options ig
                                 0%Z ;;
          let result := NodePath.basename absolutePath ++ "
" in
          ret (if (0 <? List.length nodes)%nat
               then result ++ formatTree nodes []
               else result)
      end
  end.

End Generate.

(** ** [parseTreeArgs] *)

Record ParsedArgs : Type := mkParsed {
  parsedPath : string;
  parsedOptions : GtreeOptions
}.

Definition setMaxDepth (depth : JsNumber) (p : ParsedArgs) : ParsedArgs :=
  let o := parsedOptions p in
  mkParsed (parsedPath p)
           (mkOptions (Some depth) (showHidden o) (excludeGit o)
                      (baseDirectory o)).

Definition setShowHidden (p : ParsedArgs) : ParsedArgs :=
  let o := parsedOptions p in
  mkParsed (parsedPath p)
           (mkOptions (maxDepth o) (Some true) (excludeGit o)
                      (baseDirectory o)).

Definition setTargetPath (arg : string) (p : ParsedArgs) : ParsedArgs :=
  mkParsed arg (parsedOptions p).

(** One turn of the loop on [arg = args[i]]; [next] is [args[i + 1]] when
    [i + 1 < args.length]. The boolean tells whether [i++] skips [next]. *)
Definition parseStep (arg : string) (next : option string) (p : ParsedArgs)
  : ParsedArgs * bool :=
  if (arg =? "-L") && (match next with Some _ => true | None => false end) then
    match next with
    | Some n =>
        let depth := JsString.parseInt n in
        if negb (isNaN depth) then (setMaxDepth depth p, true) else (p, false)
    | None => (p, false)
    end
  else if (arg =? "-a") || (arg =? "--all") then (setShowHidden p, false)
  else if JsString.startsWith arg "-L" then
    let depth := JsString.parseInt (JsString.substring arg 2) in
    if negb (isNaN depth) then (setMaxDepth depth p, false) else (p, false)
  else if negb (JsString.startsWith arg "-") then (setTargetPath arg p, false)
  else (p, false).

Fixpoint parseLoop (args : list string) (p : ParsedArgs) : ParsedArgs :=
  match args with
  | [] => p
  | arg :: rest =>
      match parseStep arg (hd_error rest) p with
      | (p', true) =>
          match rest with
          | _ :: rest' => parseLoop rest' p'
          | [] => p'
          end
      | (p', false) => parseLoop rest p'
      end
  end.

Definition parseTreeArgs (args : list string) : ParsedArgs :=
  parseLoop args (mkParsed "." (mkOptions None (Some false) (Some true) None)).

(** ** Vocabulary of the properties *)

(** The nodes of a result, every parent before its children. *)
Fixpoint subtree (n : FileNode) : list FileNode :=
  n :: match n with
       | mkFileNode _ _ _ (Some kids) _ => flat_map subtree kids
       | mkFileNode _ _ _ None _ => []
       end.

Definition allNodes (nodes : list FileNode) : list FileNode :=
  flat_map subtree nodes.

(** Where the nodes of a result sit: the names from the top level down to
    the node. *)
Fixpoint pathsOf (n : FileNode) : list (list string) :=
  match n with
  | mkFileNode nm _ _ kids _ =>
      [nm] :: map (cons nm)
                  match kids with
                  | Some ks => flat_map pathsOf ks
                  | None => []
                  end
  end.

Definition treePaths (nodes : list FileNode) : list (list string) :=
  flat_map pathsOf nodes.

(** Entry names as [readdirSync] gives them are not empty. *)
Fixpoint namedEntry (entry : Dirent) : bool :=
  negb (dirent_name entry =? "")
  && match entry with
     | Directory _ (Some entries) => forallb namedEntry entries
     | _ => true
     end.

Definition wellNamed (listing : option (list Dirent)) : bool :=
  match listing with
  | Some entries => forallb namedEntry entries
  | None => true
  end.

(** The absolute path of the entry reached from [base] through [names]. *)
Definition absoluteOf (base : string) (names : list string) : string :=
  match names with
  | [] => base
  | _ => (if base =? "/" then "/" else base ++ "/") ++ String.concat "/" names
  end.

(** A one-character separator as a string. *)
Definition sepString (sep : ascii) : string := String sep "".

(** [a] does not come after [b] under a comparator of [sort]. *)
Definition notAfter {A} (compare : A -> A -> Z) (a b : A) : Prop :=
  (compare a b <= 0)%Z.

(** Where the scanner stands: at [base] or at a longer path. *)
Definition below (base dirPath : string) : Prop :=
  dirPath = base \/ (String.length base < String.length dirPath)%nat.

(** *** What one scan retains *)

(** The relative path [scanDirectory] computes for the entry [nm] of
    [dirPath]. *)
Definition relativePathOf (options : GtreeOptions) (dirPath nm : string)
  : string :=
  NodePath.relative (orDot (baseDirectory options)) (NodePath.join dirPath nm).

(** The two [continue] tests of the loop, hidden name first. *)
Definition hiddenSkip (options : GtreeOptions) (entry : Dirent) : bool :=
  falsy (showHidden options) && JsString.startsWith (dirent_name entry) ".".

Definition skipped (options : GtreeOptions) (ig : list string)
    (dirPath : string) (entry : Dirent) : bool :=
  hiddenSkip options entry
  || ignores ig (relativePathOf options dirPath (dirent_name entry)).

(** The node pushed for a retained entry whose subdirectory scan gave
    [kids]. *)
Definition nodeFor (options : GtreeOptions) (dirPath : string)
    (currentLevel : Z) (entry : Dirent) (kids : list FileNode) : FileNode :=
  mkFileNode (dirent_name entry)
             (relativePathOf options dirPath (dirent_name entry))
             (dirent_isDirectory entry)
             (if dirent_isDirectory entry then Some kids else None)
             currentLevel.

(** The value of a computation, [[]] had it thrown. *)
Definition resultOf (m : Eff (list FileNode)) : list FileNode :=
  match fst m with
  | Returned nodes => nodes
  | Thrown _ => []
  end.

(** The nodes one directory contributes before sorting: one per entry
    that is not skipped, in the order of the listing. *)
Definition retained (localeCompare : string -> string -> Z)
    (options : GtreeOptions) (ig : list string) (dirPath : string)
    (currentLevel : Z) (entries : list Dirent) : list FileNode :=
  flat_map
    (fun entry =>
       if skipped options ig dirPath entry then []
       else [nodeFor options dirPath currentLevel entry
               (resultOf (scanSubdirectory localeCompare entry
                            (NodePath.join dirPath (dirent_name entry))
                            options ig (currentLevel + 1)%Z))])
    entries.

(** The texts [parseTreeArgs] may read a depth from: the token after a
    [-L], and what follows [-L] inside a token. *)
Definition depthText (args : list string) (text : string) : Prop :=
  (exists front rest, args = (front ++ "-L" :: text :: rest)%list)
  \/ (exists arg, In arg args /\ JsString.startsWith arg "-L" = true
                   /\ text = JsString.substring arg 2).

(** *** The matching rule in the words of the specification *)

Definition StartsWith (p s : string) : Prop := exists rest, s = p ++ rest.
Definition EndsWith (p s : string) : Prop := exists front, s = front ++ p.
Definition Contains (p s : string) : Prop :=
  exists front rest, s = front ++ p ++ rest.

(** [seg] is one of the pieces of [s] between slashes. *)
Definition Segment (seg s : string) : Prop :=
  exists segs,
    Forall (fun x => ~ Contains "/" x) segs
    /\ s = String.concat "/" segs /\ In seg segs.

Inductive specMatches (normalizedPath pattern : string) : Prop :=
| MatchTree (prefix : string) :
    pattern = prefix ++ "/**" ->
    normalizedPath = prefix \/ StartsWith (prefix ++ "/") normalizedPath ->
    specMatches normalizedPath pattern
| MatchSubstring :
    ~ EndsWith "/**" pattern ->
    Contains "/" pattern ->
    Contains pattern normalizedPath ->
    specMatches normalizedPath pattern
| MatchSegment :
    ~ EndsWith "/**" pattern ->
    ~ Contains "/" pattern ->
    Segment pattern normalizedPath ->
    specMatches normalizedPath pattern.

Definition specIgnores (patterns : list string) (normalizedPath : string)
  : Prop :=
  exists pattern, In pattern patterns /\ specMatches normalizedPath pattern.

(** *** The rendering in the words of the specification *)

Definition linePrefix (ancestors : list bool) (isLastSibling : bool) : string :=
  String.concat "" (map (fun wasLast : bool =>
                           if wasLast then "    " else "│   ") ancestors)
  ++ (if isLastSibling then "└── " else "├── ").

Definition siblingLines (lines : FileNode -> list bool -> bool -> list string)
    (ancestors : list bool) : list FileNode -> list string :=
  fix go (siblings : list FileNode) :=
    match siblings with
    | [] => []
    | n :: rest =>
        (lines n ancestors (match rest with [] => true | _ => false end)
         ++ go rest)%list
    end.

(** The line of a node, then the lines below it. *)
Fixpoint nodeLines (n : FileNode) (ancestors : list bool)
    (isLastSibling : bool) : list string :=
  match n with
  | mkFileNode nm _ _ kids _ =>
      (linePrefix ancestors isLastSibling ++ nm)
      :: match kids with
         | Some ks =>
             siblingLines nodeLines (ancestors ++ [isLastSibling])%list ks
         | None => []
         end
  end.

Definition specLines (nodes : list FileNode) (ancestors : list bool)
  : list string :=
  siblingLines nodeLines ancestors nodes.

Definition newline : string := "
".

Definition unlines (lines : list string) : string :=
  String.concat "" (map (fun l => l ++ newline) lines).

Definition specRender (rootName : string) (nodes : list FileNode) : string :=
  unlines (rootName :: specLines nodes []).

(** What [formatTree] on the children of [n] has to produce. *)
Definition rendersChildren (n : FileNode) : Prop :=
  forall isLast,
    formatChildren n isLast
    = unlines match children n with
              | Some kids => specLines kids isLast
              | None => []
              end.

(** *** Sorted levels *)

Section Order.

Variable localeCompare : string -> string -> Z.

(** [a] may stand before [b]: no file before a directory, and names of
    one kind ascending. *)
Definition mayPrecede (a b : FileNode) : Prop :=
  (isDirectory b = true -> isDirectory a = true)
  /\ (isDirectory a = isDirectory b ->
      (localeCompare (name a) (name b) <= 0)%Z).

Definition levelSorted (siblings : list FileNode) : Prop :=
  StronglySorted mayPrecede siblings.

Definition everyLevelSorted (nodes : list FileNode) : Prop :=
  levelSorted nodes
  /\ forall n kids, In n (allNodes nodes) -> children n = Some kids ->
                    levelSorted kids.

End Order.

(** A consistent comparator to run the scanner with: code units in
    order. *)
Definition codeUnitCompare (a b : string) : Z :=
  match String.compare a b with
  | Lt => (-1)%Z
  | Eq => 0%Z
  | Gt => 1%Z
  end.

(** *** The scenarios of the specification *)

Definition scenarioA : option (list Dirent) :=
  Some [File "file1.txt" "content1"; File "file2.txt" "content2";
        Directory "subdir" (Some [File "file3.txt" "content3"])].

Definition scenarioB : option (list Dirent) :=
  Some [File ".gitignore" "ignored_file.txt
ignored_dir/";
        File "visible_file.txt" "content";
        File "ignored_file.txt" "should be ignored";
        Directory "ignored_dir" (Some [File "secret.txt" "secret"])].

Definition scenarioC : option (list Dirent) :=
  Some [File "level1_file.txt" "";
        Directory "level1_dir"
          (Some [File "level2_file.txt" "";
                 Directory "level2_dir" (Some [File "level3_file.txt" ""])])].

Definition scenarioHidden : option (list Dirent) :=
  Some [File ".hidden_file.txt" "secret"; File "visible_file.txt" "";
        Directory ".git" (Some [File "config" ""]);
        Directory "node_modules" (Some [File "x.js" ""]);
        Directory "locked" None].

(** What the disk holds under the name [nm] in a directory with this
    listing. *)
Definition entryState (listing : option (list Dirent)) (nm : string)
  : PathState :=
  match listing with
  | Some entries =>
      match find (fun e => dirent_name e =? nm) entries with
      | Some (File _ content) => RegularFile (Some content)
      | Some (Directory _ sub) => Dir sub
      | None => Missing
      end
  | None => Missing
  end.

(** A process running in [/home/user] with one project directory, its
    [.gitignore] if the listing has one, one regular file and nothing
    else. *)
Definition projectWorld (listing : option (list Dirent)) : World :=
  mkWorld (fun p => Returned ("/home/user/" ++ p))
          (fun p => if p =? "/home/user/project" then Dir listing
                    else if p =? "/home/user/project/.gitignore"
                         then entryState listing ".gitignore"
                    else if p =? "/home/user/notes.txt"
                         then RegularFile (Some "")
                    else Missing).

(** A repository at [/repo] with [.gitignore], one source file and a
    directory of build output, seen by a process that resolves absolute
    paths only; [gitignore] is what [existsSync] and [readFileSync] find
    at [/repo/.gitignore]. *)
Definition repoWorld (gitignore : PathState) : World :=
  mkWorld Returned
          (fun p => if p =? "/repo"
                    then Dir (Some [File ".gitignore" "dist/**";
                                    File "main.ts" "";
                                    Directory "dist" (Some [File "main.js" ""])])
                    else if p =? "/repo/.gitignore" then gitignore
                    else Missing).

(** A process whose working directory has been removed, on the same
    disk: [path.resolve] throws what [process.cwd()] throws, unless the
    path is absolute. *)
Definition strandedWorld (listing : option (list Dirent)) : World :=
  mkWorld (fun p => if JsString.startsWith p "/" then Returned p
                    else Thrown "ENOENT: no such file or directory, uv_cwd")
          (disk (projectWorld listing)).

Definition noOptions : GtreeOptions := mkOptions None None None None.

Definition projectPath : string := "/home/user/project".

(** A depth beyond the largest double: 1 and 309 zeros. *)
Definition hugeDepth : string :=
  "1000000000000000000000000000000000000000000000000000000000000000000000000000000000000000000000000000000000000000000000000000000000000000000000000000000000000000000000000000000000000000000000000000000000000000000000000000000000000000000000000000000000000000000000000000000000000000000000000000000000000000000000".

(** The options [generateTree] hands to the scanner for [-L 2], for no
    flag and for [-a]. *)
Definition depthTwo : GtreeOptions :=
  mkOptions (Some (Finite 2)) None None (Some projectPath).

Definition plainOptions : GtreeOptions :=
  mkOptions None (Some false) (Some true) (Some projectPath).

Definition allOptions : GtreeOptions :=
  mkOptions None (Some true) (Some true) (Some projectPath).

Definition level2 : Dirent :=
  Directory "level2_dir" (Some [File "level3_file.txt" ""]).

(** ** The [gtree] tool registered by [registerTools], which calls
    [parseTreeArgs] and [generateTree] *)

Record GtreeParams : Type := mkParams {
  paramPath : option string;
  paramMaxDepth : option JsNumber;
  paramShowHidden : option bool;
  paramArgs : option (list string)
}.

(** One property under [{ ...options, ...parsed }]: the value of [parsed]
    when it has the property. *)
Definition spreadField {A} (base parsed : option A) : option A :=
  match parsed with
  | Some _ => parsed
  | None => base
  end.

(** [{ ...options, ...parsed.options }]. [parseTreeArgs] never stores
    [undefined], so a field that is [None] in its result is a property the
    object does not have. *)
Definition spreadOptions (options parsed : GtreeOptions) : GtreeOptions :=
  mkOptions (spreadField (maxDepth options) (maxDepth parsed))
            (spreadField (showHidden options) (showHidden parsed))
            (spreadField (excludeGit options) (excludeGit parsed))
            (spreadField (baseDirectory options) (baseDirectory parsed)).

(** The target path and the options [execute] ends up calling
    [generateTree] with. *)
Definition gtreeCall (params : GtreeParams) : string * GtreeOptions :=
  let targetPath := orDot (paramPath params) in
  let options :=
    mkOptions (paramMaxDepth params)
              (Some (negb (falsy (paramShowHidden params))))
              (Some true) None in
  match paramArgs params with
  | Some (arg :: rest) =>
      let parsed := parseTreeArgs (arg :: rest) in
      (if parsedPath parsed =? "." then targetPath else parsedPath parsed,
       spreadOptions options (parsedOptions parsed))
  | _ => (targetPath, options)
  end.

(** [execute]: the tree, or [Error: ] and the message of what
    [generateTree] threw. *)
Definition gtreeExecute (localeCompare : string -> string -> Z) (w : World)
    (params : GtreeParams) : Eff string :=
  let '(targetPath, options) := gtreeCall params in
  match generateTree localeCompare w targetPath options with
  | (Returned result, log) => (Returned result, log)
  | (Thrown message, log) => (Returned ("Error: " ++ message), log)
  end.

(** [-a] or [--all] *)
Definition isAllFlag (arg : string) : bool := (arg =? "-a") || (arg =? "--all").

(** ** [CwdService] and the [cwd] tool *)

Module CwdService.

(** What the service sees of the process: the environment variable,
    [process.cwd()] and [path.resolve] (both may throw, the second
    because it asks for the working directory when its argument is
    relative) and [path.relative]. *)
Record Process : Type := mkProcess {
  GTREE_BASE_PATH : option string;
  cwd : Outcome string;
  pathResolve : string -> Outcome string;
  pathRelative : string -> string -> string
}.

Record CwdInfo : Type := mkCwdInfo {
  absolute : string;
  relative : option string;
  basePath : option string
}.

(** A string in a condition: [undefined] and [''] are falsy. *)
Definition truthy (s : option string) : option string :=
  match s with
  | Some x => if x =? "" then None else Some x
  | None => None
  end.

Definition andThen {A B} (m : Outcome A) (k : A -> Outcome B) : Outcome B :=
  match m with
  | Returned a => k a
  | Thrown message => Thrown message
  end.

(** [try { ... } catch (error) { throw new Error(prefix + error.message) }] *)
Definition rethrow {A} (prefix : string) (m : Outcome A) : Outcome A :=
  match m with
  | Returned a => Returned a
  | Thrown message => Thrown (prefix ++ message)
  end.

Definition getCurrentWorkingDirectory (p : Process) : Outcome string :=
  rethrow "Failed to get current working directory: "
    match truthy (GTREE_BASE_PATH p) with
    | Some envBase => pathResolve p envBase
    | None => andThen (cwd p) (pathResolve p)
    end.

Definition getCwdInfo (p : Process) (base : option string) : Outcome CwdInfo :=
  rethrow "Failed to get current working directory info: "
    (andThen match truthy (GTREE_BASE_PATH p) with
             | Some envBase => Returned envBase
             | None => cwd p
             end
       (fun dir =>
          andThen (pathResolve p dir)
            (fun absolutePath =>
               match truthy base with
               | Some b =>
                   if JsString.trim b =? "" then
                     Returned (mkCwdInfo absolutePath None None)
                   else
                     andThen (pathResolve p b)
                       (fun resolvedBasePath =>
                          Returned
                            (mkCwdInfo absolutePath
                               (Some (pathRelative p resolvedBasePath absolutePath))
                               (Some resolvedBasePath)))
               | None => Returned (mkCwdInfo absolutePath None None)
               end))).

(** A value inside a template literal. *)
Definition shown (s : option string) : string :=
  match s with
  | Some x => x
  | None => "undefined"
  end.

(** [execute] of the [cwd] tool. *)
Definition cwdExecute (p : Process) (base : option string) : string :=
  match truthy base with
  | Some b =>
      match getCwdInfo p (Some b) with
      | Returned result =>
          "Current working directory:
Absolute path: " ++ absolute result ++ "
Base path: " ++ shown (basePath result) ++ "
Relative path: " ++ match truthy (relative result) with
                    | Some r => r
                    | None => "(same as base)"
                    end
      | Thrown message => "Error: " ++ message
      end
  | None =>
      match getCurrentWorkingDirectory p with
      | Returned result => "Current working directory: " ++ result
      | Thrown message => "Error: " ++ message
      end
  end.

End CwdService.

(** ** More vocabulary *)

(** [s] begins with a white-space sequence, read as [stripFront] reads. *)
Definition startsWs (mirrored : bool) (s : string) : bool :=
  match s with
  | EmptyString => false
  | String c1 r1 =>
      JsString.ws1 c1
      || match r1 with
         | EmptyString => false
         | String c2 r2 =>
             (if mirrored then JsString.ws2 c2 c1 else JsString.ws2 c1 c2)
             || match r2 with
                | EmptyString => false
                | String c3 _ =>
                    if mirrored then JsString.ws3 c3 c2 c1
                    else JsString.ws3 c1 c2 c3
                end
         end
  end.

(** The [path] of every node is its names from the top level down,
    joined by slashes; [above] are the names over [n]. *)
Fixpoint wellPathed (above : list string) (n : FileNode) : Prop :=
  match n with
  | mkFileNode nm p _ kids _ =>
      p = String.concat "/" (above ++ [nm])
      /\ match kids with
         | Some ks =>
             (fix all (l : list FileNode) : Prop :=
                match l with
                | [] => True
                | k :: r => wellPathed (above ++ [nm]) k /\ all r
                end) ks
         | None => True
         end
  end.

(** A node is a file without [children] or a directory whose children
    are one level further down. *)
Definition wellShaped (n : FileNode) : Prop :=
  (isDirectory n = false <-> children n = None)
  /\ forall kids, children n = Some kids ->
                  Forall (fun k => level k = (level n + 1)%Z) kids.

(** The directories [readdirSync] was called on, in the order of the
    calls. *)
Definition readPaths (log : list Event) : list string :=
  flat_map (fun e => match e with
                     | ReadDir dirPath => [dirPath]
                     | IgnoreQuery _ => []
                     end) log.

(** A directory node above the depth limit: [scanDirectory] went into
    it. *)
Definition expanded (options : GtreeOptions) (n : FileNode) : bool :=
  isDirectory n && negb (depthReached options (level n + 1)%Z).

(** The nodes of a result, each with the path of its entry on disk;
    [dirPath] is the directory the nodes were found in. *)
Fixpoint located (dirPath : string) (n : FileNode)
  : list (string * FileNode) :=
  match n with
  | mkFileNode nm _ _ kids _ =>
      let fullPath := NodePath.join dirPath nm in
      (fullPath, n)
      :: match kids with
         | Some ks => flat_map (located fullPath) ks
         | None => []
         end
  end.

(** The directories of a result that were gone into. *)
Definition expandedDirs (options : GtreeOptions) (dirPath : string)
    (nodes : list FileNode) : list string :=
  map fst (filter (fun x => expanded options (snd x))
                  (flat_map (located dirPath) nodes)).

(** The reads of a scan of [entry] are its own and those of its expanded
    directories. *)
Definition readsMatch (localeCompare : string -> string -> Z)
    (options : GtreeOptions) (ig : list string) (entry : Dirent) : Prop :=
  forall dirPath lvl,
    Permutation
      (readPaths (snd (scanSubdirectory localeCompare entry dirPath options ig
                                        lvl)))
      ((if depthReached options lvl then [] else [dirPath])
       ++ expandedDirs options dirPath
            (resultOf (scanSubdirectory localeCompare entry dirPath options ig
                                        lvl)))%list.

(** A node that was neither hidden nor ignored. *)
Definition letIn (options : GtreeOptions) (ig : list string) (n : FileNode)
  : Prop :=
  ignores ig (path n) = false
  /\ (falsy (showHidden options) = true ->
      JsString.startsWith (name n) "." = false).

Definition retainedEntry (options : GtreeOptions) (ig : list string)
    (dirPath : string) (entry : Dirent) : bool :=
  negb (skipped options ig dirPath entry).

(** A process started in [/home/user/project] with [GTREE_BASE_PATH]
    unset; [path.resolve] is needed on absolute paths only, and
    [path.relative] below the base. *)
Definition plainProcess : CwdService.Process :=
  CwdService.mkProcess None (Returned "/home/user/project")
    (fun path => Returned path)
    (fun from to => JsString.drop (S (String.length from)) to).

(** The same options with another depth limit, or another answer to
    [showHidden]. *)
Definition withMaxDepth (options : GtreeOptions) (limit : option JsNumber)
  : GtreeOptions :=
  mkOptions limit (showHidden options) (excludeGit options)
            (baseDirectory options).

Definition withShowHidden (options : GtreeOptions) (shown : option bool)
  : GtreeOptions :=
  mkOptions (maxDepth options) shown (excludeGit options)
            (baseDirectory options).

(** The disk holds an entry at [names] below [entries], every
    directory on the way being readable. *)
Fixpoint onDisk (names : list string) (entries : list Dirent) : Prop :=
  match names with
  | [] => False
  | nm :: rest =>
      match rest with
      | [] => exists entry, In entry entries /\ dirent_name entry = nm
      | _ :: _ =>
          exists sub, In (Directory nm (Some sub)) entries /\ onDisk rest sub
      end
  end.

(** What the options and the patterns let through: no hidden name on
    the way unless [showHidden] is true, no ignored relative path on the
    way ([above] being the names over the scanned directory), and the
    depth limit not reached at the level of the entry. *)
Definition letThrough (options : GtreeOptions) (ig : list string)
    (above : list string) (lvl : Z) (names : list string) : Prop :=
  (falsy (showHidden options) = true ->
   Forall (fun x => JsString.startsWith x "." = false) names)
  /\ (forall k, (0 < k <= List.length names)%nat ->
                ignores ig (String.concat "/" (above ++ firstn k names)) = false)
  /\ depthReached options (lvl + Z.of_nat (List.length names) - 1)%Z = false.

(** * Properties *)

(** ** Strings *)

Module StringFacts.
Import JsString.

Lemma append_nil_r (s : string) : s ++ "" = s.
Proof. induction s as [|c s IH]; simpl; [reflexivity | now rewrite IH]. Qed.

Lemma append_assoc (a b c : string) : (a ++ b) ++ c = a ++ (b ++ c).
Proof. induction a as [|x a IH]; simpl; [reflexivity | now rewrite IH]. Qed.

Lemma length_append (a b : string) :
  String.length (a ++ b) = (String.length a + String.length b)%nat.
Proof. induction a as [|x a IH]; simpl; [reflexivity | now rewrite IH]. Qed.

Lemma append_inj_l (a b c : string) : a ++ b = a ++ c -> b = c.
Proof.
  induction a as [|x a IH]; simpl; intros H; [exact H|].
  injection H as H. now apply IH.
Qed.

Lemma drop_append (a b : string) : drop (String.length a) (a ++ b) = b.
Proof. induction a as [|x a IH]; simpl; [now destruct b | exact IH]. Qed.

Lemma take_append (a b : string) : take (String.length a) (a ++ b) = a.
Proof. induction a as [|x a IH]; simpl; [now destruct b | now rewrite IH]. Qed.

Lemma take_drop (n : nat) (s : string) : take n s ++ drop n s = s.
Proof.
  revert s; induction n as [|n IH]; intros [|c s]; simpl; try reflexivity.
  now rewrite IH.
Qed.

Lemma startsWith_spec (s p : string) : startsWith s p = true <-> StartsWith p s.
Proof.
  unfold startsWith, StartsWith. revert s.
  induction p as [|c p IH]; intros s; simpl.
  - destruct s; split; eauto.
  - destruct s as [|d s]; simpl.
    + split; [discriminate | intros [r H]; discriminate].
    + destruct (ascii_dec c d) as [->|Hne].
      * rewrite IH. split; intros [r H]; exists r.
        -- now rewrite H.
        -- now injection H.
      * split; [discriminate|]. intros [r H]. injection H as H1 _.
        now elim Hne.
Qed.

Lemma startsWith_append (p rest : string) : startsWith (p ++ rest) p = true.
Proof. apply startsWith_spec. now exists rest. Qed.

Lemma endsWith_spec (s p : string) : endsWith s p = true <-> EndsWith p s.
Proof.
  unfold endsWith, EndsWith. split.
  - intros H. apply andb_true_iff in H as [_ H].
    apply String.eqb_eq in H.
    exists (take (String.length s - String.length p) s).
    pose proof (take_drop (String.length s - String.length p) s) as E.
    rewrite H in E. now symmetry.
  - intros [front ->]. rewrite length_append.
    apply andb_true_iff. split.
    + apply Nat.leb_le. lia.
    + replace (String.length front + String.length p - String.length p)%nat
        with (String.length front) by lia.
      rewrite drop_append. apply String.eqb_refl.
Qed.

Lemma sliceEnd_append (front p : string) :
  sliceEnd (front ++ p) (String.length p) = front.
Proof.
  unfold sliceEnd. rewrite length_append.
  replace (String.length front + String.length p - String.length p)%nat
    with (String.length front) by lia.
  apply take_append.
Qed.

Lemma includes_spec (s p : string) : includes s p = true <-> Contains p s.
Proof.
  unfold Contains. induction s as [|c s IH].
  - destruct p as [|x p]; simpl; split; try discriminate; try reflexivity.
    + intros _. now exists "", "".
    + intros [[|y front] [rest H]]; discriminate.
  - change (includes (String c s) p)
      with (startsWith (String c s) p || includes s p).
    rewrite orb_true_iff, IH, startsWith_spec. split.
    + intros [[rest H] | [front [rest H]]].
      * exists "", rest. exact H.
      * exists (String c front), rest. simpl. now rewrite H.
    + intros [[|x front] [rest H]].
      * left. now exists rest.
      * right. simpl in H. injection H as _ H. now exists front, rest.
Qed.

End StringFacts.

Module SplitFacts.
Import JsString StringFacts.

Lemma split_nonempty (sep : ascii) (s : string) : split sep s <> [].
Proof.
  destruct s as [|c s]; simpl; [discriminate|].
  destruct (Ascii.eqb c sep); [discriminate|].
  destruct (split sep s); discriminate.
Qed.

Lemma concat_cons (sep x : string) (l : list string) :
  l <> [] -> String.concat sep (x :: l) = x ++ sep ++ String.concat sep l.
Proof. destruct l; [congruence | reflexivity]. Qed.

Lemma concat_split (sep : ascii) (s : string) :
  String.concat (sepString sep) (split sep s) = s.
Proof.
  induction s as [|c s IH]; [reflexivity|].
  simpl. destruct (Ascii.eqb_spec c sep) as [->|Hne].
  - rewrite concat_cons by apply split_nonempty. now rewrite IH.
  - pose proof (split_nonempty sep s) as Hs.
    destruct (split sep s) as [|seg segs]; [congruence|].
    rewrite <- IH. destruct segs; reflexivity.
Qed.

Lemma free_empty (sep : ascii) : ~ Contains (sepString sep) "".
Proof. intros [[|x front] [rest H]]; discriminate. Qed.

Lemma free_tail (sep c : ascii) (s : string) :
  ~ Contains (sepString sep) (String c s) -> ~ Contains (sepString sep) s.
Proof.
  intros H [front [rest E]]. apply H.
  exists (String c front), rest. simpl. now rewrite E.
Qed.

Lemma free_head (sep c : ascii) (s : string) :
  ~ Contains (sepString sep) (String c s) -> c <> sep.
Proof.
  intros H ->. apply H. now exists "", s.
Qed.

Lemma free_cons (sep c : ascii) (s : string) :
  c <> sep -> ~ Contains (sepString sep) s ->
  ~ Contains (sepString sep) (String c s).
Proof.
  intros Hne H [[|x front] [rest E]]; simpl in E; injection E as E1 E2.
  - now elim Hne.
  - apply H. now exists front, rest.
Qed.

Lemma split_free (sep : ascii) (s : string) :
  Forall (fun x => ~ Contains (sepString sep) x) (split sep s).
Proof.
  induction s as [|c s IH]; simpl.
  - constructor; [apply free_empty | constructor].
  - destruct (Ascii.eqb_spec c sep) as [->|Hne].
    + constructor; [apply free_empty | exact IH].
    + destruct (split sep s) as [|seg segs].
      * constructor; [|constructor].
        apply free_cons; [exact Hne | apply free_empty].
      * inversion IH as [|? ? Hseg Hsegs]; subst.
        constructor; [now apply free_cons | exact Hsegs].
Qed.

Lemma split_of_free (sep : ascii) (x : string) :
  ~ Contains (sepString sep) x -> split sep x = [x].
Proof.
  induction x as [|c x IH]; intros H; [reflexivity|].
  simpl. destruct (Ascii.eqb_spec c sep) as [->|Hne].
  - now elim (free_head _ _ _ H).
  - now rewrite (IH (free_tail _ _ _ H)).
Qed.

Lemma split_append (sep : ascii) (a b : string) :
  split sep (a ++ String sep b) = (split sep a ++ split sep b)%list.
Proof.
  induction a as [|c a IH]; simpl.
  - now rewrite Ascii.eqb_refl.
  - destruct (Ascii.eqb c sep); rewrite IH; [reflexivity|].
    pose proof (split_nonempty sep a) as Ha.
    destruct (split sep a); [congruence | reflexivity].
Qed.

Lemma split_concat (sep : ascii) (segs : list string) :
  segs <> [] ->
  split sep (String.concat (sepString sep) segs) = flat_map (split sep) segs.
Proof.
  induction segs as [|x segs IH]; [congruence|]. intros _.
  destruct segs as [|y segs].
  - simpl. now rewrite app_nil_r.
  - rewrite concat_cons by discriminate.
    change (sepString sep ++ ?t) with (String sep t).
    rewrite split_append, IH by discriminate. reflexivity.
Qed.

Lemma split_concat_free (sep : ascii) (segs : list string) :
  segs <> [] ->
  Forall (fun x => ~ Contains (sepString sep) x) segs ->
  split sep (String.concat (sepString sep) segs) = segs.
Proof.
  intros Hne Hfree. rewrite split_concat by exact Hne.
  clear Hne. induction Hfree as [|x segs Hx _ IH]; [reflexivity|].
  simpl. now rewrite (split_of_free _ _ Hx), IH.
Qed.

Lemma Segment_spec (seg s : string) :
  In seg (split "/"%char s) <-> Segment seg s.
Proof.
  split.
  - intros H. exists (split "/"%char s). split; [|split].
    + apply (split_free "/"%char).
    + symmetry. apply (concat_split "/"%char).
    + exact H.
  - intros [segs [Hfree [-> Hin]]].
    rewrite (split_concat_free "/"%char); [exact Hin | | exact Hfree].
    intros ->. contradiction.
Qed.

Lemma replaceBackslashes_append (a b : string) :
  replaceBackslashes (a ++ b) = replaceBackslashes a ++ replaceBackslashes b.
Proof. induction a as [|c a IH]; simpl; [reflexivity | now rewrite IH]. Qed.

Lemma replaceBackslashes_concat (l : list string) :
  replaceBackslashes (String.concat "/" l)
  = String.concat "/" (map replaceBackslashes l).
Proof.
  induction l as [|x l IH]; [reflexivity|].
  destruct l as [|y l]; [reflexivity|].
  rewrite concat_cons by discriminate.
  change (map replaceBackslashes (x :: y :: l))
    with (replaceBackslashes x :: map replaceBackslashes (y :: l)).
  rewrite (concat_cons "/" (replaceBackslashes x)) by (simpl; discriminate).
  rewrite !replaceBackslashes_append, IH. reflexivity.
Qed.

Lemma replaceBackslashes_id (s : string) :
  ~ Contains "\" s -> replaceBackslashes s = s.
Proof.
  induction s as [|c s IH]; intros H; [reflexivity|]. simpl.
  destruct (Ascii.eqb_spec c "\"%char) as [->|Hne].
  - elim H. now exists "", s.
  - rewrite IH; [reflexivity|]. exact (free_tail "\"%char _ _ H).
Qed.

End SplitFacts.

(** ** The ignore matcher *)

Module MatcherFacts.
Import JsString StringFacts SplitFacts.

Lemma append_inj_r (a b c : string) : a ++ c = b ++ c -> a = b.
Proof.
  intros H.
  assert (L : String.length a = String.length b).
  { apply (f_equal String.length) in H. rewrite !length_append in H. lia. }
  rewrite <- (take_append a c), <- (take_append b c), H, L. reflexivity.
Qed.

Lemma patternMatches_spec (normalizedPath pattern : string) :
  patternMatches normalizedPath pattern = true
  <-> specMatches normalizedPath pattern.
Proof.
  unfold patternMatches.
  destruct (endsWith pattern "/**") eqn:Eglob.
  - apply endsWith_spec in Eglob as [front ->].
    change 3%nat with (String.length "/**"). rewrite sliceEnd_append.
    rewrite orb_true_iff, startsWith_spec, String.eqb_eq. split.
    + intros H. apply (MatchTree _ _ front); tauto.
    + intros [prefix E H | Hno _ _ | Hno _ _].
      * apply append_inj_r in E. subst prefix. tauto.
      * elim Hno. now exists front.
      * elim Hno. now exists front.
  - assert (Hno : ~ EndsWith "/**" pattern).
    { intros H. apply endsWith_spec in H. congruence. }
    destruct (includes pattern "/") eqn:Eslash.
    + apply includes_spec in Eslash. rewrite includes_spec. split.
      * intros H. now apply MatchSubstring.
      * intros [prefix E _ | _ _ H | _ Hfree _].
        -- elim Hno. now exists prefix.
        -- exact H.
        -- contradiction.
    + assert (Hfree : ~ Contains "/" pattern).
      { intros H. apply includes_spec in H. congruence. }
      split.
      * intros H. apply existsb_exists in H as [seg [Hin Heq]].
        apply String.eqb_eq in Heq. subst seg.
        apply MatchSegment; trivial. now apply Segment_spec.
      * intros [prefix E _ | _ Hc _ | _ _ H].
        -- elim Hno. now exists prefix.
        -- contradiction.
        -- apply existsb_exists. exists pattern.
           split; [now apply Segment_spec | apply String.eqb_refl].
Qed.

Lemma ignores_spec (allIgnores : list string) (filePath : string) :
  ignores allIgnores filePath = true
  <-> specIgnores allIgnores (replaceBackslashes filePath).
Proof.
  unfold ignores, specIgnores. rewrite existsb_exists.
  split; intros [pattern [Hin H]]; exists pattern; split; trivial;
    now apply patternMatches_spec.
Qed.

Lemma existsb_Permutation {A} (f : A -> bool) (l l' : list A) :
  Permutation l l' -> existsb f l = existsb f l'.
Proof.
  induction 1 as [|x l l' _ IH|x y l|l l' l'' _ IH1 _ IH2]; simpl.
  - reflexivity.
  - now rewrite IH.
  - now rewrite !orb_assoc, (orb_comm (f y)).
  - now rewrite IH1.
Qed.

End MatcherFacts.

(** C2. [ignores] answers true exactly when some pattern of the list
    matches the normalized path under the three-case rule of the
    specification (a [/**] pattern against its prefix, a pattern with a
    slash as a substring, any other pattern against the pieces between
    slashes); a path without backslashes is its own normalization; and the
    answer does not depend on the order of the patterns. *)
Theorem ignores_three_case_rule (allIgnores : list string) (filePath : string) :
  (ignores allIgnores filePath = true
   <-> specIgnores allIgnores (JsString.replaceBackslashes filePath))
  /\ (~ Contains "\" filePath -> JsString.replaceBackslashes filePath = filePath)
  /\ (forall reordered, Permutation allIgnores reordered ->
        ignores reordered filePath = ignores allIgnores filePath).
Proof.
  split; [apply MatcherFacts.ignores_spec | split].
  - apply SplitFacts.replaceBackslashes_id.
  - intros reordered HP. unfold ignores. symmetry.
    now apply MatcherFacts.existsb_Permutation.
Qed.

Lemma ignores_three_case_rule_witness :
  specIgnores ["docs/"; "build/**"; "tmp"] "build/out.js"
  /\ ignores ["build/**"; "docs/"; "tmp"] "build/out.js"
     = ignores ["docs/"; "build/**"; "tmp"] "build/out.js".
Proof.
  pose proof (ignores_three_case_rule ["docs/"; "build/**"; "tmp"]
                                      "build/out.js") as [H1 [_ H3]].
  split.
  - apply H1. reflexivity.
  - apply H3. apply perm_swap.
Defined.

(** ** Sorting *)

Section SortFacts.

Context {A : Type} (compare : A -> A -> Z).

Lemma insertSorted_Permutation (x : A) (l : list A) :
  Permutation (insertSorted compare x l) (x :: l).
Proof.
  induction l as [|y l IH]; simpl; [reflexivity|].
  destruct (0 <? compare x y)%Z; [|reflexivity].
  rewrite IH. apply perm_swap.
Qed.

Lemma sort_Permutation (l : list A) : Permutation (sort compare l) l.
Proof.
  induction l as [|x l IH]; simpl; [reflexivity|].
  rewrite insertSorted_Permutation. now constructor.
Qed.

Lemma sort_In (x : A) (l : list A) : In x (sort compare l) <-> In x l.
Proof.
  split; apply Permutation_in;
    [apply sort_Permutation | symmetry; apply sort_Permutation].
Qed.

Local Abbreviation notAfter := (notAfter compare).

Hypothesis compare_opposite :
  forall a b, (0 < compare a b)%Z -> (compare b a <= 0)%Z.
Hypothesis compare_transitive :
  forall a b c, (compare a b <= 0)%Z -> (compare b c <= 0)%Z ->
                (compare a c <= 0)%Z.

Lemma insertSorted_sorted (x : A) (l : list A) :
  StronglySorted notAfter l ->
  StronglySorted notAfter (insertSorted compare x l).
Proof.
  induction 1 as [|y l Hs IH Hy]; simpl.
  - constructor; constructor.
  - destruct (0 <? compare x y)%Z eqn:E.
    + apply Z.ltb_lt in E. constructor; [exact IH|].
      apply (Permutation_Forall
               (Permutation_sym (insertSorted_Permutation x l))).
      constructor; [now apply compare_opposite | exact Hy].
    + apply Z.ltb_ge in E. constructor; [now constructor|].
      constructor; [exact E|].
      apply (Forall_impl _ (fun b Hb => compare_transitive x y b E Hb) Hy).
Qed.

Lemma sort_sorted (l : list A) : StronglySorted notAfter (sort compare l).
Proof.
  induction l as [|x l IH]; simpl; [constructor|].
  now apply insertSorted_sorted.
Qed.

End SortFacts.

(** ** The scanner *)

Lemma Dirent_nested_ind (P : Dirent -> Prop) :
  (forall n c, P (File n c)) ->
  (forall n, P (Directory n None)) ->
  (forall n entries, Forall P entries -> P (Directory n (Some entries))) ->
  forall entry, P entry.
Proof.
  intros HF HN HS. fix IH 1. intros [n c | n [entries|]].
  - apply HF.
  - apply HS. induction entries as [|e es IHes]; constructor.
    + apply IH.
    + exact IHes.
  - apply HN.
Qed.

Lemma FileNode_nested_ind (P : FileNode -> Prop) :
  (forall nm p d lvl, P (mkFileNode nm p d None lvl)) ->
  (forall nm p d kids lvl, Forall P kids ->
                           P (mkFileNode nm p d (Some kids) lvl)) ->
  forall n, P n.
Proof.
  intros HN HS. fix IH 1. intros [nm p d [kids|] lvl].
  - apply HS. induction kids as [|k ks IHks]; constructor.
    + apply IH.
    + exact IHks.
  - apply HN.
Qed.

Lemma subtree_unfold (n : FileNode) :
  subtree n = n :: match children n with
                   | Some kids => allNodes kids
                   | None => []
                   end.
Proof. now destruct n as [nm p d [kids|] lvl]. Qed.

Section ScanFacts.

Variable localeCompare : string -> string -> Z.

Local Abbreviation scanSub := (scanSubdirectory localeCompare).
Local Abbreviation scan := (scanDirectory localeCompare).

Lemma scanDirectoryWith_returns recur listing dirPath options ig lvl :
  exists nodes,
    fst (scanDirectoryWith localeCompare recur listing dirPath options ig lvl)
    = Returned nodes.
Proof.
  unfold scanDirectoryWith.
  destruct (depthReached options lvl); [eexists; reflexivity|].
  destruct listing as [entries|]; [|eexists; reflexivity].
  destruct (tryForOf _ entries). eexists; reflexivity.
Qed.

Lemma scanSubdirectory_returns entry dirPath options ig lvl :
  exists nodes, fst (scanSub entry dirPath options ig lvl) = Returned nodes.
Proof. destruct entry; apply scanDirectoryWith_returns. Qed.

Lemma scanSubdirectory_resultOf entry dirPath options ig lvl :
  fst (scanSub entry dirPath options ig lvl)
  = Returned (resultOf (scanSub entry dirPath options ig lvl)).
Proof.
  destruct (scanSubdirectory_returns entry dirPath options ig lvl) as [ns H].
  unfold resultOf. now rewrite H.
Qed.

Lemma scanSubdirectory_Directory nm listing dirPath options ig lvl :
  scanSub (Directory nm listing) dirPath options ig lvl
  = scan listing dirPath options ig lvl.
Proof. reflexivity. Qed.

Lemma scanSubdirectory_File nm text dirPath options ig lvl :
  scanSub (File nm text) dirPath options ig lvl
  = scan None dirPath options ig lvl.
Proof.
  simpl. unfold scanDirectory, scanDirectoryWith.
  now destruct (depthReached options lvl).
Qed.

Lemma scanDirectory_depth listing dirPath options ig lvl :
  depthReached options lvl = true ->
  scan listing dirPath options ig lvl = (Returned [], []).
Proof.
  intros H. unfold scanDirectory, scanDirectoryWith. now rewrite H.
Qed.

Lemma scanSubdirectory_depth entry dirPath options ig lvl :
  depthReached options lvl = true ->
  scanSub entry dirPath options ig lvl = (Returned [], []).
Proof.
  intros H. destruct entry.
  - rewrite scanSubdirectory_File. now apply scanDirectory_depth.
  - rewrite scanSubdirectory_Directory. now apply scanDirectory_depth.
Qed.

Lemma scanDirectory_unreadable dirPath options ig lvl :
  depthReached options lvl = false ->
  scan None dirPath options ig lvl = (Returned [], [ReadDir dirPath]).
Proof.
  intros H. unfold scanDirectory, scanDirectoryWith. now rewrite H.
Qed.

Lemma scanEntry_value dirPath options ig lvl entry :
  fst (scanEntry scanSub dirPath options ig lvl entry)
  = Returned
      (if skipped options ig dirPath entry then None
       else Some (nodeFor options dirPath lvl entry
                    (resultOf (scanSub entry
                                 (NodePath.join dirPath (dirent_name entry))
                                 options ig (lvl + 1)%Z)))).
Proof.
  unfold scanEntry, skipped, hiddenSkip, nodeFor, relativePathOf.
  destruct (falsy (showHidden options)
            && JsString.startsWith (dirent_name entry) "."); [reflexivity|].
  simpl.
  destruct (ignores ig _); [reflexivity|].
  destruct (dirent_isDirectory entry); [|reflexivity].
  pose proof (scanSubdirectory_resultOf entry
                (NodePath.join dirPath (dirent_name entry)) options ig
                (lvl + 1)%Z) as H.
  unfold bind. simpl.
  destruct (scanSub entry _ options ig (lvl + 1)%Z) as [[kids|message] log];
    simpl in H; [reflexivity | discriminate].
Qed.

Lemma tryForOf_total {E} (body : E -> Eff (option FileNode)) entries :
  (forall e, exists v, fst (body e) = Returned v) ->
  fst (tryForOf body entries)
  = flat_map (fun e => match fst (body e) with
                       | Returned (Some n) => [n]
                       | _ => []
                       end) entries.
Proof.
  intros Htotal. induction entries as [|e es IH]; [reflexivity|].
  simpl. destruct (Htotal e) as [v Hv].
  destruct (body e) as [[pushed|message] log]; simpl in Hv; [|discriminate].
  destruct (tryForOf body es) as [items log']. simpl in IH. simpl.
  rewrite <- IH. now destruct pushed.
Qed.

Lemma scanDirectory_nodes entries dirPath options ig lvl :
  depthReached options lvl = false ->
  fst (scan (Some entries) dirPath options ig lvl)
  = Returned (sort (compareNodes localeCompare)
                   (retained localeCompare options ig dirPath lvl entries)).
Proof.
  intros Hdepth. unfold scanDirectory, scanDirectoryWith. rewrite Hdepth.
  pose proof (tryForOf_total (scanEntry scanSub dirPath options ig lvl) entries)
    as H.
  destruct (tryForOf _ entries) as [items log]. simpl in *.
  rewrite H by (intros e; eexists; apply scanEntry_value).
  f_equal. f_equal. unfold retained.
  apply flat_map_ext. intros e. rewrite scanEntry_value.
  now destruct (skipped options ig dirPath e).
Qed.

(** The nodes of one level, one by one. *)
Lemma scanDirectory_In listing dirPath options ig lvl nodes n :
  fst (scan listing dirPath options ig lvl) = Returned nodes ->
  In n nodes ->
  depthReached options lvl = false
  /\ exists entries entry,
      listing = Some entries /\ In entry entries
      /\ skipped options ig dirPath entry = false
      /\ n = nodeFor options dirPath lvl entry
               (resultOf (scanSub entry
                            (NodePath.join dirPath (dirent_name entry))
                            options ig (lvl + 1)%Z)).
Proof.
  intros Hscan Hin.
  destruct (depthReached options lvl) eqn:Hdepth.
  - rewrite scanDirectory_depth in Hscan by exact Hdepth.
    injection Hscan as <-. contradiction.
  - split; [reflexivity|]. destruct listing as [entries|].
    + rewrite scanDirectory_nodes in Hscan by exact Hdepth.
      injection Hscan as <-. apply sort_In in Hin.
      unfold retained in Hin. apply in_flat_map in Hin as [entry [He Hn]].
      exists entries, entry.
      destruct (skipped options ig dirPath entry); [contradiction|].
      destruct Hn as [<-|[]]. auto.
    + rewrite scanDirectory_unreadable in Hscan by exact Hdepth.
      injection Hscan as <-. contradiction.
Qed.

(** A property of the nodes of every single level, whatever directory is
    scanned under [inv], holds of the whole tree. *)
Lemma scan_tree_invariant options ig
    (inv : string -> Z -> Prop) (Q : FileNode -> Prop) :
  (forall dirPath lvl nm,
      inv dirPath lvl -> inv (NodePath.join dirPath nm) (lvl + 1)%Z) ->
  (forall listing dirPath lvl nodes,
      inv dirPath lvl ->
      fst (scan listing dirPath options ig lvl) = Returned nodes ->
      Forall Q nodes) ->
  forall listing dirPath lvl nodes,
    inv dirPath lvl ->
    fst (scan listing dirPath options ig lvl) = Returned nodes ->
    Forall Q (allNodes nodes).
Proof.
  intros Hstep Hlevel.
  assert (Hsub : forall entry dirPath lvl,
             inv dirPath lvl ->
             Forall Q (allNodes (resultOf (scanSub entry dirPath options ig lvl)))).
  { induction entry as [nm text | nm | nm entries IH] using Dirent_nested_ind;
      intros dirPath lvl Hinv.
    - rewrite scanSubdirectory_File. unfold resultOf.
      destruct (depthReached options lvl) eqn:Hd.
      + rewrite scanDirectory_depth by exact Hd. constructor.
      + rewrite scanDirectory_unreadable by exact Hd. constructor.
    - rewrite scanSubdirectory_Directory. unfold resultOf.
      destruct (depthReached options lvl) eqn:Hd.
      + rewrite scanDirectory_depth by exact Hd. constructor.
      + rewrite scanDirectory_unreadable by exact Hd. constructor.
    - pose proof (scanSubdirectory_resultOf (Directory nm (Some entries))
                    dirPath options ig lvl) as Hres.
      rewrite scanSubdirectory_Directory in Hres.
      pose proof (Hlevel _ _ _ _ Hinv Hres) as HQ.
      unfold allNodes. apply Forall_flat_map.
      rewrite Forall_forall in *. intros n Hn.
      destruct (scanDirectory_In _ _ _ _ _ _ _ Hres Hn)
        as [_ [es [entry [Hes [Hentry [_ ->]]]]]].
      injection Hes as <-.
      rewrite subtree_unfold.
      constructor; [now apply HQ|].
      unfold nodeFor. simpl.
      destruct (dirent_isDirectory entry); [|constructor].
      apply (IH entry Hentry). now apply Hstep. }
  intros listing dirPath lvl nodes Hinv Hscan.
  pose proof (Hsub (Directory "" listing) dirPath lvl Hinv) as H.
  rewrite scanSubdirectory_Directory in H. unfold resultOf in H.
  now rewrite Hscan in H.
Qed.

End ScanFacts.

(** *** Depth limit *)

Section DepthFacts.

Variable localeCompare : string -> string -> Z.
Variables (options : GtreeOptions) (ig : list string) (d : Z).
Hypothesis maxDepth_set : maxDepth options = Some (Finite d).

Lemma depthReached_iff lvl : depthReached options lvl = true <-> (d <= lvl)%Z.
Proof. unfold depthReached. rewrite maxDepth_set. apply Z.leb_le. Qed.

Lemma level_of_scanned listing dirPath lvl nodes :
  fst (scanDirectory localeCompare listing dirPath options ig lvl)
  = Returned nodes ->
  Forall (fun n => level n = lvl /\ (lvl < d)%Z) nodes.
Proof.
  intros Hscan. apply Forall_forall. intros n Hn.
  destruct (scanDirectory_In _ _ _ _ _ _ _ _ Hscan Hn)
    as [Hd [entries [entry [_ [_ [_ ->]]]]]].
  split; [reflexivity|].
  destruct (Z.lt_ge_cases lvl d) as [H|H]; [exact H|].
  apply depthReached_iff in H. congruence.
Qed.

Lemma levels_bounded lvl0 listing dirPath lvl nodes :
  (lvl0 <= lvl)%Z ->
  fst (scanDirectory localeCompare listing dirPath options ig lvl)
  = Returned nodes ->
  Forall (fun n => (lvl0 <= level n < d)%Z) (allNodes nodes).
Proof.
  apply (scan_tree_invariant localeCompare options ig
           (fun _ l => (lvl0 <= l)%Z)).
  - intros; lia.
  - intros l p lv ns Hinv Hscan.
    eapply Forall_impl; [|apply (level_of_scanned _ _ _ _ Hscan)].
    simpl. intros n [H1 H2]. lia.
Qed.

Lemma deepest_childless listing dirPath lvl nodes :
  fst (scanDirectory localeCompare listing dirPath options ig lvl)
  = Returned nodes ->
  Forall (fun n => isDirectory n = true -> level n = (d - 1)%Z ->
                   children n = Some []) (allNodes nodes).
Proof.
  apply (scan_tree_invariant localeCompare options ig (fun _ _ => True));
    [trivial | | trivial].
  intros l p lv ns _ Hscan. apply Forall_forall. intros n Hn.
  destruct (scanDirectory_In _ _ _ _ _ _ _ _ Hscan Hn)
    as [_ [entries [entry [_ [_ [_ ->]]]]]].
  unfold nodeFor. simpl. intros Hdir Hlv.
  rewrite Hdir, scanSubdirectory_depth; [reflexivity|].
  apply depthReached_iff. lia.
Qed.

Lemma deepest_directory_listed entries entry dirPath lvl :
  In entry entries ->
  dirent_isDirectory entry = true ->
  skipped options ig dirPath entry = false ->
  lvl = (d - 1)%Z ->
  exists n,
    In n (resultOf (scanDirectory localeCompare (Some entries) dirPath
                                  options ig lvl))
    /\ name n = dirent_name entry /\ isDirectory n = true
    /\ level n = lvl /\ children n = Some [].
Proof.
  intros Hin Hdir Hkept Hlvl.
  assert (Hd : depthReached options lvl = false).
  { destruct (depthReached options lvl) eqn:E; [|reflexivity].
    apply depthReached_iff in E. lia. }
  unfold resultOf. rewrite scanDirectory_nodes by exact Hd.
  eexists. split.
  - apply sort_In. unfold retained. apply in_flat_map.
    exists entry. split; [exact Hin|]. rewrite Hkept. left. reflexivity.
  - unfold nodeFor. simpl. rewrite Hdir. repeat split.
    rewrite scanSubdirectory_depth; [reflexivity|].
    apply depthReached_iff. lia.
Qed.

End DepthFacts.

(** C3. With [maxDepth] set to [d]: a call at a level not below [d]
    returns no node and reads nothing ([ReadDir] is not logged); in the
    result of any call every node has its level below [d], so at most
    [d]; a directory node on the last level [d - 1] has an empty list of
    children; and a retained directory entry met on that level is listed
    by name, with no children, whatever the directory holds on disk. *)
Theorem depth_limit (localeCompare : string -> string -> Z)
    (options : GtreeOptions) (ig : list string) (d : Z)
    (listing : option (list Dirent)) (dirPath : string) (currentLevel : Z) :
  maxDepth options = Some (Finite d) ->
  ((d <= currentLevel)%Z ->
     scanDirectory localeCompare listing dirPath options ig currentLevel
     = (Returned [], []))
  /\ (forall nodes,
        fst (scanDirectory localeCompare listing dirPath options ig
                           currentLevel) = Returned nodes ->
        Forall (fun n => (level n <= d)%Z /\ (currentLevel <= level n < d)%Z)
               (allNodes nodes)
        /\ Forall (fun n => isDirectory n = true -> level n = (d - 1)%Z ->
                            children n = Some []) (allNodes nodes))
  /\ (forall entries entry,
        listing = Some entries -> In entry entries ->
        dirent_isDirectory entry = true ->
        skipped options ig dirPath entry = false ->
        currentLevel = (d - 1)%Z ->
        exists n,
          In n (resultOf (scanDirectory localeCompare listing dirPath options
                                        ig currentLevel))
          /\ name n = dirent_name entry /\ isDirectory n = true
          /\ level n = currentLevel /\ children n = Some []).
Proof.
  intros Hmax. split; [|split].
  - intros H. apply scanDirectory_depth.
    now apply (depthReached_iff options d Hmax).
  - intros nodes Hscan. split.
    + apply (Forall_impl _ (fun n (H : (currentLevel <= level n < d)%Z) =>
                              conj (Z.lt_le_incl _ _ (proj2 H)) H)).
      apply (levels_bounded localeCompare options ig d Hmax currentLevel
               listing dirPath currentLevel nodes (Z.le_refl _) Hscan).
    + exact (deepest_childless localeCompare options ig d Hmax
               listing dirPath currentLevel nodes Hscan).
  - intros entries entry -> Hin Hdir Hkept Hlvl.
    exact (deepest_directory_listed localeCompare options ig d Hmax
             entries entry dirPath currentLevel Hin Hdir Hkept Hlvl).
Qed.

Lemma depth_limit_witness :
  scanDirectory codeUnitCompare scenarioC projectPath depthTwo
                defaultIgnores 2
  = (Returned [], [])
  /\ exists n,
      In n (resultOf (scanDirectory codeUnitCompare
                        (Some [File "level2_file.txt" ""; level2])
                        (projectPath ++ "/level1_dir") depthTwo
                        defaultIgnores 1))
      /\ name n = "level2_dir" /\ isDirectory n = true
      /\ level n = 1%Z /\ children n = Some [].
Proof.
  split.
  - apply (depth_limit codeUnitCompare depthTwo defaultIgnores 2 scenarioC
             projectPath 2 eq_refl).
    discriminate.
  - apply (proj2 (proj2 (depth_limit codeUnitCompare depthTwo defaultIgnores 2
                           (Some [File "level2_file.txt" ""; level2])
                           (projectPath ++ "/level1_dir") 1 eq_refl))
             [File "level2_file.txt" ""; level2] level2);
      try reflexivity.
    right. left. reflexivity.
Defined.

(** *** Names on the way to a node *)

Lemma treePaths_names (nodes : list FileNode) (names : list string) (x : string) :
  In names (treePaths nodes) -> In x names ->
  exists n, In n (allNodes nodes) /\ name n = x.
Proof.
  assert (Hnode : forall n names, In names (pathsOf n) -> In x names ->
                    exists m, In m (subtree n) /\ name m = x).
  { induction n as [nm p d lvl | nm p d kids lvl IH] using FileNode_nested_ind;
      intros ns Hns Hx; simpl in Hns.
    - destruct Hns as [<-|[]]. destruct Hx as [<-|[]].
      eexists. split; [left; reflexivity | reflexivity].
    - destruct Hns as [<-|Hns].
      + destruct Hx as [<-|[]].
        eexists. split; [left; reflexivity | reflexivity].
      + apply in_map_iff in Hns as [rest [<- Hrest]].
        destruct Hx as [<-|Hx].
        * eexists. split; [left; reflexivity | reflexivity].
        * apply in_flat_map in Hrest as [k [Hk Hrest]].
          rewrite Forall_forall in IH.
          destruct (IH k Hk rest Hrest Hx) as [m [Hm Hname]].
          exists m. split; [|exact Hname].
          simpl. right. apply in_flat_map. now exists k. }
  intros Hns Hx. apply in_flat_map in Hns as [n [Hn Hns]].
  destruct (Hnode n names Hns Hx) as [m [Hm Hname]].
  exists m. split; [|exact Hname].
  apply in_flat_map. now exists n.
Qed.

(** *** Hidden entries *)

Section HiddenFacts.

Variable localeCompare : string -> string -> Z.
Variables (options : GtreeOptions) (ig : list string).

Lemma hidden_skipped_first recur dirPath lvl entry :
  hiddenSkip options entry = true ->
  scanEntry recur dirPath options ig lvl entry = (Returned None, []).
Proof.
  unfold hiddenSkip, scanEntry. now intros ->.
Qed.

Lemma visible_queried recur dirPath lvl entry :
  hiddenSkip options entry = false ->
  exists log,
    snd (scanEntry recur dirPath options ig lvl entry)
    = IgnoreQuery (relativePathOf options dirPath (dirent_name entry)) :: log.
Proof.
  unfold hiddenSkip, scanEntry, relativePathOf. intros ->.
  unfold bind, tell.
  destruct (ignores ig _); [eexists; reflexivity|].
  destruct (dirent_isDirectory entry); [|eexists; reflexivity].
  destruct (recur entry _ options ig (lvl + 1)%Z) as [[kids|message] log];
    eexists; reflexivity.
Qed.

Lemma hidden_absent listing dirPath lvl nodes :
  falsy (showHidden options) = true ->
  fst (scanDirectory localeCompare listing dirPath options ig lvl)
  = Returned nodes ->
  Forall (fun n => JsString.startsWith (name n) "." = false) (allNodes nodes).
Proof.
  intros Hfalsy.
  apply (scan_tree_invariant localeCompare options ig (fun _ _ => True));
    [trivial | | trivial].
  intros l p lv ns _ Hscan. apply Forall_forall. intros n Hn.
  destruct (scanDirectory_In _ _ _ _ _ _ _ _ Hscan Hn)
    as [_ [entries [entry [_ [_ [Hkept ->]]]]]].
  unfold skipped, hiddenSkip in Hkept. rewrite Hfalsy in Hkept.
  apply orb_false_iff in Hkept as [Hkept _]. exact Hkept.
Qed.

Lemma shown_when_requested entries entry dirPath lvl :
  showHidden options = Some true ->
  depthReached options lvl = false ->
  In entry entries ->
  ignores ig (relativePathOf options dirPath (dirent_name entry)) = false ->
  exists n,
    In n (resultOf (scanDirectory localeCompare (Some entries) dirPath
                                  options ig lvl))
    /\ name n = dirent_name entry.
Proof.
  intros Hshow Hd Hin Hig.
  unfold resultOf. rewrite scanDirectory_nodes by exact Hd.
  eexists. split.
  - apply sort_In. unfold retained. apply in_flat_map.
    exists entry. split; [exact Hin|].
    unfold skipped, hiddenSkip. rewrite Hshow, Hig. left. reflexivity.
  - reflexivity.
Qed.

End HiddenFacts.

(** C8. An entry whose name starts with a dot is left out of the result,
    and with it everything below it, unless [showHidden] is true: when
    [showHidden] is not true the loop skips the entry before [ig.ignores]
    is asked (nothing is logged for it, while every other entry starts
    with the ignore query), and no node of the result has such a name or
    sits below such a name;
    when [showHidden] is true an entry that the patterns do not match is
    listed, dot or not. *)
Theorem hidden_entries (localeCompare : string -> string -> Z)
    (options : GtreeOptions) (ig : list string)
    (dirPath : string) (currentLevel : Z) :
  (forall recur entry,
      falsy (showHidden options) = true ->
      JsString.startsWith (dirent_name entry) "." = true ->
      scanEntry recur dirPath options ig currentLevel entry
      = (Returned None, []))
  /\ (forall recur entry,
        hiddenSkip options entry = false ->
        exists log,
          snd (scanEntry recur dirPath options ig currentLevel entry)
          = IgnoreQuery (relativePathOf options dirPath (dirent_name entry))
              :: log)
  /\ (forall listing nodes,
        falsy (showHidden options) = true ->
        fst (scanDirectory localeCompare listing dirPath options ig
                           currentLevel) = Returned nodes ->
        Forall (fun n => JsString.startsWith (name n) "." = false)
               (allNodes nodes)
        /\ forall names x,
            In names (treePaths nodes) -> In x names ->
            JsString.startsWith x "." = false)
  /\ (forall entries entry,
        showHidden options = Some true ->
        depthReached options currentLevel = false ->
        In entry entries ->
        ignores ig (relativePathOf options dirPath (dirent_name entry))
        = false ->
        exists n,
          In n (resultOf (scanDirectory localeCompare (Some entries) dirPath
                                        options ig currentLevel))
          /\ name n = dirent_name entry).
Proof.
  split; [|split; [|split]].
  - intros recur entry Hf Hdot. apply hidden_skipped_first.
    unfold hiddenSkip. now rewrite Hf, Hdot.
  - intros recur entry. apply visible_queried.
  - intros listing nodes Hf Hscan.
    pose proof (hidden_absent localeCompare options ig listing dirPath
                  currentLevel nodes Hf Hscan) as Hall.
    split; [exact Hall|].
    intros names x Hnames Hx.
    destruct (treePaths_names nodes names x Hnames Hx) as [n [Hn <-]].
    rewrite Forall_forall in Hall. now apply Hall.
  - intros entries entry. apply shown_when_requested.
Qed.

Lemma hidden_entries_witness :
  Forall (fun n => JsString.startsWith (name n) "." = false)
         (allNodes (resultOf (scanDirectory codeUnitCompare scenarioHidden
                                projectPath plainOptions defaultIgnores 0)))
  /\ exists n,
      In n (resultOf (scanDirectory codeUnitCompare scenarioHidden
                        projectPath allOptions defaultIgnores 0))
      /\ name n = ".hidden_file.txt".
Proof.
  split.
  - apply (proj1 (proj2 (proj2 (hidden_entries codeUnitCompare plainOptions
                                  defaultIgnores projectPath 0)))
             scenarioHidden _ eq_refl eq_refl).
  - apply (proj2 (proj2 (proj2 (hidden_entries codeUnitCompare allOptions
                                  defaultIgnores projectPath 0)))
             _ (File ".hidden_file.txt" "secret")); try reflexivity.
    left. reflexivity.
Defined.

(** *** Paths below the base directory *)

Module PathFacts.
Import JsString StringFacts SplitFacts.

Lemma drop_within (k : nat) (a b : string) :
  (k <= String.length a)%nat -> drop k (a ++ b) = drop k a ++ b.
Proof.
  revert a; induction k as [|k IH]; intros [|c a] H; simpl in *;
    try reflexivity; try lia.
  apply IH. lia.
Qed.

Lemma drop_past (a b : string) (k : nat) :
  drop (String.length a + k) (a ++ b) = drop k b.
Proof. induction a as [|c a IH]; simpl; [reflexivity | exact IH]. Qed.

Lemma orDot_base (base : string) : base <> "" -> orDot (Some base) = base.
Proof.
  intros H. unfold orDot. destruct (String.eqb_spec base ""); congruence.
Qed.

Lemma below_join (base dirPath nm : string) :
  base <> "" -> below base dirPath -> below base (NodePath.join dirPath nm).
Proof.
  intros Hbase Hb. unfold below, NodePath.join.
  assert (Hlen : (1 <= String.length base)%nat).
  { destruct base; [congruence | simpl; lia]. }
  destruct (String.eqb_spec dirPath "/") as [->|Hne].
  - destruct Hb as [<-|H]; [|simpl in H; lia].
    destruct nm as [|c nm]; [now left | right; simpl; lia].
  - right. rewrite length_append. simpl. destruct Hb as [->|H]; lia.
Qed.

(** The relative path of an entry ends with its name, after a slash
    unless it is the name alone. *)
Lemma relative_ends_with_name (base dirPath nm : string) :
  base <> "" -> below base dirPath ->
  exists front,
    NodePath.relative base (NodePath.join dirPath nm) = front ++ nm
    /\ (front = "" \/ EndsWith "/" front).
Proof.
  intros Hbase Hb. unfold NodePath.relative, NodePath.join.
  assert (Hlen : (1 <= String.length base)%nat).
  { destruct base; [congruence | simpl; lia]. }
  destruct (String.eqb_spec dirPath "/") as [->|Hne].
  - destruct Hb as [<-|H]; [|simpl in H; lia].
    simpl. exists "". auto.
  - destruct (String.eqb_spec base "/") as [->|Hnb].
    + destruct Hb as [->|H]; [congruence|].
      destruct dirPath as [|c rest]; [simpl in H; lia|].
      simpl. exists (rest ++ "/"). split.
      * now rewrite append_assoc.
      * right. now exists rest.
    + destruct Hb as [->|H].
      * replace (S (String.length base)) with (String.length base + 1)%nat
          by lia.
        rewrite drop_past. simpl. exists "". auto.
      * rewrite drop_within by lia.
        exists (drop (S (String.length base)) dirPath ++ "/"). split.
        -- now rewrite append_assoc.
        -- right. now eexists.
Qed.

(** A default pattern matches every path whose last piece it is. *)
Lemma default_name_ignored (patterns : list string) (front nm : string) :
  In nm defaultIgnores ->
  front = "" \/ EndsWith "/" front ->
  ignores (defaultIgnores ++ patterns) (front ++ nm) = true.
Proof.
  intros Hnm Hfront. unfold ignores. apply existsb_exists.
  exists nm. split; [apply in_or_app; now left|].
  assert (Hcase : patternMatches (replaceBackslashes (front ++ nm)) nm
                  = existsb (String.eqb nm)
                      (split "/"%char (replaceBackslashes (front ++ nm)))).
  { simpl in Hnm. destruct Hnm as [<-|[<-|[<-|[]]]]; reflexivity. }
  assert (Hid : replaceBackslashes nm = nm).
  { simpl in Hnm. destruct Hnm as [<-|[<-|[<-|[]]]]; reflexivity. }
  assert (Hone : split "/"%char nm = [nm]).
  { simpl in Hnm. destruct Hnm as [<-|[<-|[<-|[]]]]; reflexivity. }
  rewrite Hcase, replaceBackslashes_append, Hid.
  apply existsb_exists. exists nm. split; [|apply String.eqb_refl].
  destruct Hfront as [->|[f ->]].
  - simpl. rewrite Hone. now left.
  - rewrite replaceBackslashes_append, append_assoc. simpl.
    rewrite split_append, Hone. apply in_or_app. right. now left.
Qed.

End PathFacts.

(** *** Default exclusions *)

Lemma ignored_not_pushed recur dirPath options ig lvl entry :
  ignores ig (relativePathOf options dirPath (dirent_name entry)) = true ->
  fst (scanEntry recur dirPath options ig lvl entry) = Returned None.
Proof.
  unfold scanEntry, relativePathOf. intros ->.
  now destruct (falsy (showHidden options)
                && JsString.startsWith (dirent_name entry) ".").
Qed.

Lemma defaults_absent (localeCompare : string -> string -> Z)
    (options : GtreeOptions) (base : string) (patterns : list string)
    listing lvl nodes :
  base <> "" ->
  baseDirectory options = Some base ->
  fst (scanDirectory localeCompare listing base options
                     (defaultIgnores ++ patterns) lvl) = Returned nodes ->
  Forall (fun n => ~ In (name n) defaultIgnores) (allNodes nodes).
Proof.
  intros Hbase Hopt.
  apply (scan_tree_invariant localeCompare options
           (defaultIgnores ++ patterns) (fun dirPath _ => below base dirPath)).
  - intros dirPath l nm. now apply PathFacts.below_join.
  - intros l dirPath lv ns Hb Hscan. apply Forall_forall. intros n Hn.
    destruct (scanDirectory_In _ _ _ _ _ _ _ _ Hscan Hn)
      as [_ [entries [entry [_ [_ [Hkept ->]]]]]].
    unfold nodeFor. simpl. intros Hdefault.
    unfold skipped in Hkept. apply orb_false_iff in Hkept as [_ Hkept].
    unfold relativePathOf in Hkept.
    rewrite Hopt, PathFacts.orDot_base in Hkept by exact Hbase.
    destruct (PathFacts.relative_ends_with_name base dirPath
                (dirent_name entry) Hbase Hb) as [front [Hrel Hfront]].
    rewrite Hrel, PathFacts.default_name_ignored in Hkept;
      [discriminate | exact Hdefault | exact Hfront].
  - now left.
Qed.

(** C10. Whatever [showHidden] is, and so when it is true: an entry whose
    relative path the patterns match is never pushed (the ignore test is
    not guarded by [showHidden]), and in the scan that [generateTree]
    starts at its base directory no node is named [.git], [.DS_Store] or
    [node_modules], nor does any node sit below such a name. *)
Theorem defaults_survive_showHidden (localeCompare : string -> string -> Z)
    (options : GtreeOptions) (w : World) (base : string)
    (listing : option (list Dirent)) :
  base <> "" ->
  baseDirectory options = Some base ->
  (forall recur dirPath lvl entry,
      ignores (createIgnoreInstance w base)
              (relativePathOf options dirPath (dirent_name entry)) = true ->
      fst (scanEntry recur dirPath options (createIgnoreInstance w base)
                     lvl entry) = Returned None)
  /\ (forall nodes,
        fst (scanDirectory localeCompare listing base options
                           (createIgnoreInstance w base) 0) = Returned nodes ->
        Forall (fun n => ~ In (name n) [".git"; ".DS_Store"; "node_modules"])
               (allNodes nodes)
        /\ forall names x,
            In names (treePaths nodes) -> In x names ->
            ~ In x [".git"; ".DS_Store"; "node_modules"]).
Proof.
  intros Hbase Hopt. split.
  - intros recur dirPath lvl entry. apply ignored_not_pushed.
  - intros nodes Hscan.
    assert (Hall : Forall (fun n => ~ In (name n) defaultIgnores)
                          (allNodes nodes)).
    { unfold createIgnoreInstance in Hscan.
      exact (defaults_absent localeCompare options base _ listing 0 nodes
               Hbase Hopt Hscan). }
    split; [exact Hall|].
    intros names x Hnames Hx.
    destruct (treePaths_names nodes names x Hnames Hx) as [n [Hn <-]].
    rewrite Forall_forall in Hall. now apply Hall.
Qed.

Lemma defaults_survive_showHidden_witness :
  showHidden allOptions = Some true
  /\ Forall (fun n => ~ In (name n) [".git"; ".DS_Store"; "node_modules"])
            (allNodes (resultOf (scanDirectory codeUnitCompare scenarioHidden
                                   projectPath allOptions
                                   (createIgnoreInstance
                                      (projectWorld scenarioHidden)
                                      projectPath) 0))).
Proof.
  split; [reflexivity|].
  apply (proj2 (defaults_survive_showHidden codeUnitCompare allOptions
                  (projectWorld scenarioHidden) projectPath scenarioHidden
                  ltac:(discriminate) eq_refl)).
  reflexivity.
Defined.

(** *** Sort order *)

Lemma StronglySorted_weaken {A} (R R' : A -> A -> Prop) (l : list A) :
  (forall a b, R a b -> R' a b) -> StronglySorted R l -> StronglySorted R' l.
Proof.
  intros Himp. induction 1 as [|a l _ IH Ha]; constructor; [exact IH|].
  exact (Forall_impl _ (Himp a) Ha).
Qed.

Lemma codeUnitCompare_opposite (a b : string) :
  (0 < codeUnitCompare a b)%Z -> (codeUnitCompare b a <= 0)%Z.
Proof.
  unfold codeUnitCompare. rewrite (String.compare_antisym b a).
  destruct (String.compare a b); simpl; lia.
Qed.

Lemma codeUnitCompare_notAfter (a b : string) :
  (codeUnitCompare a b <= 0)%Z
  <-> a = b \/ OrderedTypeEx.String_as_OT.lt a b.
Proof.
  unfold codeUnitCompare.
  pose proof (OrderedTypeEx.String_as_OT.cmp_eq a b) as Heq.
  pose proof (OrderedTypeEx.String_as_OT.cmp_lt a b) as Hlt.
  unfold OrderedTypeEx.String_as_OT.cmp in *.
  destruct (String.compare a b) eqn:E; split; intros H; try lia.
  - left. now apply Heq.
  - right. now apply Hlt.
  - destruct H as [H|H]; [apply Heq in H | apply Hlt in H]; discriminate.
Qed.

Lemma codeUnitCompare_transitive (a b c : string) :
  (codeUnitCompare a b <= 0)%Z -> (codeUnitCompare b c <= 0)%Z ->
  (codeUnitCompare a c <= 0)%Z.
Proof.
  rewrite !codeUnitCompare_notAfter. intros [->|H1] [->|H2]; auto.
  right. exact (OrderedTypeEx.String_as_OT.lt_trans _ _ _ H1 H2).
Qed.

Section OrderFacts.

Variable localeCompare : string -> string -> Z.

Hypothesis localeCompare_opposite :
  forall a b, (0 < localeCompare a b)%Z -> (localeCompare b a <= 0)%Z.
Hypothesis localeCompare_transitive :
  forall a b c, (localeCompare a b <= 0)%Z -> (localeCompare b c <= 0)%Z ->
                (localeCompare a c <= 0)%Z.

Local Abbreviation cmp := (compareNodes localeCompare).

Lemma compareNodes_opposite a b : (0 < cmp a b)%Z -> (cmp b a <= 0)%Z.
Proof.
  unfold compareNodes.
  destruct (isDirectory a), (isDirectory b); simpl; try lia;
    apply localeCompare_opposite.
Qed.

Lemma compareNodes_transitive a b c :
  (cmp a b <= 0)%Z -> (cmp b c <= 0)%Z -> (cmp a c <= 0)%Z.
Proof.
  unfold compareNodes.
  destruct (isDirectory a), (isDirectory b), (isDirectory c); simpl;
    try lia; apply localeCompare_transitive.
Qed.

Lemma compareNodes_mayPrecede a b :
  (cmp a b <= 0)%Z -> mayPrecede localeCompare a b.
Proof.
  unfold compareNodes, mayPrecede.
  destruct (isDirectory a), (isDirectory b); simpl; intros H;
    split; intros; try congruence; try lia.
Qed.

Lemma sorted_levelSorted (items : list FileNode) :
  levelSorted localeCompare (sort cmp items).
Proof.
  apply (StronglySorted_weaken (notAfter cmp)).
  - exact compareNodes_mayPrecede.
  - apply sort_sorted.
    + exact compareNodes_opposite.
    + exact compareNodes_transitive.
Qed.

Lemma scan_levelSorted listing dirPath options ig lvl :
  levelSorted localeCompare
    (resultOf (scanDirectory localeCompare listing dirPath options ig lvl)).
Proof.
  unfold resultOf. destruct (depthReached options lvl) eqn:Hd.
  - rewrite scanDirectory_depth by exact Hd. constructor.
  - destruct listing as [entries|].
    + rewrite scanDirectory_nodes by exact Hd. apply sorted_levelSorted.
    + rewrite scanDirectory_unreadable by exact Hd. constructor.
Qed.

Lemma scanSubdirectory_levelSorted entry dirPath options ig lvl :
  levelSorted localeCompare
    (resultOf (scanSubdirectory localeCompare entry dirPath options ig lvl)).
Proof.
  destruct entry.
  - rewrite scanSubdirectory_File. apply scan_levelSorted.
  - rewrite scanSubdirectory_Directory. apply scan_levelSorted.
Qed.

Lemma scan_everyLevelSorted listing dirPath options ig lvl nodes :
  fst (scanDirectory localeCompare listing dirPath options ig lvl)
  = Returned nodes ->
  everyLevelSorted localeCompare nodes.
Proof.
  intros Hscan. split.
  - pose proof (scan_levelSorted listing dirPath options ig lvl) as H.
    unfold resultOf in H. now rewrite Hscan in H.
  - assert (H : Forall (fun n => forall kids, children n = Some kids ->
                                   levelSorted localeCompare kids)
                       (allNodes nodes)).
    { revert Hscan.
      apply (scan_tree_invariant localeCompare options ig (fun _ _ => True));
        [trivial | | trivial].
      intros l p lv ns _ Hs. apply Forall_forall. intros n Hn.
      destruct (scanDirectory_In _ _ _ _ _ _ _ _ Hs Hn)
        as [_ [entries [entry [_ [_ [_ ->]]]]]].
      unfold nodeFor. simpl. intros kids Hkids.
      destruct (dirent_isDirectory entry); [|discriminate].
      injection Hkids as <-. apply scanSubdirectory_levelSorted. }
    rewrite Forall_forall in H. intros n kids Hn. now apply H.
Qed.

Lemma scenarioA_order :
  exists first second,
    map name (resultOf (scanDirectory localeCompare scenarioA projectPath
                                      plainOptions defaultIgnores 0))
    = ["subdir"; first; second]
    /\ Permutation [first; second] ["file1.txt"; "file2.txt"]
    /\ (localeCompare first second <= 0)%Z.
Proof.
  unfold resultOf, scenarioA. rewrite scanDirectory_nodes by reflexivity.
  cbn.
  destruct (0 <? localeCompare "file1.txt" "file2.txt")%Z eqn:E;
    do 2 eexists; (split; [reflexivity|]); split.
  - apply perm_swap.
  - apply localeCompare_opposite. now apply Z.ltb_lt.
  - reflexivity.
  - now apply Z.ltb_ge.
Qed.

End OrderFacts.

(** C4. For a [localeCompare] that is a consistent comparator (a positive
    answer is never positive the other way round, and "not after" is
    transitive): on every level of a scan result, whenever [a] stands
    before [b], [b] is a directory only if [a] is one, and if both are of
    one kind the name of [a] is not after that of [b]; and the directory
    of [file1.txt], [file2.txt] and [subdir] is listed [subdir] first,
    then the two files in ascending order. *)
Theorem sort_invariant (localeCompare : string -> string -> Z)
    (options : GtreeOptions) (ig : list string)
    (listing : option (list Dirent)) (dirPath : string) (currentLevel : Z) :
  (forall a b, (0 < localeCompare a b)%Z -> (localeCompare b a <= 0)%Z) ->
  (forall a b c, (localeCompare a b <= 0)%Z -> (localeCompare b c <= 0)%Z ->
                 (localeCompare a c <= 0)%Z) ->
  (forall nodes,
      fst (scanDirectory localeCompare listing dirPath options ig currentLevel)
      = Returned nodes ->
      everyLevelSorted localeCompare nodes)
  /\ (exists first second,
        map name (resultOf (scanDirectory localeCompare scenarioA projectPath
                                          plainOptions defaultIgnores 0))
        = ["subdir"; first; second]
        /\ Permutation [first; second] ["file1.txt"; "file2.txt"]
        /\ (localeCompare first second <= 0)%Z).
Proof.
  intros Hopposite Htransitive. split.
  - intros nodes.
    now apply (scan_everyLevelSorted localeCompare Hopposite Htransitive).
  - now apply scenarioA_order.
Qed.

Lemma sort_invariant_witness :
  everyLevelSorted codeUnitCompare
    (resultOf (scanDirectory codeUnitCompare scenarioA projectPath
                             plainOptions defaultIgnores 0))
  /\ map name (resultOf (scanDirectory codeUnitCompare scenarioA projectPath
                                       plainOptions defaultIgnores 0))
     = ["subdir"; "file1.txt"; "file2.txt"].
Proof.
  split; [|reflexivity].
  apply (proj1 (sort_invariant codeUnitCompare plainOptions defaultIgnores
                  scenarioA projectPath 0
                  codeUnitCompare_opposite codeUnitCompare_transitive)).
  reflexivity.
Defined.

(** ** The renderer *)

Module RenderFacts.
Import StringFacts.

Lemma concat_empty_cons (x : string) (l : list string) :
  String.concat "" (x :: l) = x ++ String.concat "" l.
Proof. destruct l; simpl; [now rewrite append_nil_r | reflexivity]. Qed.

Lemma unlines_cons (x : string) (l : list string) :
  unlines (x :: l) = x ++ newline ++ unlines l.
Proof.
  unfold unlines. simpl map. now rewrite concat_empty_cons, append_assoc.
Qed.

Lemma unlines_app (a b : list string) :
  unlines (a ++ b) = unlines a ++ unlines b.
Proof.
  induction a as [|x a IH]; [reflexivity|].
  simpl app. now rewrite !unlines_cons, IH, !append_assoc.
Qed.

Lemma prefix_fold (isLast : list bool) (acc : string) :
  fold_left (fun prefix (flag : bool) =>
               prefix ++ (if flag then "    " else "│   ")) isLast acc
  = acc ++ String.concat ""
             (map (fun wasLast : bool =>
                     if wasLast then "    " else "│   ") isLast).
Proof.
  revert acc. induction isLast as [|b l IH]; intros acc.
  - simpl. now rewrite append_nil_r.
  - simpl fold_left. simpl map.
    now rewrite IH, concat_empty_cons, append_assoc.
Qed.

Lemma formatTreeWith_lines (nodes : list FileNode) (isLast : list bool) :
  Forall rendersChildren nodes ->
  formatTreeWith formatChildren nodes isLast
  = unlines (specLines nodes isLast).
Proof.
  intros Hnodes. unfold formatTreeWith, specLines.
  set (total := List.length nodes).
  assert (Hloop : forall rest i result,
             (i + List.length rest = total)%nat ->
             Forall rendersChildren rest ->
             (fix loop (rest : list FileNode) (i : nat) (result : string)
                : string :=
                match rest with
                | [] => result
                | node :: rest' =>
                    let isLastNode := (i =? total - 1)%nat in
                    let prefix :=
                      fold_left (fun prefix (flag : bool) =>
                                   prefix ++ (if flag then "    " else "│   "))
                                isLast "" in
                    let prefix :=
                      prefix ++ (if isLastNode then "└── " else "├── ") in
                    let result := result ++ prefix ++ name node ++ "
" in
                    let result :=
                      match children node with
                      | Some (_ :: _) =>
                          result ++ formatChildren node
                                      (isLast ++ [isLastNode])%list
                      | _ => result
                      end in
                    loop rest' (S i) result
                end) rest i result
             = result ++ unlines (siblingLines nodeLines isLast rest)).
  { induction rest as [|node rest' IH]; intros i result Hi Hrest.
    - simpl. now rewrite append_nil_r.
    - inversion Hrest as [|? ? Hnode Hrest']; subst.
      cbv zeta. rewrite IH by (simpl in Hi; trivial; lia).
      assert (Hlast : (i =? total - 1)%nat
                      = match rest' with [] => true | _ => false end).
      { simpl in Hi. destruct rest'; simpl in Hi.
        - apply Nat.eqb_eq. lia.
        - apply Nat.eqb_neq. lia. }
      rewrite Hlast. clear Hlast.
      set (b := match rest' with [] => true | _ => false end).
      rewrite prefix_fold. simpl append at 2.
      change (siblingLines nodeLines isLast (node :: rest'))
        with ((nodeLines node isLast b
               ++ siblingLines nodeLines isLast rest')%list).
      rewrite unlines_app.
      assert (Hline : unlines (nodeLines node isLast b)
                      = (linePrefix isLast b ++ name node ++ newline)
                        ++ match children node with
                           | Some (_ :: _) =>
                               formatChildren node (isLast ++ [b])%list
                           | _ => ""
                           end).
      { rewrite (Hnode (isLast ++ [b])%list).
        destruct node as [nm p d [[|k ks]|] lvl]; simpl nodeLines;
          rewrite unlines_cons; simpl children; simpl name;
          rewrite ?append_assoc; try reflexivity. }
      rewrite Hline. unfold linePrefix.
      destruct (children node) as [[|k ks]|];
        rewrite ?append_assoc, ?append_nil_r; reflexivity. }
  exact (Hloop nodes 0%nat "" eq_refl Hnodes).
Qed.

Lemma formatChildren_lines (n : FileNode) : rendersChildren n.
Proof.
  induction n as [nm p d lvl | nm p d kids lvl IH] using FileNode_nested_ind;
    intros isLast; [reflexivity|].
  simpl formatChildren. simpl children. now apply formatTreeWith_lines.
Qed.

Lemma formatTree_lines (nodes : list FileNode) (isLast : list bool) :
  formatTree nodes isLast = unlines (specLines nodes isLast).
Proof.
  apply formatTreeWith_lines. apply Forall_forall. intros n _.
  apply formatChildren_lines.
Qed.

(** One line per node, in the order of [allNodes], each a prefix and then
    the name. *)
Lemma lines_follow_nodes (nodes : list FileNode) (ancestors : list bool) :
  Forall2 (fun line n =>
             exists flags isLastSibling,
               line = linePrefix flags isLastSibling ++ name n)
          (specLines nodes ancestors) (allNodes nodes).
Proof.
  assert (Hnode : forall n flags b,
             Forall2 (fun line m =>
                        exists flags' isLastSibling,
                          line = linePrefix flags' isLastSibling ++ name m)
                     (nodeLines n flags b) (subtree n)).
  { induction n as [nm p d lvl | nm p d kids lvl IH] using FileNode_nested_ind;
      intros flags b; simpl.
    - constructor; [now exists flags, b | constructor].
    - constructor; [now exists flags, b|].
      generalize (flags ++ [b])%list. intros flags'.
      induction IH as [|k ks Hk _ IHks]; simpl; [constructor|].
      apply Forall2_app; [apply Hk | exact IHks]. }
  unfold specLines, allNodes.
  induction nodes as [|n ns IH]; simpl; [constructor|].
  apply Forall2_app; [apply Hnode | exact IH].
Qed.

End RenderFacts.

(** C5. [formatTree] writes the lines of the specification: for every
    node, in depth-first order, the flags of its ancestors turned into four
    spaces (a last sibling) or a bar and three spaces, then the corner for
    a last sibling or the tee, then the name and a newline; there is one
    line per node. [generateTree] puts the base name of the resolved path
    on a line of its own before them, and returns that line alone when
    the scan retains nothing. *)
Theorem rendering (localeCompare : string -> string -> Z) (w : World)
    (targetPath : string) (options : GtreeOptions) :
  (forall nodes isLast,
      formatTree nodes isLast = unlines (specLines nodes isLast))
  /\ (forall nodes ancestors,
        Forall2 (fun line n =>
                   exists flags isLastSibling,
                     line = linePrefix flags isLastSibling ++ name n)
                (specLines nodes ancestors) (allNodes nodes))
  /\ (forall absolutePath listing nodes,
        resolve w targetPath = Returned absolutePath ->
        disk w absolutePath = Dir listing ->
        fst (scanDirectory localeCompare listing absolutePath
               (withBaseDirectory options absolutePath)
               (createIgnoreInstance w absolutePath) 0) = Returned nodes ->
        fst (generateTree localeCompare w targetPath options)
        = Returned (specRender (NodePath.basename absolutePath) nodes))
  /\ (forall rootName, specRender rootName [] = rootName ++ newline).
Proof.
  split; [|split; [|split]].
  - apply RenderFacts.formatTree_lines.
  - apply RenderFacts.lines_follow_nodes.
  - intros absolutePath listing nodes Hresolve Hdisk Hscan.
    unfold generateTree. rewrite Hresolve, Hdisk. unfold bind.
    destruct (scanDirectory localeCompare listing _ _ _ 0)
      as [[scanned|message] log]; simpl in Hscan; [|discriminate].
    injection Hscan as ->. simpl fst. f_equal.
    unfold specRender. rewrite RenderFacts.unlines_cons.
    destruct nodes as [|n ns].
    + reflexivity.
    + simpl Nat.ltb. cbv iota.
      now rewrite RenderFacts.formatTree_lines, StringFacts.append_assoc.
  - reflexivity.
Qed.

Lemma rendering_witness :
  fst (generateTree codeUnitCompare (projectWorld scenarioA) "project"
                    noOptions)
  = Returned (specRender "project"
                (resultOf (scanDirectory codeUnitCompare scenarioA projectPath
                             plainOptions defaultIgnores 0)))
  /\ specRender "project"
       (resultOf (scanDirectory codeUnitCompare scenarioA projectPath
                    plainOptions defaultIgnores 0))
     = "project
├── subdir
│   └── file3.txt
├── file1.txt
└── file2.txt
".
Proof.
  split; [|reflexivity].
  apply (proj1 (proj2 (proj2 (rendering codeUnitCompare
                                (projectWorld scenarioA) "project"
                                noOptions))) projectPath scenarioA);
    reflexivity.
Defined.

(** ** Failures *)

Lemma scanDirectory_returns (localeCompare : string -> string -> Z)
    listing dirPath options ig lvl :
  exists nodes,
    fst (scanDirectory localeCompare listing dirPath options ig lvl)
    = Returned nodes.
Proof. apply scanDirectoryWith_returns. Qed.

Lemma generateTree_throws_iff (localeCompare : string -> string -> Z)
    (w : World) (targetPath : string) (options : GtreeOptions) :
  (exists message,
      fst (generateTree localeCompare w targetPath options) = Thrown message)
  <-> (exists message, resolve w targetPath = Thrown message)
      \/ (exists absolutePath,
            resolve w targetPath = Returned absolutePath
            /\ (disk w absolutePath = Missing
                \/ exists text, disk w absolutePath = RegularFile text)).
Proof.
  unfold generateTree.
  destruct (resolve w targetPath) as [absolutePath|failure].
  - destruct (disk w absolutePath) as [|text|listing] eqn:Hdisk.
    + split; [|intros _; eexists; reflexivity].
      intros _. right. exists absolutePath. rewrite Hdisk. auto.
    + split; [|intros _; eexists; reflexivity].
      intros _. right. exists absolutePath. rewrite Hdisk. eauto.
    + split.
      * intros [message H]. exfalso. unfold bind in H.
        destruct (scanDirectory_returns localeCompare listing absolutePath
                    (withBaseDirectory options absolutePath)
                    (createIgnoreInstance w absolutePath) 0) as [nodes Hn].
        destruct (scanDirectory localeCompare listing _ _ _ 0)
          as [[scanned|m] log]; simpl in Hn; discriminate.
      * intros [[message H]|[p [H [Hd|[text Hd]]]]]; try discriminate;
          injection H as <-; rewrite Hdisk in Hd; discriminate.
  - split; [|intros _; eexists; reflexivity].
    intros _. left. now exists failure.
Qed.

Lemma unreadable_subdirectory (localeCompare : string -> string -> Z)
    nm dirPath options ig lvl :
  skipped options ig dirPath (Directory nm None) = false ->
  fst (scanEntry (scanSubdirectory localeCompare) dirPath options ig lvl
                 (Directory nm None))
  = Returned (Some (nodeFor options dirPath lvl (Directory nm None) [])).
Proof.
  intros Hkept. rewrite scanEntry_value, Hkept. do 3 f_equal.
  rewrite scanSubdirectory_Directory. unfold resultOf.
  destruct (depthReached options (lvl + 1)) eqn:Hd.
  - now rewrite scanDirectory_depth.
  - now rewrite scanDirectory_unreadable.
Qed.

(** C6, as it stands, fails: once the working directory of the process
    is gone, [generateTree] on a relative path throws what [path.resolve]
    throws, with another message and no resolved path to speak of. *)
Lemma resolve_failure_counterexample :
  generateTree codeUnitCompare (strandedWorld scenarioA) "." noOptions
  = (Thrown "ENOENT: no such file or directory, uv_cwd", [])
  /\ (forall absolutePath,
        resolve (strandedWorld scenarioA) "." <> Returned absolutePath)
  /\ "ENOENT: no such file or directory, uv_cwd" <> "Path does not exist: ."
  /\ "ENOENT: no such file or directory, uv_cwd"
     <> "Path is not a directory: .".
Proof. repeat split; discriminate. Qed.

(** C6, amended. [generateTree] throws exactly when [path.resolve] throws
    on the target path or the resolved path is missing or is not a
    directory. What [path.resolve] throws passes unchanged; in the other
    two cases the message is [Path does not exist: ] or
    [Path is not a directory: ] followed by the target path as given. In
    all three nothing has been read or queried. [scanDirectory] itself
    never throws, and a retained subdirectory that cannot be read becomes
    a node with an empty list of children. *)
Theorem failure_surface (localeCompare : string -> string -> Z)
    (w : World) (targetPath : string) (options : GtreeOptions) :
  ((exists message,
       fst (generateTree localeCompare w targetPath options) = Thrown message)
   <-> (exists message, resolve w targetPath = Thrown message)
       \/ (exists absolutePath,
             resolve w targetPath = Returned absolutePath
             /\ (disk w absolutePath = Missing
                 \/ exists text, disk w absolutePath = RegularFile text)))
  /\ (forall message,
        resolve w targetPath = Thrown message ->
        generateTree localeCompare w targetPath options = (Thrown message, []))
  /\ (forall absolutePath,
        resolve w targetPath = Returned absolutePath ->
        disk w absolutePath = Missing ->
        generateTree localeCompare w targetPath options
        = (Thrown ("Path does not exist: " ++ targetPath), []))
  /\ (forall absolutePath text,
        resolve w targetPath = Returned absolutePath ->
        disk w absolutePath = RegularFile text ->
        generateTree localeCompare w targetPath options
        = (Thrown ("Path is not a directory: " ++ targetPath), []))
  /\ (forall listing dirPath scanOptions ig lvl,
        exists nodes,
          fst (scanDirectory localeCompare listing dirPath scanOptions ig lvl)
          = Returned nodes)
  /\ (forall nm dirPath scanOptions ig lvl,
        skipped scanOptions ig dirPath (Directory nm None) = false ->
        fst (scanEntry (scanSubdirectory localeCompare) dirPath scanOptions
                       ig lvl (Directory nm None))
        = Returned (Some (mkFileNode nm
                            (relativePathOf scanOptions dirPath nm)
                            true (Some []) lvl))).
Proof.
  split; [apply generateTree_throws_iff|].
  split; [|split; [|split; [|split]]].
  - intros message H. unfold generateTree. now rewrite H.
  - intros absolutePath H Hd. unfold generateTree. now rewrite H, Hd.
  - intros absolutePath text H Hd. unfold generateTree. now rewrite H, Hd.
  - intros. apply scanDirectory_returns.
  - intros. now apply unreadable_subdirectory.
Qed.

Lemma failure_surface_witness :
  generateTree codeUnitCompare (projectWorld scenarioHidden) "nowhere"
               noOptions
  = (Thrown "Path does not exist: nowhere", [])
  /\ generateTree codeUnitCompare (projectWorld scenarioHidden) "notes.txt"
                  noOptions
     = (Thrown "Path is not a directory: notes.txt", [])
  /\ generateTree codeUnitCompare (strandedWorld scenarioHidden) "project"
                  noOptions
     = (Thrown "ENOENT: no such file or directory, uv_cwd", [])
  /\ fst (scanEntry (scanSubdirectory codeUnitCompare) projectPath
                    plainOptions defaultIgnores 0 (Directory "locked" None))
     = Returned (Some (mkFileNode "locked" "locked" true (Some []) 0)).
Proof.
  pose proof (failure_surface codeUnitCompare (projectWorld scenarioHidden)
                "nowhere" noOptions) as [_ [_ [Hmissing [_ [_ Hlocked]]]]].
  pose proof (failure_surface codeUnitCompare (projectWorld scenarioHidden)
                "notes.txt" noOptions) as [_ [_ [_ [Hfile _]]]].
  pose proof (failure_surface codeUnitCompare (strandedWorld scenarioHidden)
                "project" noOptions) as [_ [Hresolve _]].
  split; [|split; [|split]].
  - apply (Hmissing "/home/user/nowhere"); reflexivity.
  - apply (Hfile "/home/user/notes.txt" (Some "")); reflexivity.
  - apply Hresolve. reflexivity.
  - apply (Hlocked "locked" projectPath plainOptions defaultIgnores 0%Z).
    reflexivity.
Defined.

(** ** Numbers *)

Module NumberFacts.

Lemma digits_shifted (d p : positive) :
  SpecFloat.digits2_pos (Pos.iter xO p d)
  = (SpecFloat.digits2_pos p + d)%positive.
Proof.
  induction d as [|d IH] using Pos.peano_ind.
  - simpl. lia.
  - rewrite Pos.iter_succ. simpl. rewrite IH. lia.
Qed.

Lemma digits_bound (p : positive) (n : Z) :
  (0 <= n)%Z -> (Z.pos p < 2 ^ n)%Z ->
  (Z.pos (SpecFloat.digits2_pos p) <= n)%Z.
Proof.
  revert n. induction p as [p IH|p IH|]; intros n Hn H; simpl.
  - assert (0 < n)%Z
      by (destruct (Z.eq_dec n 0) as [->|]; [simpl in H; lia | lia]).
    replace n with (Z.succ (n - 1)) in H by lia.
    rewrite Z.pow_succ_r in H by lia.
    specialize (IH (n - 1)%Z). lia.
  - assert (0 < n)%Z
      by (destruct (Z.eq_dec n 0) as [->|]; [simpl in H; lia | lia]).
    replace n with (Z.succ (n - 1)) in H by lia.
    rewrite Z.pow_succ_r in H by lia.
    specialize (IH (n - 1)%Z). lia.
  - destruct (Z.eq_dec n 0) as [->|]; [simpl in H; lia | lia].
Qed.

(** A mantissa of 53 digits at an exponent in range is not rounded. *)
Lemma round_aux_exact (s : bool) (m : positive) (e : Z) :
  (Z.pos (SpecFloat.digits2_pos m) + e - 53 = e)%Z -> (-1074 <= e <= 0)%Z ->
  SpecFloat.binary_round_aux 53 1024 s (Z.pos m) e SpecFloat.loc_Exact
  = SpecFloat.S754_finite s m e.
Proof.
  intros Hd He.
  unfold SpecFloat.binary_round_aux, SpecFloat.shr_fexp, SpecFloat.fexp,
    SpecFloat.emin.
  simpl SpecFloat.Zdigits2.
  assert (E : (Z.max (Z.pos (SpecFloat.digits2_pos m) + e - 53)
                     (3 - 1024 - 53) - e)%Z = 0%Z) by lia.
  do 2 (match goal with
        | |- context [SpecFloat.shr _ e ?n] =>
            replace n with 0%Z by (symmetry; exact E)
        end;
        simpl SpecFloat.shr; cbv iota beta;
        simpl SpecFloat.round_nearest_even; simpl SpecFloat.Zdigits2).
  simpl SpecFloat.shr_m.
  replace (e <=? 1024 - 53)%Z with true by (symmetry; apply Z.leb_le; lia).
  reflexivity.
Qed.

Lemma round_exact (s : bool) (p : positive) :
  (Z.pos p < 2 ^ 53)%Z ->
  ofDouble (SpecFloat.binary_round 53 1024 s p 0)
  = Finite (if s then Z.neg p else Z.pos p).
Proof.
  intros Hp. pose proof (digits_bound p 53 ltac:(lia) Hp) as Hd.
  unfold SpecFloat.binary_round, SpecFloat.shl_align, SpecFloat.fexp,
    SpecFloat.emin.
  rewrite Z.add_0_r, Z.sub_0_r.
  rewrite Z.max_l by lia.
  destruct (Z.pos (SpecFloat.digits2_pos p) - 53)%Z as [|q|q] eqn:Hq;
    try lia.
  - rewrite round_aux_exact by lia. simpl. now destruct s.
  - rewrite round_aux_exact by (rewrite ?digits_shifted; lia).
    unfold ofDouble. f_equal.
    assert (Hv : Z.shiftl (Z.pos (Pos.iter xO p q)) (Z.neg q) = Z.pos p).
    { change (Pos.iter xO p q) with (shift_pos q p).
      rewrite shift_pos_correct, Z.pow_pos_fold.
      change (Z.neg q) with (- Z.pos q)%Z.
      rewrite Z.shiftl_opp_r, Z.shiftr_div_pow2 by lia.
      rewrite Z.mul_comm. apply Z.div_mul. lia. }
    rewrite Hv. now destruct s.
Qed.

(** Integers below 2^53 in magnitude are doubles. *)
Lemma toNumber_exact (z : Z) : (Z.abs z < 2 ^ 53)%Z -> toNumber z = Finite z.
Proof.
  intros H. unfold toNumber.
  destruct z as [|p|p]; simpl SpecFloat.binary_normalize.
  - reflexivity.
  - apply (round_exact false). lia.
  - apply (round_exact true). lia.
Qed.

Lemma shr_1_nonneg (mrs : SpecFloat.shr_record) :
  (0 <= SpecFloat.shr_m mrs)%Z ->
  (0 <= SpecFloat.shr_m (SpecFloat.shr_1 mrs))%Z.
Proof.
  destruct mrs as [m r s]. simpl.
  destruct m as [|[p|p|]|[p|p|]]; simpl; lia.
Qed.

Lemma iter_pos_invariant {A} (f : A -> A) (Inv : A -> Prop) :
  (forall x, Inv x -> Inv (f x)) ->
  forall p x, Inv x -> Inv (SpecFloat.iter_pos f p x).
Proof.
  intros Hf. induction p as [p IH|p IH|]; intros x Hx; simpl; auto.
Qed.

Lemma shr_nonneg (mrs : SpecFloat.shr_record) (e n : Z) :
  (0 <= SpecFloat.shr_m mrs)%Z ->
  (0 <= SpecFloat.shr_m (fst (SpecFloat.shr mrs e n)))%Z.
Proof.
  intros H. unfold SpecFloat.shr. destruct n as [|p|p]; simpl; trivial.
  apply iter_pos_invariant; [apply shr_1_nonneg | exact H].
Qed.

Lemma shr_record_of_loc_m (m : Z) (l : SpecFloat.location) :
  SpecFloat.shr_m (SpecFloat.shr_record_of_loc m l) = m.
Proof. destruct l as [|[]]; reflexivity. Qed.

Lemma round_nearest_even_nonneg (m : Z) (l : SpecFloat.location) :
  (0 <= m)%Z -> (0 <= SpecFloat.round_nearest_even m l)%Z.
Proof.
  intros H. unfold SpecFloat.round_nearest_even.
  destruct l as [|[]]; try destruct (Z.even m); lia.
Qed.

Lemma round_aux_number (s : bool) (m : positive) (e : Z)
    (l : SpecFloat.location) :
  isNaN (ofDouble (SpecFloat.binary_round_aux 53 1024 s (Z.pos m) e l))
  = false.
Proof.
  unfold SpecFloat.binary_round_aux, SpecFloat.shr_fexp.
  match goal with
  | |- context [SpecFloat.shr ?r e ?n] =>
      pose proof (shr_nonneg r e n) as H1;
      destruct (SpecFloat.shr r e n) as [mrs' e']
  end.
  simpl fst in H1. rewrite shr_record_of_loc_m in H1.
  specialize (H1 ltac:(lia)).
  match goal with
  | |- context [SpecFloat.shr ?r e' ?n] =>
      pose proof (shr_nonneg r e' n) as H2;
      destruct (SpecFloat.shr r e' n) as [mrs'' e'']
  end.
  simpl fst in H2. rewrite shr_record_of_loc_m in H2.
  specialize (H2 (round_nearest_even_nonneg _ _ H1)).
  destruct (SpecFloat.shr_m mrs'') as [|q|q]; try reflexivity; [|lia].
  now destruct (e'' <=? 1024 - 53)%Z.
Qed.

(** Rounding an integer never gives [NaN]. *)
Lemma toNumber_number (z : Z) : isNaN (toNumber z) = false.
Proof.
  unfold toNumber. destruct z as [|p|p]; simpl SpecFloat.binary_normalize.
  - reflexivity.
  - unfold SpecFloat.binary_round.
    destruct (SpecFloat.shl_align _ _ _) as [mz ez]. apply round_aux_number.
  - unfold SpecFloat.binary_round.
    destruct (SpecFloat.shl_align _ _ _) as [mz ez]. apply round_aux_number.
Qed.

(** [parseInt] gives [NaN] exactly on a text without a digit to read. *)
Lemma parseInt_NaN (text : string) :
  isNaN (JsString.parseInt text) = true <-> JsString.mathInt text = None.
Proof.
  unfold JsString.parseInt.
  destruct (JsString.mathInt text) as [z|].
  - rewrite toNumber_number. split; discriminate.
  - split; reflexivity.
Qed.

Lemma parseInt_read (text : string) :
  isNaN (JsString.parseInt text) = false ->
  exists z, JsString.mathInt text = Some z
            /\ JsString.parseInt text = toNumber z.
Proof.
  unfold JsString.parseInt.
  destruct (JsString.mathInt text) as [z|]; [|discriminate].
  intros _. now exists z.
Qed.

End NumberFacts.

(** ** The argument translator *)

Module ParseFacts.
Import JsString StringFacts.

Lemma no_dash (arg : string) :
  startsWith arg "-" = false ->
  (arg =? "-L") = false /\ (arg =? "-a") = false /\ (arg =? "--all") = false
  /\ startsWith arg "-L" = false.
Proof.
  intros H. repeat split; try (apply String.eqb_neq; intros ->; discriminate).
  destruct (startsWith arg "-L") eqn:E; [|reflexivity].
  apply startsWith_spec in E as [r ->]. discriminate.
Qed.

Lemma step_L_number (n : string) (p : ParsedArgs) :
  isNaN (parseInt n) = false ->
  parseStep "-L" (Some n) p = (setMaxDepth (parseInt n) p, true).
Proof. unfold parseStep. simpl. now intros ->. Qed.

Lemma step_L_malformed (n : string) (p : ParsedArgs) :
  isNaN (parseInt n) = true -> parseStep "-L" (Some n) p = (p, false).
Proof. unfold parseStep. simpl. now intros ->. Qed.

Lemma step_L_missing (p : ParsedArgs) : parseStep "-L" None p = (p, false).
Proof. reflexivity. Qed.

Lemma step_all (arg : string) (next : option string) (p : ParsedArgs) :
  arg = "-a" \/ arg = "--all" ->
  parseStep arg next p = (setShowHidden p, false).
Proof. intros [->| ->]; reflexivity. Qed.

Lemma step_L_suffix (arg : string) (next : option string) (p : ParsedArgs) :
  startsWith arg "-L" = true -> arg <> "-L" ->
  parseStep arg next p
  = (if isNaN (parseInt (substring arg 2)) then p
     else setMaxDepth (parseInt (substring arg 2)) p, false).
Proof.
  intros HL Hne. unfold parseStep.
  assert (Ha : (arg =? "-a") = false)
    by (apply String.eqb_neq; intros ->; discriminate).
  assert (Hall : (arg =? "--all") = false)
    by (apply String.eqb_neq; intros ->; discriminate).
  apply String.eqb_neq in Hne. rewrite Hne, HL, Ha, Hall.
  simpl andb. simpl orb. cbv iota zeta.
  now destruct (isNaN (parseInt (substring arg 2))).
Qed.

Lemma step_path (arg : string) (next : option string) (p : ParsedArgs) :
  startsWith arg "-" = false ->
  parseStep arg next p = (setTargetPath arg p, false).
Proof.
  intros H. destruct (no_dash arg H) as [HL [Ha [Hall HLn]]].
  unfold parseStep. now rewrite HL, Ha, Hall, HLn, H.
Qed.

Lemma step_other (arg : string) (next : option string) (p : ParsedArgs) :
  startsWith arg "-" = true -> startsWith arg "-L" = false ->
  arg <> "-a" -> arg <> "--all" ->
  parseStep arg next p = (p, false).
Proof.
  intros Hdash HLn Ha Hall. unfold parseStep.
  assert (HL : (arg =? "-L") = false)
    by (apply String.eqb_neq; intros ->; discriminate).
  apply String.eqb_neq in Ha, Hall.
  now rewrite HL, Ha, Hall, HLn, Hdash.
Qed.

Lemma last_cons_default {A} (x : A) (l : list A) (d d' : A) :
  last (x :: l) d = last (x :: l) d'.
Proof.
  revert x. induction l as [|y l IH]; intros x; [reflexivity|].
  exact (IH y).
Qed.

Lemma last_path_wins (args : list string) (p : ParsedArgs) :
  Forall (fun arg => startsWith arg "-" = false) args ->
  parsedPath (parseLoop args p) = last args (parsedPath p).
Proof.
  intros H. revert p. induction H as [|arg rest Harg _ IH]; intros p.
  - reflexivity.
  - simpl parseLoop. rewrite step_path by exact Harg.
    rewrite IH. destruct rest as [|s rest]; [reflexivity|].
    apply (last_cons_default s rest).
Qed.

(** *** Where a depth comes from *)

Lemma digitValue_nonneg (radix : Z) (c : ascii) (d : Z) :
  digitValue radix c = Some d -> (0 <= d)%Z.
Proof.
  unfold digitValue.
  set (n := Z.of_nat (nat_of_ascii c)).
  destruct ((48 <=? n)%Z && (n <=? 57)%Z) eqn:E1.
  - apply andb_true_iff in E1 as [E1 _]. apply Z.leb_le in E1.
    destruct (n - 48 <? radix)%Z; intros H; inversion H. lia.
  - destruct ((97 <=? n)%Z && (n <=? 122)%Z) eqn:E2.
    + apply andb_true_iff in E2 as [E2 _]. apply Z.leb_le in E2.
      destruct (n - 87 <? radix)%Z; intros H; inversion H. lia.
    + destruct ((65 <=? n)%Z && (n <=? 90)%Z) eqn:E3; [|discriminate].
      apply andb_true_iff in E3 as [E3 _]. apply Z.leb_le in E3.
      destruct (n - 55 <? radix)%Z; intros H; inversion H. lia.
Qed.

Lemma parseDigits_nonneg (radix : Z) (s : string) (acc : option Z) (v : Z) :
  (0 < radix)%Z ->
  (forall a, acc = Some a -> (0 <= a)%Z) ->
  parseDigits radix s acc = Some v -> (0 <= v)%Z.
Proof.
  intros Hradix. revert acc.
  induction s as [|c s IH]; intros acc Hacc; simpl.
  - intros H. now apply Hacc.
  - destruct (digitValue radix c) as [d|] eqn:Hd; [|now apply Hacc].
    apply IH. intros a Ha. injection Ha as <-.
    pose proof (digitValue_nonneg _ _ _ Hd).
    destruct acc as [a|]; [|lia]. specialize (Hacc a eq_refl). nia.
Qed.

Lemma mathInt_negative (text : string) (d : Z) :
  mathInt text = Some d -> (d < 0)%Z ->
  startsWith (trimStart text) "-" = true.
Proof.
  unfold mathInt.
  set (s1 := trimStart text).
  destruct (startsWith s1 "-"); [reflexivity|].
  set (s2 := if false || startsWith s1 "+" then substring s1 1 else s1).
  set (hex := startsWith s2 "0x" || startsWith s2 "0X").
  destruct (parseDigits (if hex then 16%Z else 10%Z)
                        (if hex then substring s2 2 else s2) None)
    as [v|] eqn:Hv; [|discriminate].
  simpl. intros H Hneg. injection H as <-.
  apply parseDigits_nonneg in Hv; [lia | now destruct hex | discriminate].
Qed.

Lemma depthText_cons (arg : string) (args : list string) (text : string) :
  depthText args text -> depthText (arg :: args) text.
Proof.
  intros [[front [rest ->]] | [a [Ha H]]].
  - left. now exists (arg :: front), rest.
  - right. exists a. split; [now right | exact H].
Qed.

Lemma step_depth (arg : string) (rest : list string) (p : ParsedArgs) :
  maxDepth (parsedOptions (fst (parseStep arg (hd_error rest) p)))
  = maxDepth (parsedOptions p)
  \/ exists text,
      depthText (arg :: rest) text /\ isNaN (parseInt text) = false
      /\ maxDepth (parsedOptions (fst (parseStep arg (hd_error rest) p)))
         = Some (parseInt text).
Proof.
  unfold parseStep.
  destruct (String.eqb_spec arg "-L") as [->|HL]; simpl andb.
  - destruct rest as [|n rest]; simpl hd_error; cbv iota zeta.
    + now left.
    + destruct (isNaN (parseInt n)) eqn:Hn; [now left|].
      right. exists n. repeat split; trivial.
      left. now exists [], rest.
  - destruct ((arg =? "-a") || (arg =? "--all")); [now left|].
    destruct (startsWith arg "-L") eqn:HLn; cbv zeta.
    + destruct (isNaN (parseInt (substring arg 2))) eqn:Hn; [now left|].
      right. exists (substring arg 2). repeat split; trivial.
      right. exists arg. repeat split; trivial. now left.
    + destruct (negb (startsWith arg "-")); now left.
Qed.

Lemma parseLoop_depth (n : nat) (args : list string) (p : ParsedArgs)
    (v : JsNumber) :
  (List.length args <= n)%nat ->
  maxDepth (parsedOptions (parseLoop args p)) = Some v ->
  maxDepth (parsedOptions p) = Some v
  \/ exists text, depthText args text /\ isNaN (parseInt text) = false
                  /\ parseInt text = v.
Proof.
  revert args p. induction n as [|n IH]; intros [|arg rest] p Hlen Hd;
    simpl in Hlen; try lia; try (now left).
  simpl parseLoop in Hd.
  pose proof (step_depth arg rest p) as Hstep.
  destruct (parseStep arg (hd_error rest) p) as [p' skip]. simpl fst in Hstep.
  assert (Hafter : maxDepth (parsedOptions p') = Some v
                   \/ exists text, depthText rest text
                                   /\ isNaN (parseInt text) = false
                                   /\ parseInt text = v).
  { destruct skip.
    - destruct rest as [|next rest']; [now left|].
      destruct (IH rest' p' ltac:(simpl in Hlen; lia) Hd)
        as [H|[text [Ht Hp]]]; [now left|].
      right. exists text. split; [now apply depthText_cons | exact Hp].
    - apply (IH rest p' ltac:(lia) Hd). }
  destruct Hafter as [Hp'|[text [Ht Hp]]].
  - destruct Hstep as [Hsame|[text [Ht [Hp Hset]]]].
    + left. congruence.
    + right. exists text. split; [exact Ht|]. split; [exact Hp|]. congruence.
  - right. exists text. split; [now apply depthText_cons | exact Hp].
Qed.

End ParseFacts.

(** C7, as it stands, fails: [-L5] starts with a dash and is none of
    [-L], [-a], [--all], yet it is not ignored, it sets [maxDepth]. *)
Lemma other_dash_token_counterexample :
  JsString.startsWith "-L5" "-" = true
  /\ "-L5" <> "-L" /\ "-L5" <> "-a" /\ "-L5" <> "--all"
  /\ maxDepth (parsedOptions (parseTreeArgs ["-L5"])) = Some (Finite 5)
  /\ parseTreeArgs ["-L5"] <> parseTreeArgs [].
Proof. repeat split; discriminate. Qed.

(** C7, amended. Reading the tokens from the left, in any state [p]:
    [-L] before a token that [parseInt] reads sets [maxDepth] to that
    number and skips the token; before a token that [parseInt] rejects,
    or as the last token, it changes nothing and the next token is read
    in its turn; a longer token starting with [-L] sets [maxDepth] to the
    number [parseInt] reads after the [-L], if any; [-a] and [--all] set
    [showHidden]; a token without a leading dash becomes the path, so of
    several the last one stays; every other token with a dash changes
    nothing. With no token the path is [.], [showHidden] is false and
    [maxDepth] is unset; [-L 2 --noreport] gives [maxDepth = 2] and the
    path [.]. *)
Theorem translator_rules (rest : list string) (p : ParsedArgs) :
  (forall n,
      isNaN (JsString.parseInt n) = false ->
      parseLoop ("-L" :: n :: rest) p
      = parseLoop rest (setMaxDepth (JsString.parseInt n) p))
  /\ (forall n,
        isNaN (JsString.parseInt n) = true ->
        parseLoop ("-L" :: n :: rest) p = parseLoop (n :: rest) p)
  /\ parseLoop ["-L"] p = p
  /\ (forall arg,
        JsString.startsWith arg "-L" = true -> arg <> "-L" ->
        parseLoop (arg :: rest) p
        = parseLoop rest
            (if isNaN (JsString.parseInt (JsString.substring arg 2)) then p
             else setMaxDepth (JsString.parseInt (JsString.substring arg 2))
                              p))
  /\ parseLoop ("-a" :: rest) p = parseLoop rest (setShowHidden p)
  /\ parseLoop ("--all" :: rest) p = parseLoop rest (setShowHidden p)
  /\ (forall arg,
        JsString.startsWith arg "-" = false ->
        parseLoop (arg :: rest) p = parseLoop rest (setTargetPath arg p))
  /\ (forall args,
        Forall (fun arg => JsString.startsWith arg "-" = false) args ->
        parsedPath (parseLoop args p) = last args (parsedPath p))
  /\ (forall arg,
        JsString.startsWith arg "-" = true ->
        JsString.startsWith arg "-L" = false ->
        arg <> "-a" -> arg <> "--all" ->
        parseLoop (arg :: rest) p = parseLoop rest p)
  /\ parseTreeArgs []
     = mkParsed "." (mkOptions None (Some false) (Some true) None)
  /\ maxDepth (parsedOptions (parseTreeArgs ["-L"; "2"; "--noreport"]))
     = Some (Finite 2)
  /\ parsedPath (parseTreeArgs ["-L"; "2"; "--noreport"]) = ".".
Proof.
  repeat split.
  - intros n H. simpl parseLoop.
    now rewrite (ParseFacts.step_L_number n p H).
  - intros n H. simpl parseLoop.
    now rewrite (ParseFacts.step_L_malformed n p H).
  - intros arg HL Hne. simpl parseLoop.
    now rewrite (ParseFacts.step_L_suffix arg (hd_error rest) p HL Hne).
  - intros arg H. simpl parseLoop.
    now rewrite (ParseFacts.step_path arg (hd_error rest) p H).
  - intros args. apply ParseFacts.last_path_wins.
  - intros arg H1 H2 H3 H4. simpl parseLoop.
    now rewrite (ParseFacts.step_other arg (hd_error rest) p H1 H2 H3 H4).
Qed.

Lemma translator_rules_witness :
  parseLoop ["-L"; "3"; "src"; "-a"] (parseTreeArgs [])
  = parseLoop ["src"; "-a"] (setMaxDepth (Finite 3) (parseTreeArgs []))
  /\ parseLoop ["-L"; "deep"; "-a"] (parseTreeArgs [])
     = parseLoop ["deep"; "-a"] (parseTreeArgs [])
  /\ parseLoop ["-L5"; "src"] (parseTreeArgs [])
     = parseLoop ["src"] (setMaxDepth (Finite 5) (parseTreeArgs []))
  /\ parseLoop ["--noreport"; "src"] (parseTreeArgs [])
     = parseLoop ["src"] (parseTreeArgs [])
  /\ parsedPath (parseLoop ["a"; "b"] (parseTreeArgs [])) = "b".
Proof.
  split; [|split; [|split; [|split]]].
  - apply (proj1 (translator_rules ["src"; "-a"] (parseTreeArgs [])) "3").
    reflexivity.
  - apply (proj1 (proj2 (translator_rules ["-a"] (parseTreeArgs []))) "deep").
    reflexivity.
  - apply (proj1 (proj2 (proj2 (proj2
             (translator_rules ["src"] (parseTreeArgs [])))))
             "-L5"); [reflexivity | discriminate].
  - apply (proj1 (proj2 (proj2 (proj2 (proj2 (proj2 (proj2 (proj2 (proj2
             (translator_rules ["src"] (parseTreeArgs []))))))))))
             "--noreport"); [reflexivity | reflexivity | discriminate
                             | discriminate].
  - apply (proj1 (proj2 (proj2 (proj2 (proj2 (proj2 (proj2 (proj2
             (translator_rules [] (parseTreeArgs [])))))))))
             ["a"; "b"]).
    repeat constructor.
Defined.

(** C9, as it stands, fails: [-L -1] sets [maxDepth] to [-1]; a depth
    written with more digits than a double holds is rounded, so
    [-L 9007199254740993] gives 9007199254740992; and a depth beyond the
    largest double gives [Infinity], which is not [NaN] and is stored. *)
Lemma negative_depth_counterexample :
  maxDepth (parsedOptions (parseTreeArgs ["-L"; "-1"])) = Some (Finite (-1))
  /\ ~ (0 <= -1)%Z
  /\ maxDepth (parsedOptions (parseTreeArgs ["-L"; "9007199254740993"]))
     = Some (Finite 9007199254740992)
  /\ maxDepth (parsedOptions (parseTreeArgs ["-L"; hugeDepth]))
     = Some (Infinity false).
Proof. repeat split; try (vm_compute; reflexivity). lia. Qed.

(** C9, amended. When the returned options set [maxDepth], its value is
    the number that [parseInt] reads from the token after a [-L] or from
    what follows [-L] inside a token, and it is not [NaN]: the double
    nearest to the integer written there. Below 2^53 in magnitude that is
    the integer itself; it is negative only if the text, after its
    leading white space, starts with a minus sign. *)
Theorem maxDepth_source (args : list string) (v : JsNumber) :
  maxDepth (parsedOptions (parseTreeArgs args)) = Some v ->
  exists text z,
    depthText args text
    /\ JsString.mathInt text = Some z
    /\ JsString.parseInt text = v
    /\ v = toNumber z
    /\ isNaN v = false
    /\ ((Z.abs z < 2 ^ 53)%Z -> v = Finite z)
    /\ ((z < 0)%Z ->
        JsString.startsWith (JsString.trimStart text) "-" = true).
Proof.
  intros H. unfold parseTreeArgs in H.
  destruct (ParseFacts.parseLoop_depth (List.length args) args _ v
              (Nat.le_refl _) H) as [Hinit|[text [Ht [Hnan Hp]]]];
    [discriminate|].
  destruct (NumberFacts.parseInt_read text Hnan) as [z [Hz Hv]].
  exists text, z. rewrite Hp in Hnan, Hv.
  repeat split; trivial.
  - intros Hsmall. rewrite Hv. now apply NumberFacts.toNumber_exact.
  - now apply ParseFacts.mathInt_negative.
Qed.

Lemma maxDepth_source_witness :
  exists text z,
    depthText ["-L"; "-1"] text
    /\ JsString.mathInt text = Some z
    /\ JsString.parseInt text = Finite (-1)
    /\ Finite (-1) = toNumber z
    /\ isNaN (Finite (-1)) = false
    /\ ((Z.abs z < 2 ^ 53)%Z -> Finite (-1) = Finite z)
    /\ ((z < 0)%Z ->
        JsString.startsWith (JsString.trimStart text) "-" = true).
Proof.
  apply (maxDepth_source ["-L"; "-1"] (Finite (-1))). reflexivity.
Defined.

(** ** The directory pattern of [.gitignore] *)

(** C1. With [.gitignore] holding [ignored_file.txt] and [ignored_dir/],
    [generateTree] prints a line for [ignored_dir]: the pattern
    [ignored_dir/] is looked for as a substring of the relative path, and
    the path of the directory itself, [ignored_dir], has no slash. Only
    what lies below the directory is left out. *)
Theorem gitignore_directory_listed (localeCompare : string -> string -> Z) :
  createIgnoreInstance (projectWorld scenarioB) projectPath
  = [".git"; ".DS_Store"; "node_modules"; "ignored_file.txt"; "ignored_dir/"]
  /\ ignores (createIgnoreInstance (projectWorld scenarioB) projectPath)
             "ignored_dir" = false
  /\ ignores (createIgnoreInstance (projectWorld scenarioB) projectPath)
             "ignored_dir/secret.txt" = true
  /\ fst (generateTree localeCompare (projectWorld scenarioB) "project"
                       noOptions)
     = Returned "project
├── ignored_dir
└── visible_file.txt
".
Proof. repeat split. Qed.

(** ** Ignored paths: what the matcher accepts is left out, with
    everything below it *)

Module IgnoreFacts.
Import JsString StringFacts SplitFacts PathFacts.

Lemma concat_snoc (sep x : string) (l : list string) :
  l <> [] ->
  String.concat sep (l ++ [x]) = String.concat sep l ++ sep ++ x.
Proof.
  induction l as [|y l IH]; [congruence|]. intros _.
  destruct l as [|z l]; [reflexivity|].
  change ((y :: z :: l) ++ [x])%list with (y :: ((z :: l) ++ [x]))%list.
  rewrite concat_cons by (simpl; discriminate).
  rewrite IH by discriminate.
  rewrite (concat_cons sep y (z :: l)) by discriminate.
  now rewrite !append_assoc.
Qed.

Lemma concat_named (names : list string) :
  names <> [] -> Forall (fun nm => nm <> "") names ->
  String.concat "/" names <> "".
Proof.
  intros Hne Hall. destruct Hall as [|nm rest Hnm _]; [congruence|].
  destruct rest; simpl; [exact Hnm|].
  destruct nm; [congruence | discriminate].
Qed.

Lemma join_absoluteOf (base nm : string) (above : list string) :
  base <> "" -> Forall (fun x => x <> "") above -> nm <> "" ->
  NodePath.join (absoluteOf base above) nm = absoluteOf base (above ++ [nm]).
Proof.
  intros Hbase Habove Hnm. unfold NodePath.join, absoluteOf.
  destruct above as [|a rest].
  - simpl app. cbv iota.
    destruct (base =? "/"); [reflexivity | now rewrite append_assoc].
  - change ((a :: rest) ++ [nm])%list with (a :: (rest ++ [nm]))%list.
    cbv iota.
    change (a :: (rest ++ [nm]))%list with ((a :: rest) ++ [nm])%list.
    rewrite concat_snoc by discriminate.
    pose proof (concat_named (a :: rest) ltac:(discriminate) Habove) as Hc.
    set (c := String.concat "/" (a :: rest)) in *.
    assert (Hnot : ((if base =? "/" then "/" else base ++ "/") ++ c =? "/")
                   = false).
    { apply String.eqb_neq. intros H.
      apply (f_equal String.length) in H. rewrite length_append in H.
      destruct c; [congruence|].
      destruct (base =? "/"); simpl in H; [lia|].
      rewrite length_append in H. simpl in H. lia. }
    rewrite Hnot. now rewrite !append_assoc.
Qed.

Lemma relative_absoluteOf (base : string) (above : list string) :
  base <> "" -> above <> [] ->
  NodePath.relative base (absoluteOf base above) = String.concat "/" above.
Proof.
  intros Hbase Habove. unfold NodePath.relative, absoluteOf.
  destruct above as [|a rest]; [congruence|].
  destruct (String.eqb_spec base "/") as [->|Hne].
  - reflexivity.
  - replace (S (String.length base)) with (String.length (base ++ "/"))
      by (rewrite length_append; simpl; lia).
    apply drop_append.
Qed.

Section Invariant.

Variable localeCompare : string -> string -> Z.
Variables (options : GtreeOptions) (ig : list string) (base : string).
Hypothesis base_given : baseDirectory options = Some base.
Hypothesis base_named : base <> "".

Lemma relativePathOf_absoluteOf (above : list string) (nm : string) :
  Forall (fun x => x <> "") above -> nm <> "" ->
  relativePathOf options (absoluteOf base above) nm
  = String.concat "/" (above ++ [nm]).
Proof.
  intros Habove Hnm. unfold relativePathOf.
  rewrite base_given, orDot_base by exact base_named.
  rewrite join_absoluteOf by assumption.
  apply relative_absoluteOf; [exact base_named|].
  now destruct above.
Qed.

Lemma namedEntry_name (entry : Dirent) :
  namedEntry entry = true -> dirent_name entry <> "".
Proof.
  destruct entry as [nm text | nm sub]; simpl; intros H;
    apply andb_true_iff in H as [H _]; apply negb_true_iff in H;
    now apply String.eqb_neq.
Qed.

Lemma ignored_below (entry : Dirent) :
  forall above lvl names k,
    namedEntry entry = true ->
    Forall (fun x => x <> "") above ->
    In names
       (treePaths (resultOf (scanSubdirectory localeCompare entry
                               (absoluteOf base above) options ig lvl))) ->
    (0 < k <= List.length names)%nat ->
    ignores ig (String.concat "/" (above ++ firstn k names)) = false.
Proof.
  induction entry as [nm text | nm | nm entries IH] using Dirent_nested_ind;
    intros above lvl names k Hnamed Habove Hnames Hk.
  - rewrite scanSubdirectory_File in Hnames. unfold resultOf in Hnames.
    destruct (depthReached options lvl) eqn:Hd.
    + rewrite scanDirectory_depth in Hnames by exact Hd. contradiction.
    + rewrite scanDirectory_unreadable in Hnames by exact Hd. contradiction.
  - rewrite scanSubdirectory_Directory in Hnames. unfold resultOf in Hnames.
    destruct (depthReached options lvl) eqn:Hd.
    + rewrite scanDirectory_depth in Hnames by exact Hd. contradiction.
    + rewrite scanDirectory_unreadable in Hnames by exact Hd. contradiction.
  - rewrite scanSubdirectory_Directory in Hnames.
    apply in_flat_map in Hnames as [n [Hn Hnames]].
    pose proof (scanSubdirectory_resultOf localeCompare
                  (Directory nm (Some entries)) (absoluteOf base above)
                  options ig lvl) as Hres.
    rewrite scanSubdirectory_Directory in Hres.
    destruct (scanDirectory_In _ _ _ _ _ _ _ _ Hres Hn)
      as [_ [es [entry [Hes [Hentry [Hkept ->]]]]]].
    injection Hes as <-.
    simpl in Hnamed. apply andb_true_iff in Hnamed as [_ Hnamed].
    rewrite forallb_forall in Hnamed. specialize (Hnamed entry Hentry).
    pose proof (namedEntry_name entry Hnamed) as Hnm.
    unfold skipped in Hkept. apply orb_false_iff in Hkept as [_ Hkept].
    rewrite relativePathOf_absoluteOf in Hkept by assumption.
    unfold nodeFor in Hnames. simpl in Hnames.
    destruct Hnames as [<-|Hnames].
    + simpl in Hk. replace k with 1%nat by lia. exact Hkept.
    + apply in_map_iff in Hnames as [rest [<- Hrest]].
      destruct k as [|k]; [lia|]. simpl firstn.
      destruct k as [|k]; [simpl; exact Hkept|].
      destruct (dirent_isDirectory entry); [|contradiction].
      rewrite join_absoluteOf in Hrest by assumption.
      change (above ++ dirent_name entry :: firstn (S k) rest)%list
        with (above ++ [dirent_name entry] ++ firstn (S k) rest)%list.
      rewrite app_assoc.
      rewrite Forall_forall in IH.
      apply (IH entry Hentry (above ++ [dirent_name entry])%list
                (lvl + 1)%Z rest (S k) Hnamed).
      * apply Forall_app. split; [exact Habove | now constructor].
      * exact Hrest.
      * simpl in Hk. lia.
Qed.

(** In the scan [generateTree] starts, no node sits at or below a
    relative path that [ignores] accepts. *)
Lemma ignored_paths_absent listing nodes names k :
  wellNamed listing = true ->
  fst (scanDirectory localeCompare listing base options ig 0) = Returned nodes ->
  In names (treePaths nodes) ->
  (0 < k <= List.length names)%nat ->
  ignores ig (String.concat "/" (firstn k names)) = false.
Proof.
  intros Hnamed Hscan Hnames Hk.
  assert (Hroot : namedEntry (Directory "root" listing) = true).
  { simpl. destruct listing; [exact Hnamed | reflexivity]. }
  assert (Hin : In names
                   (treePaths
                      (resultOf (scanSubdirectory localeCompare
                                   (Directory "root" listing)
                                   (absoluteOf base []) options ig 0)))).
  { rewrite scanSubdirectory_Directory. unfold resultOf.
    simpl absoluteOf. now rewrite Hscan. }
  exact (ignored_below (Directory "root" listing) [] 0%Z names k
           Hroot (Forall_nil _) Hin Hk).
Qed.

End Invariant.

End IgnoreFacts.

(** * Further properties of the code *)

(** ** The matcher goes down with the path *)

Module DescentFacts.
Import JsString StringFacts SplitFacts.

Lemma patternMatches_descends (normalizedPath rest pattern : string) :
  patternMatches normalizedPath pattern = true ->
  patternMatches (normalizedPath ++ "/" ++ rest) pattern = true.
Proof.
  unfold patternMatches.
  destruct (endsWith pattern "/**").
  - set (dir := sliceEnd pattern 3). intros H.
    apply orb_true_iff in H. apply orb_true_iff. left.
    apply startsWith_spec. destruct H as [H|H].
    + apply startsWith_spec in H as [r ->].
      exists (r ++ "/" ++ rest). now rewrite !append_assoc.
    + apply String.eqb_eq in H. subst normalizedPath.
      exists rest. now rewrite append_assoc.
  - destruct (includes pattern "/").
    + rewrite !includes_spec. intros [front [r ->]].
      exists front, (r ++ "/" ++ rest). now rewrite !append_assoc.
    + rewrite !existsb_exists. intros [seg [Hin Heq]].
      exists seg. split; [|exact Heq].
      change ("/" ++ rest) with (String "/"%char rest).
      rewrite split_append. apply in_or_app. now left.
Qed.

End DescentFacts.

(** X1. What [ignores] accepts it accepts with anything appended after a
    slash: below an ignored path every path is ignored. *)
Theorem ignores_descends (allIgnores : list string) (filePath rest : string) :
  ignores allIgnores filePath = true ->
  ignores allIgnores (filePath ++ "/" ++ rest) = true.
Proof.
  unfold ignores. rewrite !existsb_exists. intros [pattern [Hin H]].
  exists pattern. split; [exact Hin|].
  rewrite !SplitFacts.replaceBackslashes_append.
  now apply DescentFacts.patternMatches_descends.
Qed.

Lemma ignores_descends_witness :
  ignores ["build/**"; "docs/"; "tmp"] ("src/tmp" ++ "/" ++ "a\b.txt") = true.
Proof.
  apply (ignores_descends ["build/**"; "docs/"; "tmp"] "src/tmp" "a\b.txt").
  reflexivity.
Defined.

(** X2. With the default patterns alone, a path is ignored exactly when
    one of the pieces of its normalized form between slashes is [.git],
    [.DS_Store] or [node_modules]. *)
Theorem default_ignores_exact (filePath : string) :
  ignores defaultIgnores filePath = true
  <-> exists seg,
      In seg (JsString.split "/"%char (JsString.replaceBackslashes filePath))
      /\ In seg [".git"; ".DS_Store"; "node_modules"].
Proof.
  unfold ignores, defaultIgnores.
  set (segs := JsString.split "/"%char (JsString.replaceBackslashes filePath)).
  assert (Hm : forall pattern,
             In pattern [".git"; ".DS_Store"; "node_modules"] ->
             patternMatches (JsString.replaceBackslashes filePath) pattern
             = existsb (String.eqb pattern) segs).
  { intros pattern [<-|[<-|[<-|[]]]]; reflexivity. }
  rewrite existsb_exists. split.
  - intros [pattern [Hin H]]. rewrite (Hm pattern Hin) in H.
    apply existsb_exists in H as [seg [Hseg Heq]].
    apply String.eqb_eq in Heq. subst seg. now exists pattern.
  - intros [seg [Hseg Hin]]. exists seg. split; [exact Hin|].
    rewrite (Hm seg Hin). apply existsb_exists.
    exists seg. split; [exact Hseg | apply String.eqb_refl].
Qed.

(** ** What a scan lists *)

Section ContentFacts.

Variable localeCompare : string -> string -> Z.

Lemma retained_kinds options ig dirPath lvl entries :
  map (fun n => (name n, isDirectory n))
      (retained localeCompare options ig dirPath lvl entries)
  = map (fun e => (dirent_name e, dirent_isDirectory e))
        (filter (retainedEntry options ig dirPath) entries).
Proof.
  unfold retained, retainedEntry.
  induction entries as [|e es IH]; [reflexivity|]. simpl.
  destruct (skipped options ig dirPath e); simpl; now rewrite IH.
Qed.

Lemma top_level dirPath options ig lvl listing :
  Forall (fun n => level n = lvl)
         (resultOf (scanDirectory localeCompare listing dirPath options ig lvl)).
Proof.
  apply Forall_forall. intros n Hn.
  pose proof (scanDirectory_returns localeCompare listing dirPath options ig lvl)
    as [nodes Hscan].
  unfold resultOf in Hn. rewrite Hscan in Hn.
  destruct (scanDirectory_In _ _ _ _ _ _ _ _ Hscan Hn)
    as [_ [entries [entry [_ [_ [_ ->]]]]]].
  reflexivity.
Qed.

Lemma top_level_sub entry dirPath options ig lvl :
  Forall (fun n => level n = lvl)
         (resultOf (scanSubdirectory localeCompare entry dirPath options ig lvl)).
Proof.
  destruct entry.
  - rewrite scanSubdirectory_File. apply top_level.
  - rewrite scanSubdirectory_Directory. apply top_level.
Qed.

Lemma scanned_wellShaped dirPath options ig lvl listing :
  Forall wellShaped
         (allNodes (resultOf (scanDirectory localeCompare listing dirPath
                                            options ig lvl))).
Proof.
  pose proof (scanDirectory_returns localeCompare listing dirPath options ig lvl)
    as [nodes Hscan].
  unfold resultOf. rewrite Hscan. revert Hscan.
  apply (scan_tree_invariant localeCompare options ig (fun _ _ => True));
    [trivial | | trivial].
  intros l p lv ns _ Hs. apply Forall_forall. intros n Hn.
  destruct (scanDirectory_In _ _ _ _ _ _ _ _ Hs Hn)
    as [_ [entries [entry [_ [_ [_ ->]]]]]].
  unfold wellShaped, nodeFor. simpl. split.
  - destruct (dirent_isDirectory entry); split; congruence.
  - intros kids Hkids.
    destruct (dirent_isDirectory entry); [|discriminate].
    injection Hkids as <-. apply top_level_sub.
Qed.

End ContentFacts.

(** X3. A directory that is read below the depth limit contributes one
    node for each of its entries that is neither hidden nor ignored, with
    the entry's name and kind, and no other node. *)
Theorem scan_lists_retained (localeCompare : string -> string -> Z)
    (entries : list Dirent) (dirPath : string) (options : GtreeOptions)
    (ig : list string) (currentLevel : Z) :
  depthReached options currentLevel = false ->
  exists nodes,
    fst (scanDirectory localeCompare (Some entries) dirPath options ig
                       currentLevel) = Returned nodes
    /\ Permutation
         (map (fun n => (name n, isDirectory n)) nodes)
         (map (fun e => (dirent_name e, dirent_isDirectory e))
              (filter (retainedEntry options ig dirPath) entries)).
Proof.
  intros Hd. eexists. split.
  - now apply scanDirectory_nodes.
  - rewrite <- (retained_kinds localeCompare options ig dirPath currentLevel).
    apply Permutation_map. apply sort_Permutation.
Qed.

Lemma scan_lists_retained_witness :
  exists nodes,
    fst (scanDirectory codeUnitCompare scenarioHidden projectPath plainOptions
                       defaultIgnores 0) = Returned nodes
    /\ Permutation
         (map (fun n => (name n, isDirectory n)) nodes)
         [("visible_file.txt", false); ("locked", true)].
Proof.
  apply (scan_lists_retained codeUnitCompare
           [File ".hidden_file.txt" "secret"; File "visible_file.txt" "";
            Directory ".git" (Some [File "config" ""]);
            Directory "node_modules" (Some [File "x.js" ""]);
            Directory "locked" None]
           projectPath plainOptions defaultIgnores 0).
  reflexivity.
Defined.

(** X4. In every scan result the top-level nodes carry the level of the
    call, a file node has no [children] and a directory node has them, and
    the children of a node are one level below it. *)
Theorem scan_shape (localeCompare : string -> string -> Z)
    (listing : option (list Dirent)) (dirPath : string)
    (options : GtreeOptions) (ig : list string) (currentLevel : Z) :
  Forall (fun n => level n = currentLevel)
         (resultOf (scanDirectory localeCompare listing dirPath options ig
                                  currentLevel))
  /\ Forall wellShaped
            (allNodes (resultOf (scanDirectory localeCompare listing dirPath
                                               options ig currentLevel))).
Proof.
  split; [apply top_level | apply scanned_wellShaped].
Qed.

(** X5. With [maxDepth] zero or negative, [generateTree] on a directory
    returns the line of the root alone and reads nothing, whatever the
    directory holds. *)
Theorem nonpositive_depth (localeCompare : string -> string -> Z) (w : World)
    (targetPath : string) (options : GtreeOptions) (d : Z)
    (absolutePath : string) (listing : option (list Dirent)) :
  maxDepth options = Some (Finite d) -> (d <= 0)%Z ->
  resolve w targetPath = Returned absolutePath ->
  disk w absolutePath = Dir listing ->
  generateTree localeCompare w targetPath options
  = (Returned (NodePath.basename absolutePath ++ newline), []).
Proof.
  intros Hmax Hd Hresolve Hdisk. unfold generateTree.
  rewrite Hresolve, Hdisk.
  rewrite scanDirectory_depth; [reflexivity|].
  unfold depthReached, withBaseDirectory. simpl. rewrite Hmax.
  now apply Z.leb_le.
Qed.

Lemma nonpositive_depth_witness :
  generateTree codeUnitCompare (projectWorld scenarioA) "project"
               (mkOptions (Some (Finite (-1))) None None None)
  = (Returned "project
", []).
Proof.
  apply (nonpositive_depth codeUnitCompare (projectWorld scenarioA) "project"
           (mkOptions (Some (Finite (-1))) None None None) (-1)%Z
           projectPath scenarioA).
  - reflexivity.
  - discriminate.
  - reflexivity.
  - reflexivity.
Defined.

(** ** The [path] of a node *)

Section PathedFacts.

Variable localeCompare : string -> string -> Z.
Variables (options : GtreeOptions) (ig : list string) (base : string).
Hypothesis base_given : baseDirectory options = Some base.
Hypothesis base_named : base <> "".

Lemma wellPathed_unfold above nm p d kids lvl :
  wellPathed above (mkFileNode nm p d kids lvl)
  <-> p = String.concat "/" (above ++ [nm])
      /\ match kids with
         | Some ks => Forall (wellPathed (above ++ [nm])) ks
         | None => True
         end.
Proof.
  simpl. destruct kids as [ks|]; [|tauto].
  assert (H : forall l,
             (fix all (l : list FileNode) : Prop :=
                match l with
                | [] => True
                | k :: r => wellPathed (above ++ [nm]) k /\ all r
                end) l
             <-> Forall (wellPathed (above ++ [nm])) l).
  { induction l as [|k r IH]; split; intros Hl.
    - constructor.
    - exact I.
    - destruct Hl as [Hk Hr]. constructor; [exact Hk | now apply IH].
    - inversion Hl; subst. split; [assumption | now apply IH]. }
  now rewrite H.
Qed.

Lemma pathed_below (entry : Dirent) :
  forall above lvl,
    namedEntry entry = true ->
    Forall (fun x => x <> "") above ->
    Forall (wellPathed above)
           (resultOf (scanSubdirectory localeCompare entry
                        (absoluteOf base above) options ig lvl)).
Proof.
  induction entry as [nm text | nm | nm entries IH] using Dirent_nested_ind;
    intros above lvl Hnamed Habove.
  - rewrite scanSubdirectory_File. unfold resultOf.
    destruct (depthReached options lvl) eqn:Hd.
    + rewrite scanDirectory_depth by exact Hd. constructor.
    + rewrite scanDirectory_unreadable by exact Hd. constructor.
  - rewrite scanSubdirectory_Directory. unfold resultOf.
    destruct (depthReached options lvl) eqn:Hd.
    + rewrite scanDirectory_depth by exact Hd. constructor.
    + rewrite scanDirectory_unreadable by exact Hd. constructor.
  - rewrite scanSubdirectory_Directory.
    pose proof (scanSubdirectory_resultOf localeCompare
                  (Directory nm (Some entries)) (absoluteOf base above)
                  options ig lvl) as Hres.
    rewrite scanSubdirectory_Directory in Hres.
    apply Forall_forall. intros n Hn.
    destruct (scanDirectory_In _ _ _ _ _ _ _ _ Hres Hn)
      as [_ [es [entry [Hes [Hentry [_ ->]]]]]].
    injection Hes as <-.
    simpl in Hnamed. apply andb_true_iff in Hnamed as [_ Hnamed].
    rewrite forallb_forall in Hnamed. specialize (Hnamed entry Hentry).
    pose proof (IgnoreFacts.namedEntry_name entry Hnamed) as Hnm.
    unfold nodeFor. apply wellPathed_unfold. split.
    + now apply IgnoreFacts.relativePathOf_absoluteOf.
    + destruct (dirent_isDirectory entry); [|exact I].
      rewrite IgnoreFacts.join_absoluteOf by assumption.
      rewrite Forall_forall in IH. apply (IH entry Hentry); [exact Hnamed|].
      apply Forall_app. split; [exact Habove | now constructor].
Qed.

End PathedFacts.

(** X6. In the scan that [generateTree] starts at a non-empty base
    directory whose entries have non-empty names, the [path] of every node
    is the names from the top level down to the node, joined by slashes. *)
Theorem node_paths (localeCompare : string -> string -> Z)
    (options : GtreeOptions) (ig : list string) (base : string)
    (listing : option (list Dirent)) :
  baseDirectory options = Some base -> base <> "" ->
  wellNamed listing = true ->
  Forall (wellPathed [])
         (resultOf (scanDirectory localeCompare listing base options ig 0)).
Proof.
  intros Hgiven Hbase Hnamed.
  assert (Hroot : namedEntry (Directory "root" listing) = true).
  { simpl. destruct listing; [exact Hnamed | reflexivity]. }
  exact (pathed_below localeCompare options ig base Hgiven Hbase
           (Directory "root" listing) [] 0%Z Hroot (Forall_nil _)).
Qed.

Lemma node_paths_witness :
  Forall (wellPathed [])
         (resultOf (scanDirectory codeUnitCompare scenarioC projectPath
                                  plainOptions defaultIgnores 0))
  /\ map path (allNodes (resultOf (scanDirectory codeUnitCompare scenarioC
                                     projectPath plainOptions
                                     defaultIgnores 0)))
     = ["level1_dir"; "level1_dir/level2_dir";
        "level1_dir/level2_dir/level3_file.txt";
        "level1_dir/level2_file.txt"; "level1_file.txt"].
Proof.
  split; [|reflexivity].
  apply (node_paths codeUnitCompare plainOptions defaultIgnores projectPath
           scenarioC eq_refl); [discriminate | reflexivity].
Defined.

(** ** What a scan reads *)

Section ReadFacts.

Variable localeCompare : string -> string -> Z.
Variables (options : GtreeOptions) (ig : list string).

Local Abbreviation scanSub := (scanSubdirectory localeCompare).

Lemma readPaths_app (a b : list Event) :
  readPaths (a ++ b) = (readPaths a ++ readPaths b)%list.
Proof. apply flat_map_app. Qed.

Lemma expandedDirs_app (dirPath : string) (a b : list FileNode) :
  expandedDirs options dirPath (a ++ b)
  = (expandedDirs options dirPath a ++ expandedDirs options dirPath b)%list.
Proof.
  unfold expandedDirs. now rewrite flat_map_app, filter_app, map_app.
Qed.

Lemma filter_Permutation {A} (f : A -> bool) (l l' : list A) :
  Permutation l l' -> Permutation (filter f l) (filter f l').
Proof.
  induction 1 as [|x l l' _ IH|x y l|l l' l'' _ IH1 _ IH2]; simpl.
  - constructor.
  - destruct (f x); [now constructor | exact IH].
  - destruct (f x), (f y); try reflexivity. apply perm_swap.
  - now transitivity (filter f l').
Qed.

Lemma expandedDirs_Permutation (dirPath : string) (a b : list FileNode) :
  Permutation a b ->
  Permutation (expandedDirs options dirPath a) (expandedDirs options dirPath b).
Proof.
  intros H. unfold expandedDirs.
  apply Permutation_map, filter_Permutation.
  now apply Permutation_flat_map.
Qed.

(** The directories a node accounts for: its own if it was gone into,
    and those below. *)
Lemma expandedDirs_node dirPath nm p d kids lvl :
  expandedDirs options dirPath [mkFileNode nm p d kids lvl]
  = ((if d && negb (depthReached options (lvl + 1)%Z)
      then [NodePath.join dirPath nm] else [])
     ++ match kids with
        | Some ks => expandedDirs options (NodePath.join dirPath nm) ks
        | None => []
        end)%list.
Proof.
  unfold expandedDirs. simpl flat_map. rewrite app_nil_r.
  simpl filter. unfold expanded at 1. simpl isDirectory. simpl level.
  destruct (d && negb (depthReached options (lvl + 1)%Z));
    destruct kids; reflexivity.
Qed.

Lemma tryForOf_log {E} (body : E -> Eff (option FileNode)) entries :
  (forall e, exists v, fst (body e) = Returned v) ->
  snd (tryForOf body entries) = flat_map (fun e => snd (body e)) entries.
Proof.
  intros Htotal. induction entries as [|e es IH]; [reflexivity|].
  simpl. destruct (Htotal e) as [v Hv].
  destruct (body e) as [[pushed|message] log]; simpl in Hv; [|discriminate].
  destruct (tryForOf body es) as [items log']. simpl in IH. simpl.
  now rewrite IH.
Qed.

Lemma scanEntry_log dirPath lvl entry :
  snd (scanEntry scanSub dirPath options ig lvl entry)
  = if hiddenSkip options entry then []
    else IgnoreQuery (relativePathOf options dirPath (dirent_name entry))
         :: if ignores ig (relativePathOf options dirPath (dirent_name entry))
            then []
            else if dirent_isDirectory entry
                 then snd (scanSub entry
                             (NodePath.join dirPath (dirent_name entry))
                             options ig (lvl + 1)%Z)
                 else [].
Proof.
  unfold scanEntry, hiddenSkip, relativePathOf.
  destruct (falsy (showHidden options)
            && JsString.startsWith (dirent_name entry) "."); [reflexivity|].
  unfold bind, tell.
  destruct (ignores ig _); [reflexivity|].
  destruct (dirent_isDirectory entry); [|reflexivity].
  pose proof (scanSubdirectory_returns localeCompare entry
                (NodePath.join dirPath (dirent_name entry)) options ig
                (lvl + 1)%Z) as [kids Hk].
  destruct (scanSub entry _ options ig (lvl + 1)%Z) as [[ks|message] log];
    simpl in Hk; [|discriminate].
  simpl. now rewrite app_nil_r.
Qed.

Lemma scanDirectory_log entries dirPath lvl :
  depthReached options lvl = false ->
  snd (scanDirectory localeCompare (Some entries) dirPath options ig lvl)
  = ReadDir dirPath
    :: flat_map (fun e => snd (scanEntry scanSub dirPath options ig lvl e))
                entries.
Proof.
  intros Hd. unfold scanDirectory, scanDirectoryWith. rewrite Hd.
  pose proof (tryForOf_log (scanEntry scanSub dirPath options ig lvl) entries)
    as H.
  destruct (tryForOf _ entries) as [items log]. simpl in *.
  rewrite H; [reflexivity|].
  intros e. eexists. apply scanEntry_value.
Qed.

Local Abbreviation readsMatch := (readsMatch localeCompare options ig).

Lemma reads_unreadable dirPath lvl :
  Permutation
    (readPaths (snd (scanDirectory localeCompare None dirPath options ig lvl)))
    ((if depthReached options lvl then [] else [dirPath])
     ++ expandedDirs options dirPath
          (resultOf (scanDirectory localeCompare None dirPath options ig
                                   lvl)))%list.
Proof.
  unfold resultOf. destruct (depthReached options lvl) eqn:Hd.
  - now rewrite scanDirectory_depth.
  - now rewrite scanDirectory_unreadable.
Qed.

Lemma reads_entries entries dirPath lvl :
  Forall readsMatch entries ->
  Permutation
    (readPaths (flat_map (fun e => snd (scanEntry scanSub dirPath options ig
                                                  lvl e)) entries))
    (expandedDirs options dirPath
       (retained localeCompare options ig dirPath lvl entries)).
Proof.
  induction 1 as [|e es He _ IH]; [reflexivity|].
  simpl flat_map. unfold retained in *. simpl flat_map.
  rewrite readPaths_app, expandedDirs_app.
  apply Permutation_app; [|exact IH].
  rewrite scanEntry_log. unfold skipped.
  destruct (hiddenSkip options e); [reflexivity|]. simpl orb.
  destruct (ignores ig _); [reflexivity|].
  unfold nodeFor. rewrite expandedDirs_node.
  change (readPaths (IgnoreQuery ?x :: ?l)) with (readPaths l).
  destruct (dirent_isDirectory e); [|reflexivity].
  simpl andb. rewrite (He _ (lvl + 1)%Z).
  now destruct (depthReached options (lvl + 1)).
Qed.

Lemma reads_match_all (entry : Dirent) : readsMatch entry.
Proof.
  induction entry as [nm text | nm | nm entries IH] using Dirent_nested_ind;
    intros dirPath lvl.
  - rewrite scanSubdirectory_File. apply reads_unreadable.
  - rewrite scanSubdirectory_Directory. apply reads_unreadable.
  - rewrite scanSubdirectory_Directory. unfold resultOf.
    destruct (depthReached options lvl) eqn:Hd.
    + now rewrite scanDirectory_depth.
    + rewrite scanDirectory_log, scanDirectory_nodes by exact Hd.
      change (readPaths (ReadDir dirPath :: ?l)) with (dirPath :: readPaths l).
      simpl app. constructor.
      rewrite (reads_entries entries dirPath lvl IH).
      symmetry. apply expandedDirs_Permutation. apply sort_Permutation.
Qed.

Lemma located_nodes (nodes : list FileNode) :
  forall dirPath, map snd (flat_map (located dirPath) nodes) = allNodes nodes.
Proof.
  induction nodes as [|n ns IHns]; intros dirPath; [reflexivity|].
  unfold allNodes. simpl flat_map. rewrite map_app, IHns. f_equal.
  clear IHns ns. revert dirPath.
  induction n as [nm p d lvl | nm p d kids lvl IH] using FileNode_nested_ind;
    intros dirPath; [reflexivity|].
  simpl. f_equal.
  induction IH as [|k ks Hk _ IHks]; [reflexivity|].
  simpl. now rewrite map_app, Hk, IHks.
Qed.

Lemma scanned_letIn listing dirPath lvl :
  Forall (letIn options ig)
         (allNodes (resultOf (scanDirectory localeCompare listing dirPath
                                            options ig lvl))).
Proof.
  destruct (scanDirectory_returns localeCompare listing dirPath options ig lvl)
    as [nodes Hscan].
  unfold resultOf. rewrite Hscan. revert Hscan.
  generalize I. revert listing dirPath lvl nodes.
  apply (scan_tree_invariant localeCompare options ig (fun _ _ => True));
    [trivial|].
  intros l p lv ns _ Hscan. apply Forall_forall. intros n Hn.
  destruct (scanDirectory_In _ _ _ _ _ _ _ _ Hscan Hn)
    as [_ [entries [entry [_ [_ [Hkept ->]]]]]].
  unfold skipped, hiddenSkip in Hkept.
  apply orb_false_iff in Hkept as [Hhidden Hignored].
  split; [exact Hignored|].
  simpl. intros Hfalsy. now rewrite Hfalsy in Hhidden.
Qed.

End ReadFacts.

(** X7. The directories [readdirSync] is called on are, each as often
    as it is read: the directory the scan starts at, unless the depth
    limit is reached there, and the directory of every directory node of
    the result that lies above the depth limit. The nodes of the result
    are all neither hidden nor ignored, so a hidden or ignored directory
    is never read. *)
Theorem reads_once (localeCompare : string -> string -> Z)
    (listing : option (list Dirent)) (dirPath : string)
    (options : GtreeOptions) (ig : list string) (currentLevel : Z) :
  Permutation
    (readPaths (snd (scanDirectory localeCompare listing dirPath options ig
                                   currentLevel)))
    ((if depthReached options currentLevel then [] else [dirPath])
     ++ expandedDirs options dirPath
          (resultOf (scanDirectory localeCompare listing dirPath options ig
                                   currentLevel)))%list
  /\ map snd (flat_map (located dirPath)
                (resultOf (scanDirectory localeCompare listing dirPath options
                                         ig currentLevel)))
     = allNodes (resultOf (scanDirectory localeCompare listing dirPath options
                                         ig currentLevel))
  /\ Forall (letIn options ig)
            (allNodes (resultOf (scanDirectory localeCompare listing dirPath
                                               options ig currentLevel))).
Proof.
  split; [|split].
  - exact (reads_match_all localeCompare options ig (Directory "" listing)
             dirPath currentLevel).
  - apply located_nodes.
  - apply scanned_letIn.
Qed.

(** ** The order of a listing *)

Section ListingOrderFacts.

Lemma sorted_Permutation_unique {A} (R : A -> A -> Prop) (l : list A) :
  forall l',
    StronglySorted R l -> StronglySorted R l' -> Permutation l l' ->
    (forall a b, In a l -> In b l -> R a b -> R b a -> a = b) ->
    l = l'.
Proof.
  induction l as [|a l1 IH]; intros l' Hs Hs' HP Hanti.
  - apply Permutation_nil in HP. now subst.
  - destruct l' as [|b l2].
    + apply Permutation_sym, Permutation_nil in HP. discriminate.
    + apply StronglySorted_inv in Hs as [Hs1 Ha].
      apply StronglySorted_inv in Hs' as [Hs2 Hb].
      rewrite Forall_forall in Ha, Hb.
      assert (Hab : a = b).
      { assert (Hina : In a (b :: l2))
          by (apply (Permutation_in _ HP); now left).
        assert (Hinb : In b (a :: l1))
          by (apply (Permutation_in _ (Permutation_sym HP)); now left).
        destruct Hina as [->|Hina]; [reflexivity|].
        destruct Hinb as [->|Hinb]; [reflexivity|].
        apply Hanti; [now left | now right | now apply Ha | now apply Hb]. }
      subst b. f_equal. apply IH; trivial.
      * now apply Permutation_cons_inv in HP.
      * intros x y Hx Hy. apply Hanti; now right.
Qed.

Lemma NoDup_map_filter {A B} (f : A -> B) (g : A -> bool) (l : list A) :
  NoDup (map f l) -> NoDup (map f (filter g l)).
Proof.
  induction l as [|x l IH]; simpl; intros H; [constructor|].
  inversion H as [|? ? Hx Hl]; subst.
  destruct (g x); simpl; [|now apply IH].
  constructor; [|now apply IH].
  intros Hin. apply Hx. apply in_map_iff in Hin as [y [Hy Hin]].
  apply filter_In in Hin as [Hin _]. apply in_map_iff. now exists y.
Qed.

Lemma NoDup_map_injective {A B} (f : A -> B) (l : list A) (a b : A) :
  NoDup (map f l) -> In a l -> In b l -> f a = f b -> a = b.
Proof.
  induction l as [|x l IH]; simpl; intros H Ha Hb Hf; [contradiction|].
  inversion H as [|? ? Hx Hl]; subst.
  destruct Ha as [->|Ha], Hb as [->|Hb]; trivial.
  - elim Hx. rewrite Hf. now apply in_map.
  - elim Hx. rewrite <- Hf. now apply in_map.
  - now apply IH.
Qed.

Variable localeCompare : string -> string -> Z.

Hypothesis localeCompare_opposite :
  forall a b, (0 < localeCompare a b)%Z -> (localeCompare b a <= 0)%Z.
Hypothesis localeCompare_transitive :
  forall a b c, (localeCompare a b <= 0)%Z -> (localeCompare b c <= 0)%Z ->
                (localeCompare a c <= 0)%Z.

Lemma retained_names options ig dirPath lvl entries :
  map name (retained localeCompare options ig dirPath lvl entries)
  = map dirent_name (filter (retainedEntry options ig dirPath) entries).
Proof.
  unfold retained, retainedEntry.
  induction entries as [|e es IH]; [reflexivity|]. simpl.
  destruct (skipped options ig dirPath e); simpl; now rewrite IH.
Qed.

Lemma order_of_listing options ig dirPath lvl entries entries' :
  (forall a b,
      In a (map dirent_name entries) -> In b (map dirent_name entries) ->
      (localeCompare a b <= 0)%Z -> (localeCompare b a <= 0)%Z -> a = b) ->
  NoDup (map dirent_name entries) ->
  Permutation entries entries' ->
  fst (scanDirectory localeCompare (Some entries) dirPath options ig lvl)
  = fst (scanDirectory localeCompare (Some entries') dirPath options ig lvl).
Proof.
  intros Hanti Hnodup HP.
  destruct (depthReached options lvl) eqn:Hd.
  - now rewrite !scanDirectory_depth.
  - rewrite !scanDirectory_nodes by exact Hd. f_equal.
    set (items := retained localeCompare options ig dirPath lvl entries).
    set (items' := retained localeCompare options ig dirPath lvl entries').
    assert (Hitems : Permutation items items')
      by (apply Permutation_flat_map; exact HP).
    assert (Hnames : NoDup (map name items)).
    { unfold items. rewrite retained_names. now apply NoDup_map_filter. }
    assert (Hsub : forall n, In n items -> In (name n) (map dirent_name entries)).
    { intros n Hn. apply (in_map name) in Hn. unfold items in Hn.
      rewrite retained_names in Hn.
      apply in_map_iff in Hn as [e [<- He]].
      apply filter_In in He as [He _]. now apply in_map. }
    apply (sorted_Permutation_unique
             (notAfter (compareNodes localeCompare))).
    + apply sort_sorted.
      * now apply compareNodes_opposite.
      * now apply compareNodes_transitive.
    + apply sort_sorted.
      * now apply compareNodes_opposite.
      * now apply compareNodes_transitive.
    + rewrite !sort_Permutation. exact Hitems.
    + intros a b Ha Hb Hab Hba.
      apply sort_In in Ha, Hb.
      apply (NoDup_map_injective name items); trivial.
      unfold notAfter, compareNodes in Hab, Hba.
      apply Hanti; [now apply Hsub | now apply Hsub | |];
        destruct (isDirectory a), (isDirectory b); simpl in *;
          trivial; lia.
Qed.

End ListingOrderFacts.

Lemma codeUnitCompare_antisymmetric (a b : string) :
  (codeUnitCompare a b <= 0)%Z -> (codeUnitCompare b a <= 0)%Z -> a = b.
Proof.
  rewrite !codeUnitCompare_notAfter. intros [->|H1] [H2|H2]; auto.
  elim (OrderedTypeEx.String_as_OT.lt_not_eq a a); [|reflexivity].
  exact (OrderedTypeEx.String_as_OT.lt_trans _ _ _ H1 H2).
Qed.

(** X8. For a consistent [localeCompare] under which no two names of a
    directory tie, the nodes a scan returns for the directory do not
    depend on the order in which [readdirSync] lists its entries. *)
Theorem listing_order_irrelevant (localeCompare : string -> string -> Z)
    (options : GtreeOptions) (ig : list string) (dirPath : string)
    (currentLevel : Z) (entries entries' : list Dirent) :
  (forall a b, (0 < localeCompare a b)%Z -> (localeCompare b a <= 0)%Z) ->
  (forall a b c, (localeCompare a b <= 0)%Z -> (localeCompare b c <= 0)%Z ->
                 (localeCompare a c <= 0)%Z) ->
  (forall a b,
      In a (map dirent_name entries) -> In b (map dirent_name entries) ->
      (localeCompare a b <= 0)%Z -> (localeCompare b a <= 0)%Z -> a = b) ->
  NoDup (map dirent_name entries) ->
  Permutation entries entries' ->
  fst (scanDirectory localeCompare (Some entries) dirPath options ig
                     currentLevel)
  = fst (scanDirectory localeCompare (Some entries') dirPath options ig
                       currentLevel).
Proof.
  intros Hopp Htrans. now apply order_of_listing.
Qed.

Lemma listing_order_irrelevant_witness :
  fst (scanDirectory codeUnitCompare
         (Some [File "file1.txt" "content1"; File "file2.txt" "content2";
                Directory "subdir" (Some [File "file3.txt" "content3"])])
         projectPath plainOptions defaultIgnores 0)
  = fst (scanDirectory codeUnitCompare
           (Some [Directory "subdir" (Some [File "file3.txt" "content3"]);
                  File "file2.txt" "content2"; File "file1.txt" "content1"])
           projectPath plainOptions defaultIgnores 0).
Proof.
  apply (listing_order_irrelevant codeUnitCompare plainOptions defaultIgnores
           projectPath 0).
  - exact codeUnitCompare_opposite.
  - exact codeUnitCompare_transitive.
  - intros a b _ _. apply codeUnitCompare_antisymmetric.
  - repeat constructor; simpl; intuition discriminate.
  - apply Permutation_rev with
      (l := [File "file1.txt" "content1"; File "file2.txt" "content2";
             Directory "subdir" (Some [File "file3.txt" "content3"])]).
Defined.

(** ** More on the argument translator *)

Module TranslatorFacts.
Import JsString StringFacts.

Lemma number_is_no_flag (n : string) :
  isNaN (parseInt n) = false -> isAllFlag n = false.
Proof.
  intros H. unfold isAllFlag.
  destruct (String.eqb_spec n "-a") as [->|_]; [discriminate|].
  destruct (String.eqb_spec n "--all") as [->|_]; [discriminate|].
  reflexivity.
Qed.

(** What one turn does to the fields, and when it skips. *)
Lemma step_fields (arg : string) (next : option string) (p : ParsedArgs) :
  let p' := fst (parseStep arg next p) in
  showHidden (parsedOptions p')
  = (if isAllFlag arg then Some true else showHidden (parsedOptions p))
  /\ excludeGit (parsedOptions p') = excludeGit (parsedOptions p)
  /\ baseDirectory (parsedOptions p') = baseDirectory (parsedOptions p)
  /\ (parsedPath p' = parsedPath p
      \/ (parsedPath p' = arg /\ startsWith arg "-" = false))
  /\ (snd (parseStep arg next p) = true ->
      arg = "-L" /\ exists n, next = Some n /\ isNaN (parseInt n) = false).
Proof.
  unfold parseStep, isAllFlag.
  destruct (String.eqb_spec arg "-L") as [->|HL]; simpl andb.
  - destruct next as [n|]; cbv iota zeta.
    + destruct (isNaN (parseInt n)) eqn:Hn; simpl; repeat split; auto;
        try easy. now exists n.
    + simpl. repeat split; auto; easy.
  - destruct ((arg =? "-a") || (arg =? "--all")).
    + simpl. repeat split; auto; easy.
    + destruct (startsWith arg "-L"); cbv zeta.
      * destruct (isNaN (parseInt (substring arg 2))); simpl;
          repeat split; auto; easy.
      * destruct (startsWith arg "-") eqn:Hdash; simpl; repeat split; auto;
          easy.
Qed.

Lemma parseLoop_fields (n : nat) (args : list string) (p : ParsedArgs) :
  (List.length args <= n)%nat ->
  showHidden (parsedOptions (parseLoop args p))
  = (if existsb isAllFlag args then Some true
     else showHidden (parsedOptions p))
  /\ excludeGit (parsedOptions (parseLoop args p))
     = excludeGit (parsedOptions p)
  /\ baseDirectory (parsedOptions (parseLoop args p))
     = baseDirectory (parsedOptions p)
  /\ (parsedPath (parseLoop args p) = parsedPath p
      \/ (In (parsedPath (parseLoop args p)) args
          /\ startsWith (parsedPath (parseLoop args p)) "-" = false)).
Proof.
  revert args p. induction n as [|n IH]; intros [|arg rest] p Hlen;
    simpl in Hlen; try lia; try (simpl; now auto).
  simpl parseLoop.
  pose proof (step_fields arg (hd_error rest) p) as Hstep. cbv zeta in Hstep.
  destruct (parseStep arg (hd_error rest) p) as [p' skip]. simpl in Hstep.
  destruct Hstep as [Hshow [Hex [Hbase [Hpath Hskip]]]].
  assert (Hgoal : forall tail,
             (List.length tail <= n)%nat ->
             existsb isAllFlag (arg :: rest) = isAllFlag arg || existsb isAllFlag tail ->
             (forall x, In x tail -> In x rest) ->
             showHidden (parsedOptions (parseLoop tail p'))
             = (if existsb isAllFlag (arg :: rest) then Some true
                else showHidden (parsedOptions p))
             /\ excludeGit (parsedOptions (parseLoop tail p'))
                = excludeGit (parsedOptions p)
             /\ baseDirectory (parsedOptions (parseLoop tail p'))
                = baseDirectory (parsedOptions p)
             /\ (parsedPath (parseLoop tail p') = parsedPath p
                 \/ (In (parsedPath (parseLoop tail p')) (arg :: rest)
                     /\ startsWith (parsedPath (parseLoop tail p')) "-"
                        = false))).
  { intros tail Htail Hflags Hin.
    destruct (IH tail p' Htail) as [H1 [H2 [H3 H4]]].
    rewrite H1, H2, H3, Hshow, Hex, Hbase, Hflags.
    repeat split.
    - destruct (isAllFlag arg), (existsb isAllFlag tail); reflexivity.
    - destruct H4 as [H4|[H4 H5]].
      + rewrite H4. destruct Hpath as [Hpath|[Hpath Hdash]].
        * now left.
        * right. rewrite Hpath. split; [now left | exact Hdash].
      + right. split; [right; now apply Hin | exact H5]. }
  destruct skip.
  - destruct (Hskip eq_refl) as [-> [x [Hnext Hx]]].
    destruct rest as [|y rest']; [discriminate|].
    simpl in Hnext. injection Hnext as ->.
    apply Hgoal.
    + simpl in Hlen. lia.
    + simpl. now rewrite (number_is_no_flag x Hx).
    + intros z Hz. now right.
  - apply Hgoal; [lia | reflexivity | trivial].
Qed.

Lemma step_without_lookahead (arg : string) (n1 n2 : option string)
    (p : ParsedArgs) :
  arg <> "-L" ->
  parseStep arg n1 p = parseStep arg n2 p /\ snd (parseStep arg n1 p) = false.
Proof.
  intros H. apply String.eqb_neq in H. unfold parseStep. rewrite H.
  simpl andb. cbv iota. split; [reflexivity|].
  destruct ((arg =? "-a") || (arg =? "--all")); [reflexivity|].
  destruct (startsWith arg "-L"); cbv zeta.
  - now destruct (isNaN (parseInt (substring arg 2))).
  - now destruct (negb (startsWith arg "-")).
Qed.

Lemma parseLoop_app (n : nat) (a b : list string) (p : ParsedArgs) :
  (List.length a <= n)%nat ->
  last a "" <> "-L" ->
  parseLoop (a ++ b) p = parseLoop b (parseLoop a p).
Proof.
  revert a p. induction n as [|n IH]; intros [|arg rest] p Hlen Hlast;
    simpl in Hlen; try lia; try reflexivity.
  destruct rest as [|x rest'].
  - simpl in Hlast.
    destruct (step_without_lookahead arg (hd_error b) None p Hlast)
      as [Hsame Hno].
    simpl app. simpl parseLoop. rewrite Hsame in *.
    destruct (parseStep arg None p) as [p' skip]. simpl in Hno. subst skip.
    reflexivity.
  - change ((arg :: x :: rest') ++ b)%list with (arg :: x :: (rest' ++ b))%list.
    simpl parseLoop.
    destruct (parseStep arg (Some x) p) as [p' skip].
    change (last (arg :: x :: rest') "") with (last (x :: rest') "") in Hlast.
    destruct skip.
    + apply IH; [simpl in Hlen; lia|].
      destruct rest'; [discriminate | exact Hlast].
    + apply (IH (x :: rest') p'); [simpl in *; lia | exact Hlast].
Qed.

Lemma parseTreeArgs_fields (args : list string) :
  showHidden (parsedOptions (parseTreeArgs args))
  = Some (existsb isAllFlag args)
  /\ excludeGit (parsedOptions (parseTreeArgs args)) = Some true
  /\ baseDirectory (parsedOptions (parseTreeArgs args)) = None
  /\ (parsedPath (parseTreeArgs args) = "."
      \/ (In (parsedPath (parseTreeArgs args)) args
          /\ startsWith (parsedPath (parseTreeArgs args)) "-" = false)).
Proof.
  unfold parseTreeArgs.
  destruct (parseLoop_fields (List.length args) args
              (mkParsed "." (mkOptions None (Some false) (Some true) None))
              (Nat.le_refl _)) as [H1 [H2 [H3 H4]]].
  rewrite H1, H2, H3. repeat split; trivial.
  simpl. now destruct (existsb isAllFlag args).
Qed.

End TranslatorFacts.

(** X9. [parseTreeArgs] sets [showHidden] to true exactly when [-a] or
    [--all] is among the tokens, always leaves [excludeGit] true and
    [baseDirectory] unset, and returns as path either [.] or one of the
    tokens that does not start with a dash. *)
Theorem translator_fields (args : list string) :
  showHidden (parsedOptions (parseTreeArgs args))
  = Some (existsb isAllFlag args)
  /\ excludeGit (parsedOptions (parseTreeArgs args)) = Some true
  /\ baseDirectory (parsedOptions (parseTreeArgs args)) = None
  /\ (parsedPath (parseTreeArgs args) = "."
      \/ (In (parsedPath (parseTreeArgs args)) args
          /\ JsString.startsWith (parsedPath (parseTreeArgs args)) "-"
             = false)).
Proof. apply TranslatorFacts.parseTreeArgs_fields. Qed.

(** X10. Translating a token list in two parts gives what translating
    it whole gives, provided the first part does not end with the token
    [-L], which would take its number from the second. *)
Theorem translator_concat (a b : list string) (p : ParsedArgs) :
  last a "" <> "-L" ->
  parseLoop (a ++ b) p = parseLoop b (parseLoop a p).
Proof.
  apply (TranslatorFacts.parseLoop_app (List.length a)). apply Nat.le_refl.
Qed.

Lemma translator_concat_witness :
  parseTreeArgs (["-L"; "2"; "-L"; "x"] ++ ["-a"; "src"])
  = parseLoop ["-a"; "src"] (parseTreeArgs ["-L"; "2"; "-L"; "x"]).
Proof.
  apply (translator_concat ["-L"; "2"; "-L"; "x"] ["-a"; "src"]).
  discriminate.
Defined.

(** ** The [gtree] tool *)

Lemma gtreeCall_with_args (params : GtreeParams) (arg : string)
    (rest : list string) :
  paramArgs params = Some (arg :: rest) ->
  gtreeCall params
  = (if parsedPath (parseTreeArgs (arg :: rest)) =? "."
     then orDot (paramPath params)
     else parsedPath (parseTreeArgs (arg :: rest)),
     mkOptions
       (spreadField (paramMaxDepth params)
                    (maxDepth (parsedOptions (parseTreeArgs (arg :: rest)))))
       (Some (existsb isAllFlag (arg :: rest))) (Some true) None).
Proof.
  intros Hargs. unfold gtreeCall. rewrite Hargs. f_equal.
  destruct (TranslatorFacts.parseTreeArgs_fields (arg :: rest))
    as [Hshow [Hex [Hbase _]]].
  unfold spreadOptions. simpl.
  now rewrite Hshow, Hex, Hbase.
Qed.

(** X11. When the tool is given a non-empty [args], its [showHidden]
    parameter has no effect on the result: hidden entries are asked for
    exactly when [-a] or [--all] is among the tokens. *)
Theorem tool_args_override_showHidden
    (localeCompare : string -> string -> Z) (w : World)
    (params : GtreeParams) (arg : string) (rest : list string)
    (other : option bool) :
  paramArgs params = Some (arg :: rest) ->
  showHidden (snd (gtreeCall params)) = Some (existsb isAllFlag (arg :: rest))
  /\ gtreeExecute localeCompare w
       (mkParams (paramPath params) (paramMaxDepth params) other
                 (paramArgs params))
     = gtreeExecute localeCompare w params.
Proof.
  intros Hargs. split.
  - now rewrite (gtreeCall_with_args params arg rest Hargs).
  - unfold gtreeExecute.
    rewrite (gtreeCall_with_args params arg rest Hargs).
    now rewrite (gtreeCall_with_args
                   (mkParams (paramPath params) (paramMaxDepth params) other
                             (paramArgs params)) arg rest Hargs).
Qed.

Lemma tool_args_override_showHidden_witness :
  showHidden (snd (gtreeCall (mkParams None None (Some true)
                                       (Some ["-L"; "2"]))))
  = Some false
  /\ gtreeExecute codeUnitCompare (projectWorld scenarioHidden)
       (mkParams (Some "project") None (Some false) (Some ["-L"; "2"]))
     = gtreeExecute codeUnitCompare (projectWorld scenarioHidden)
         (mkParams (Some "project") None (Some true) (Some ["-L"; "2"])).
Proof.
  split.
  - apply (tool_args_override_showHidden codeUnitCompare
             (projectWorld scenarioHidden)
             (mkParams None None (Some true) (Some ["-L"; "2"]))
             "-L" ["2"] None eq_refl).
  - apply (tool_args_override_showHidden codeUnitCompare
             (projectWorld scenarioHidden)
             (mkParams (Some "project") None (Some true) (Some ["-L"; "2"]))
             "-L" ["2"] (Some false) eq_refl).
Defined.

(** X12. The tool never throws: it returns [Error: ] and the message of
    what [generateTree] threw when [path.resolve] fails on the path it
    ends up with or when that path is missing or is not a directory,
    having read nothing, and the tree otherwise. *)
Theorem tool_error_surface (localeCompare : string -> string -> Z) (w : World)
    (params : GtreeParams) :
  let targetPath := fst (gtreeCall params) in
  (exists out, fst (gtreeExecute localeCompare w params) = Returned out)
  /\ (forall message,
        resolve w targetPath = Thrown message ->
        gtreeExecute localeCompare w params
        = (Returned ("Error: " ++ message), []))
  /\ (forall absolutePath,
        resolve w targetPath = Returned absolutePath ->
        disk w absolutePath = Missing ->
        gtreeExecute localeCompare w params
        = (Returned ("Error: Path does not exist: " ++ targetPath), []))
  /\ (forall absolutePath text,
        resolve w targetPath = Returned absolutePath ->
        disk w absolutePath = RegularFile text ->
        gtreeExecute localeCompare w params
        = (Returned ("Error: Path is not a directory: " ++ targetPath), []))
  /\ (forall absolutePath listing,
        resolve w targetPath = Returned absolutePath ->
        disk w absolutePath = Dir listing ->
        gtreeExecute localeCompare w params
        = generateTree localeCompare w targetPath (snd (gtreeCall params))).
Proof.
  unfold gtreeExecute. destruct (gtreeCall params) as [targetPath options].
  simpl fst. simpl snd. split; [|split; [|split; [|split]]].
  - destruct (generateTree localeCompare w targetPath options)
      as [[out|message] log]; eexists; reflexivity.
  - intros message H. unfold generateTree. now rewrite H.
  - intros absolutePath H Hd. unfold generateTree. now rewrite H, Hd.
  - intros absolutePath text H Hd. unfold generateTree. now rewrite H, Hd.
  - intros absolutePath listing H Hd.
    destruct (generateTree localeCompare w targetPath options)
      as [[out|message] log] eqn:E; [reflexivity|].
    exfalso.
    assert (Hthrow : exists m, fst (generateTree localeCompare w targetPath
                                      options) = Thrown m)
      by (rewrite E; now exists message).
    apply generateTree_throws_iff in Hthrow
      as [[m Hm]|[p [Hp [Hm|[text Hm]]]]]; congruence.
Qed.

Lemma tool_error_surface_witness :
  gtreeExecute codeUnitCompare (projectWorld scenarioA)
               (mkParams (Some "project") None None (Some ["nowhere"; "-a"]))
  = (Returned "Error: Path does not exist: nowhere", [])
  /\ gtreeExecute codeUnitCompare (projectWorld scenarioA)
                  (mkParams (Some "notes.txt") None None (Some ["."]))
     = (Returned "Error: Path is not a directory: notes.txt", [])
  /\ gtreeExecute codeUnitCompare (strandedWorld scenarioA)
                  (mkParams None None None None)
     = (Returned "Error: ENOENT: no such file or directory, uv_cwd", []).
Proof.
  split; [|split].
  - apply (proj1 (proj2 (proj2 (tool_error_surface codeUnitCompare
                                  (projectWorld scenarioA)
                                  (mkParams (Some "project") None None
                                            (Some ["nowhere"; "-a"]))))))
      with (absolutePath := "/home/user/nowhere");
      reflexivity.
  - apply (proj1 (proj2 (proj2 (proj2 (tool_error_surface codeUnitCompare
                                         (projectWorld scenarioA)
                                         (mkParams (Some "notes.txt") None
                                                   None (Some ["."])))))))
      with (absolutePath := "/home/user/notes.txt") (text := Some "");
      reflexivity.
  - apply (proj1 (proj2 (tool_error_surface codeUnitCompare
                           (strandedWorld scenarioA)
                           (mkParams None None None None)))).
    reflexivity.
Defined.

(** ** Trimming and the lines of [.gitignore] *)

Module TrimFacts.
Import JsString StringFacts.

Lemma rev_append (a b : string) : rev (a ++ b) = rev b ++ rev a.
Proof.
  induction a as [|c a IH]; simpl.
  - now rewrite append_nil_r.
  - now rewrite IH, append_assoc.
Qed.

Lemma rev_involutive (s : string) : rev (rev s) = s.
Proof.
  induction s as [|c s IH]; [reflexivity|].
  simpl. now rewrite rev_append, IH.
Qed.

Lemma stripFront_suffix (mirrored : bool) (n : nat) (s : string) :
  (String.length s <= n)%nat -> exists w, s = w ++ stripFront mirrored s.
Proof.
  revert s. induction n as [|n IH]; intros s Hlen.
  - destruct s; [now exists "" | simpl in Hlen; lia].
  - destruct s as [|c1 r1]; [now exists ""|]. simpl in Hlen. simpl.
    destruct (ws1 c1).
    { destruct (IH r1 ltac:(lia)) as [w Hw].
      exists (String c1 w). simpl. now rewrite <- Hw. }
    destruct r1 as [|c2 r2]; [now exists ""|]. simpl in Hlen.
    destruct (if mirrored then ws2 c2 c1 else ws2 c1 c2).
    { destruct (IH r2 ltac:(lia)) as [w Hw].
      exists (String c1 (String c2 w)). simpl. now rewrite <- Hw. }
    destruct r2 as [|c3 r3]; [now exists ""|]. simpl in Hlen.
    destruct (if mirrored then ws3 c3 c2 c1 else ws3 c1 c2 c3).
    { destruct (IH r3 ltac:(lia)) as [w Hw].
      exists (String c1 (String c2 (String c3 w))). simpl. now rewrite <- Hw. }
    now exists "".
Qed.

Lemma stripFront_clean (mirrored : bool) (n : nat) (s : string) :
  (String.length s <= n)%nat ->
  startsWs mirrored (stripFront mirrored s) = false.
Proof.
  revert s. induction n as [|n IH]; intros s Hlen.
  - destruct s; [reflexivity | simpl in Hlen; lia].
  - destruct s as [|c1 r1]; [reflexivity|]. simpl in Hlen. simpl.
    destruct (ws1 c1) eqn:E1; [apply IH; lia|].
    destruct r1 as [|c2 r2]; [simpl; now rewrite E1|]. simpl in Hlen.
    destruct (if mirrored then ws2 c2 c1 else ws2 c1 c2) eqn:E2;
      [apply IH; lia|].
    destruct r2 as [|c3 r3]; [simpl; now rewrite E1, E2|]. simpl in Hlen.
    destruct (if mirrored then ws3 c3 c2 c1 else ws3 c1 c2 c3) eqn:E3;
      [apply IH; lia|].
    simpl. now rewrite E1, E2, E3.
Qed.

Lemma stripFront_id (mirrored : bool) (s : string) :
  startsWs mirrored s = false -> stripFront mirrored s = s.
Proof.
  destruct s as [|c1 [|c2 [|c3 r3]]]; simpl; intros H;
    repeat (apply orb_false_iff in H as [? H]);
    repeat match goal with
           | E : ?x = false |- context [if ?x then _ else _] => rewrite E
           end; reflexivity.
Qed.

Lemma startsWs_prefix (mirrored : bool) (u v : string) :
  startsWs mirrored (u ++ v) = false -> startsWs mirrored u = false.
Proof.
  destruct u as [|c1 [|c2 [|c3 u3]]]; simpl; trivial;
    destruct v as [|d1 [|d2 v2]]; simpl; intros H;
    repeat (apply orb_false_iff in H; destruct H as [? H]);
    repeat match goal with
           | E : ?x = false |- context [?x] => rewrite E
           end; trivial.
Qed.

Lemma trim_clean (s : string) :
  startsWs false (trim s) = false /\ startsWs true (rev (trim s)) = false.
Proof.
  unfold trim, trimStart.
  set (t := stripFront false s).
  set (y := stripFront true (rev t)).
  assert (Hy : startsWs true y = false)
    by (apply (stripFront_clean true (String.length (rev t))); lia).
  assert (Ht : startsWs false t = false)
    by (apply (stripFront_clean false (String.length s)); lia).
  destruct (stripFront_suffix true (String.length (rev t)) (rev t)
              (Nat.le_refl _)) as [w Hw].
  fold y in Hw.
  assert (Hprefix : t = rev y ++ rev w).
  { rewrite <- (rev_involutive t), Hw. apply rev_append. }
  split.
  - apply (startsWs_prefix false (rev y) (rev w)). now rewrite <- Hprefix.
  - now rewrite rev_involutive.
Qed.

Lemma trim_idempotent (s : string) : trim (trim s) = trim s.
Proof.
  destruct (trim_clean s) as [Hfront Hback].
  set (u := trim s) in *. unfold trim, trimStart.
  rewrite (stripFront_id false u Hfront).
  rewrite (stripFront_id true (rev u) Hback).
  apply rev_involutive.
Qed.

End TrimFacts.

(** X13. The patterns read from the text of [.gitignore] are exactly
    the trimmed lines that are not empty and do not start with [#]; each
    of them is free of white space at both ends, so trimming it again
    changes nothing. *)
Theorem gitignore_patterns_clean (gitignoreContent pattern : string) :
  (In pattern (gitignorePatterns gitignoreContent)
   <-> exists line,
       In line (JsString.split "010"%char gitignoreContent)
       /\ pattern = JsString.trim line
       /\ pattern <> ""
       /\ JsString.startsWith pattern "#" = false)
  /\ (In pattern (gitignorePatterns gitignoreContent) ->
      JsString.trim pattern = pattern
      /\ startsWs false pattern = false
      /\ startsWs true (JsString.rev pattern) = false).
Proof.
  assert (Hiff : In pattern (gitignorePatterns gitignoreContent)
                 <-> exists line,
                     In line (JsString.split "010"%char gitignoreContent)
                     /\ pattern = JsString.trim line
                     /\ pattern <> ""
                     /\ JsString.startsWith pattern "#" = false).
  { unfold gitignorePatterns. rewrite filter_In, in_map_iff.
    rewrite andb_true_iff, !negb_true_iff, String.eqb_neq. split.
    - intros [[line [<- Hline]] [Hne Hc]]. now exists line.
    - intros [line [Hline [-> [Hne Hc]]]]. split; [now exists line | tauto]. }
  split; [exact Hiff|].
  intros Hin. apply Hiff in Hin as [line [_ [-> _]]].
  split; [apply TrimFacts.trim_idempotent | apply TrimFacts.trim_clean].
Qed.

Lemma gitignore_patterns_clean_witness :
  In "ignored_dir/" (gitignorePatterns "# build output
   ignored_dir/  

ignored_file.txt")
  /\ JsString.trim "ignored_dir/" = "ignored_dir/".
Proof.
  assert (Hin : In "ignored_dir/" (gitignorePatterns "# build output
   ignored_dir/  

ignored_file.txt")).
  { apply (proj1 (gitignore_patterns_clean "# build output
   ignored_dir/  

ignored_file.txt" "ignored_dir/")).
    exists "   ignored_dir/  ". repeat split; try discriminate.
    right. left. reflexivity. }
  split; [exact Hin|].
  apply (proj2 (gitignore_patterns_clean _ _) Hin).
Defined.

(** X14. The pattern list is the three defaults alone unless
    [.gitignore] in the base directory is a regular file that can be
    read: a missing file, a directory of that name and a file whose read
    fails all give the defaults, the error being swallowed, and
    [generateTree] then returns what it returns when nothing is found at
    that path, the directory being the same. With a readable file the list is the defaults followed by the
    patterns read from its text. Whether the base directory itself can be
    listed plays no part, and a path is ignored exactly when the defaults
    or the patterns of the file ignore it. *)
Theorem ignore_list (w : World) (baseDir : string) :
  ((forall gitignoreContent,
       disk w (NodePath.join baseDir ".gitignore")
       <> RegularFile (Some gitignoreContent)) ->
   createIgnoreInstance w baseDir = defaultIgnores
   /\ forall localeCompare w' targetPath options,
        resolve w targetPath = Returned baseDir ->
        resolve w' targetPath = Returned baseDir ->
        disk w' baseDir = disk w baseDir ->
        disk w' (NodePath.join baseDir ".gitignore") = Missing ->
        generateTree localeCompare w targetPath options
        = generateTree localeCompare w' targetPath options)
  /\ (forall gitignoreContent,
        disk w (NodePath.join baseDir ".gitignore")
        = RegularFile (Some gitignoreContent) ->
        createIgnoreInstance w baseDir
        = (defaultIgnores ++ gitignorePatterns gitignoreContent)%list
        /\ forall filePath,
             ignores (createIgnoreInstance w baseDir) filePath
             = ignores defaultIgnores filePath
               || ignores (gitignorePatterns gitignoreContent) filePath)
  /\ (forall filePath,
        ignores defaultIgnores filePath = true ->
        ignores (createIgnoreInstance w baseDir) filePath = true).
Proof.
  split; [|split].
  - intros H.
    assert (Hlist : createIgnoreInstance w baseDir = defaultIgnores).
    { unfold createIgnoreInstance.
      destruct (disk w (NodePath.join baseDir ".gitignore"))
        as [|[text|]|sub]; try reflexivity.
      now destruct (H text). }
    split; [exact Hlist|].
    intros localeCompare w' targetPath options Hr Hr' Hdisk Hmissing.
    unfold generateTree. rewrite Hr, Hr', Hdisk, Hlist.
    unfold createIgnoreInstance. now rewrite Hmissing.
  - unfold createIgnoreInstance. intros text ->. split; [reflexivity|].
    intros filePath. unfold ignores. apply existsb_app.
  - unfold createIgnoreInstance. intros filePath H. unfold ignores in *.
    rewrite existsb_app, H. reflexivity.
Qed.

Lemma ignore_list_witness :
  createIgnoreInstance (repoWorld (RegularFile None)) "/repo" = defaultIgnores
  /\ generateTree codeUnitCompare (repoWorld (RegularFile None)) "/repo"
                  noOptions
     = generateTree codeUnitCompare (repoWorld Missing) "/repo" noOptions
  /\ createIgnoreInstance (repoWorld (RegularFile (Some "dist/**"))) "/repo"
     = (defaultIgnores ++ ["dist/**"])%list.
Proof.
  destruct (proj1 (ignore_list (repoWorld (RegularFile None)) "/repo"))
    as [Hlist Hsame]; [discriminate|].
  split; [exact Hlist|]. split.
  - apply Hsame; reflexivity.
  - apply (proj1 (proj2 (ignore_list (repoWorld (RegularFile (Some "dist/**")))
                           "/repo")) "dist/**").
    reflexivity.
Defined.

(** ** [CwdService] *)

Module CwdFacts.
Import CwdService.

Lemma getCwdInfo_plain (p : Process) (path : string) :
  getCurrentWorkingDirectory p = Returned path ->
  getCwdInfo p None = Returned (mkCwdInfo path None None).
Proof.
  unfold getCwdInfo, getCurrentWorkingDirectory.
  destruct (truthy (GTREE_BASE_PATH p)) as [envBase|]; simpl andThen.
  - destruct (pathResolve p envBase); simpl; intros H;
      [now injection H as <- | discriminate].
  - destruct (cwd p) as [dir|m]; simpl; [|discriminate].
    destruct (pathResolve p dir); simpl; intros H;
      [now injection H as <- | discriminate].
Qed.

Lemma getCwdInfo_blank (p : Process) (b : string) :
  JsString.trim b = "" -> getCwdInfo p (Some b) = getCwdInfo p None.
Proof.
  intros Hblank. unfold getCwdInfo, truthy at 2 3.
  destruct (b =? ""); [reflexivity|]. now rewrite Hblank.
Qed.

End CwdFacts.

(** X15. [getCwdInfo] and [getCurrentWorkingDirectory] agree: whenever
    [getCwdInfo] returns, whatever base path it was given,
    [getCurrentWorkingDirectory] returns its [absolute]; when
    [getCurrentWorkingDirectory] returns, [getCwdInfo] without a base
    path returns that path and nothing else; and when the one throws so
    does the other, with the same cause after its own prefix. *)
Theorem cwd_agreement (p : CwdService.Process) :
  (forall base info,
      CwdService.getCwdInfo p base = Returned info ->
      CwdService.getCurrentWorkingDirectory p
      = Returned (CwdService.absolute info))
  /\ (forall path,
        CwdService.getCurrentWorkingDirectory p = Returned path ->
        CwdService.getCwdInfo p None
        = Returned (CwdService.mkCwdInfo path None None))
  /\ (forall cause base,
        CwdService.getCurrentWorkingDirectory p
        = Thrown ("Failed to get current working directory: " ++ cause) ->
        CwdService.getCwdInfo p base
        = Thrown ("Failed to get current working directory info: " ++ cause)).
Proof.
  unfold CwdService.getCwdInfo, CwdService.getCurrentWorkingDirectory.
  destruct (CwdService.truthy (CwdService.GTREE_BASE_PATH p)) as [envBase|].
  - simpl CwdService.andThen.
    destruct (CwdService.pathResolve p envBase) as [abs|m]; simpl;
      repeat split.
    + intros base info.
      destruct (CwdService.truthy base) as [b|]; simpl.
      * destruct (JsString.trim b =? ""); simpl.
        -- intros H. now injection H as <-.
        -- destruct (CwdService.pathResolve p b); simpl; intros H;
             [now injection H as <- | discriminate].
      * intros H. now injection H as <-.
    + intros path H. now injection H as <-.
    + discriminate.
    + discriminate.
    + discriminate.
    + intros cause base H. injection H as H.
      now subst.
  - destruct (CwdService.cwd p) as [dir|m]; simpl.
    + destruct (CwdService.pathResolve p dir) as [abs|m]; simpl;
        repeat split.
      * intros base info.
        destruct (CwdService.truthy base) as [b|]; simpl.
        -- destruct (JsString.trim b =? ""); simpl.
           ++ intros H. now injection H as <-.
           ++ destruct (CwdService.pathResolve p b); simpl; intros H;
                [now injection H as <- | discriminate].
        -- intros H. now injection H as <-.
      * intros path H. now injection H as <-.
      * discriminate.
      * discriminate.
      * discriminate.
      * intros cause base H. injection H as H.
        now subst.
    + repeat split; try discriminate.
      intros cause base H. injection H as H.
      now subst.
Qed.

Lemma cwd_agreement_witness :
  CwdService.getCwdInfo plainProcess (Some "/home")
  = Returned (CwdService.mkCwdInfo "/home/user/project"
                (Some "user/project") (Some "/home"))
  /\ CwdService.getCurrentWorkingDirectory plainProcess
     = Returned "/home/user/project".
Proof.
  split; [reflexivity|].
  apply (proj1 (cwd_agreement plainProcess) (Some "/home")
           (CwdService.mkCwdInfo "/home/user/project"
              (Some "user/project") (Some "/home"))).
  reflexivity.
Defined.

(** X16. A base path of white space only is ignored by [getCwdInfo]: the
    result is the one for no base path, without [basePath] and
    [relative]. The [cwd] tool still takes such a base path as given, and
    so reports [Base path: undefined] and [(same as base)]. *)
Theorem blank_base_path (p : CwdService.Process) (b : string) :
  JsString.trim b = "" ->
  CwdService.getCwdInfo p (Some b) = CwdService.getCwdInfo p None
  /\ (forall path,
        b <> "" ->
        CwdService.getCurrentWorkingDirectory p = Returned path ->
        CwdService.cwdExecute p (Some b)
        = "Current working directory:
Absolute path: " ++ path ++ "
Base path: undefined
Relative path: (same as base)").
Proof.
  intros Hblank. split; [now apply CwdFacts.getCwdInfo_blank|].
  intros path Hb Hcwd. unfold CwdService.cwdExecute.
  assert (Htruthy : CwdService.truthy (Some b) = Some b).
  { unfold CwdService.truthy. apply String.eqb_neq in Hb. now rewrite Hb. }
  rewrite Htruthy, (CwdFacts.getCwdInfo_blank p b Hblank).
  now rewrite (CwdFacts.getCwdInfo_plain p path Hcwd).
Qed.

Lemma blank_base_path_witness :
  CwdService.cwdExecute plainProcess (Some "   ")
  = "Current working directory:
Absolute path: /home/user/project
Base path: undefined
Relative path: (same as base)".
Proof.
  apply (proj2 (blank_base_path plainProcess "   " eq_refl)
           "/home/user/project"); [discriminate | reflexivity].
Defined.

(** ** What the depth limit and [showHidden] change *)

Section TreePathFacts.

Variable localeCompare : string -> string -> Z.

Lemma treePaths_Permutation (a b : list FileNode) (names : list string) :
  Permutation a b -> In names (treePaths a) -> In names (treePaths b).
Proof.
  intros HP. apply Permutation_in. unfold treePaths.
  now apply Permutation_flat_map.
Qed.

Lemma treePaths_sort compare (l : list FileNode) (names : list string) :
  In names (treePaths (sort compare l)) <-> In names (treePaths l).
Proof.
  split; apply treePaths_Permutation;
    [apply sort_Permutation | symmetry; apply sort_Permutation].
Qed.

Lemma treePaths_nonempty (nodes : list FileNode) : ~ In [] (treePaths nodes).
Proof.
  unfold treePaths. intros H. apply in_flat_map in H as [n [_ H]].
  destruct n as [nm p d kids lvl]. simpl in H.
  destruct H as [H|H]; [discriminate|].
  apply in_map_iff in H as [rest [H _]]. discriminate.
Qed.

Lemma treePaths_unread options ig dirPath lvl names entry :
  dirent_isDirectory entry = false
  \/ entry = Directory (dirent_name entry) None
  \/ depthReached options lvl = true ->
  ~ In names (treePaths (resultOf (scanSubdirectory localeCompare entry
                                     dirPath options ig lvl))).
Proof.
  intros H. unfold resultOf.
  destruct (depthReached options lvl) eqn:Hd.
  - now rewrite scanSubdirectory_depth.
  - destruct H as [H|[H|H]]; [| |discriminate].
    + destruct entry; [|discriminate].
      rewrite scanSubdirectory_File, scanDirectory_unreadable by exact Hd.
      intros [].
    + rewrite H, scanSubdirectory_Directory, scanDirectory_unreadable
        by exact Hd.
      intros [].
Qed.

(** The paths of a level, entry by entry. *)
Lemma treePaths_scan options ig dirPath lvl entries names :
  In names (treePaths (resultOf (scanDirectory localeCompare (Some entries)
                                   dirPath options ig lvl)))
  <-> depthReached options lvl = false
      /\ exists entry,
          In entry entries /\ skipped options ig dirPath entry = false
          /\ (names = [dirent_name entry]
              \/ (dirent_isDirectory entry = true
                  /\ exists rest,
                      names = dirent_name entry :: rest
                      /\ In rest
                           (treePaths
                              (resultOf
                                 (scanSubdirectory localeCompare entry
                                    (NodePath.join dirPath (dirent_name entry))
                                    options ig (lvl + 1)%Z))))).
Proof.
  unfold resultOf at 1. destruct (depthReached options lvl) eqn:Hd.
  - rewrite scanDirectory_depth by exact Hd. simpl.
    split; [intros [] | intros [H _]; discriminate].
  - rewrite scanDirectory_nodes by exact Hd. simpl fst.
    rewrite treePaths_sort. unfold treePaths, retained.
    rewrite in_flat_map. split.
    + intros [n [Hn Hnames]]. split; [reflexivity|].
      apply in_flat_map in Hn as [entry [Hentry Hn]].
      exists entry. split; [exact Hentry|].
      destruct (skipped options ig dirPath entry); [contradiction|].
      split; [reflexivity|]. destruct Hn as [<-|[]].
      unfold nodeFor in Hnames. simpl in Hnames.
      destruct Hnames as [<-|Hnames]; [now left|]. right.
      apply in_map_iff in Hnames as [rest [<- Hrest]].
      destruct (dirent_isDirectory entry); [|contradiction].
      split; [reflexivity|]. now exists rest.
    + intros [_ [entry [Hentry [Hkept Hnames]]]].
      eexists. split.
      * apply in_flat_map. exists entry. split; [exact Hentry|].
        rewrite Hkept. left. reflexivity.
      * unfold nodeFor. simpl.
        destruct Hnames as [->|[Hdir [rest [-> Hrest]]]]; [now left|].
        right. apply in_map. now rewrite Hdir.
Qed.

End TreePathFacts.

Section LimitFacts.

Variable localeCompare : string -> string -> Z.
Variables (options : GtreeOptions) (ig : list string) (d : Z).

Local Abbreviation limited := (withMaxDepth options (Some (Finite d))).
Local Abbreviation unlimited := (withMaxDepth options None).

Lemma limited_subdirectory (entry : Dirent) :
  forall dirPath lvl names,
    In names (treePaths (resultOf (scanSubdirectory localeCompare entry
                                     dirPath limited ig lvl)))
    <-> In names (treePaths (resultOf (scanSubdirectory localeCompare entry
                                         dirPath unlimited ig lvl)))
        /\ (lvl + Z.of_nat (List.length names) <= d)%Z.
Proof.
  induction entry as [nm text | nm | nm entries IH] using Dirent_nested_ind;
    intros dirPath lvl names.
  - split; [intros H | intros [H _]];
      now apply treePaths_unread in H; [|left].
  - split; [intros H | intros [H _]];
      now apply treePaths_unread in H; [|right; left].
  - rewrite !scanSubdirectory_Directory, !treePaths_scan.
    rewrite Forall_forall in IH.
    assert (Hd : depthReached limited lvl = false <-> (lvl < d)%Z).
    { unfold depthReached. simpl. apply Z.leb_gt. }
    split.
    + intros [Hlvl [entry [Hentry [Hkept Hnames]]]].
      apply Hd in Hlvl.
      destruct Hnames as [->|[Hdir [rest [-> Hrest]]]].
      * split; [|simpl; lia].
        split; [reflexivity|]. exists entry. auto.
      * apply (IH entry Hentry) in Hrest as [Hrest Hlen].
        split; [|simpl List.length; lia].
        split; [reflexivity|]. exists entry.
        split; [exact Hentry|]. split; [exact Hkept|].
        right. split; [exact Hdir|]. now exists rest.
    + intros [[_ [entry [Hentry [Hkept Hnames]]]] Hlen].
      destruct Hnames as [->|[Hdir [rest [-> Hrest]]]].
      * split; [apply Hd; simpl in Hlen; lia|].
        exists entry. auto.
      * split; [apply Hd; simpl List.length in Hlen; lia|].
        exists entry. split; [exact Hentry|]. split; [exact Hkept|].
        right. split; [exact Hdir|]. exists rest. split; [reflexivity|].
        apply (IH entry Hentry). split; [exact Hrest|].
        simpl List.length in Hlen. lia.
Qed.

End LimitFacts.

(** X17. The depth limit only cuts: a scan with [maxDepth = d] lists
    exactly the entries that the scan without a limit lists no deeper than
    [d] levels, counting the level the scan starts at. *)
Theorem depth_limit_exact (localeCompare : string -> string -> Z)
    (options : GtreeOptions) (ig : list string) (d : Z)
    (listing : option (list Dirent)) (dirPath : string) (currentLevel : Z)
    (names : list string) :
  In names
     (treePaths (resultOf (scanDirectory localeCompare listing dirPath
                             (withMaxDepth options (Some (Finite d))) ig
                             currentLevel)))
  <-> In names
         (treePaths (resultOf (scanDirectory localeCompare listing dirPath
                                 (withMaxDepth options None) ig currentLevel)))
      /\ (currentLevel + Z.of_nat (List.length names) <= d)%Z.
Proof.
  exact (limited_subdirectory localeCompare options ig d
           (Directory "" listing) dirPath currentLevel names).
Qed.

Section ShownFacts.

Variable localeCompare : string -> string -> Z.
Variables (options : GtreeOptions) (ig : list string) (shown : option bool).
Hypothesis not_shown : falsy shown = true.

Local Abbreviation without := (withShowHidden options shown).
Local Abbreviation withAll := (withShowHidden options (Some true)).

Lemma skipped_without dirPath entry :
  skipped without ig dirPath entry
  = JsString.startsWith (dirent_name entry) "."
    || skipped withAll ig dirPath entry.
Proof.
  unfold skipped, hiddenSkip. simpl. now rewrite not_shown.
Qed.

Lemma hidden_subdirectory (entry : Dirent) :
  forall dirPath lvl names,
    In names (treePaths (resultOf (scanSubdirectory localeCompare entry
                                     dirPath without ig lvl)))
    <-> In names (treePaths (resultOf (scanSubdirectory localeCompare entry
                                         dirPath withAll ig lvl)))
        /\ Forall (fun x => JsString.startsWith x "." = false) names.
Proof.
  induction entry as [nm text | nm | nm entries IH] using Dirent_nested_ind;
    intros dirPath lvl names.
  - split; [intros H | intros [H _]];
      now apply treePaths_unread in H; [|left].
  - split; [intros H | intros [H _]];
      now apply treePaths_unread in H; [|right; left].
  - rewrite !scanSubdirectory_Directory, !treePaths_scan.
    rewrite Forall_forall in IH.
    change (depthReached without lvl) with (depthReached withAll lvl).
    split.
    + intros [Hlvl [entry [Hentry [Hkept Hnames]]]].
      rewrite skipped_without in Hkept.
      apply orb_false_iff in Hkept as [Hdot Hkept].
      destruct Hnames as [->|[Hdir [rest [-> Hrest]]]].
      * split; [|now repeat constructor].
        split; [exact Hlvl|]. exists entry. auto.
      * apply (IH entry Hentry) in Hrest as [Hrest Hall].
        split; [|now constructor].
        split; [exact Hlvl|]. exists entry.
        split; [exact Hentry|]. split; [exact Hkept|].
        right. split; [exact Hdir|]. now exists rest.
    + intros [[Hlvl [entry [Hentry [Hkept Hnames]]]] Hall].
      split; [exact Hlvl|]. exists entry. split; [exact Hentry|].
      rewrite skipped_without, Hkept.
      destruct Hnames as [->|[Hdir [rest [-> Hrest]]]];
        inversion Hall as [|? ? Hdot Hrest']; subst; rewrite Hdot.
      * auto.
      * split; [reflexivity|]. right. split; [exact Hdir|].
        exists rest. split; [reflexivity|]. now apply (IH entry Hentry).
Qed.

End ShownFacts.

(** X18. Hiding only cuts: a scan whose [showHidden] is not true lists
    exactly the entries that the scan with [showHidden] true lists at
    paths none of whose names starts with a dot. *)
Theorem hidden_exact (localeCompare : string -> string -> Z)
    (options : GtreeOptions) (ig : list string) (shown : option bool)
    (listing : option (list Dirent)) (dirPath : string) (currentLevel : Z)
    (names : list string) :
  falsy shown = true ->
  (In names
      (treePaths (resultOf (scanDirectory localeCompare listing dirPath
                              (withShowHidden options shown) ig currentLevel)))
   <-> In names
          (treePaths (resultOf (scanDirectory localeCompare listing dirPath
                                  (withShowHidden options (Some true)) ig
                                  currentLevel)))
       /\ Forall (fun x => JsString.startsWith x "." = false) names).
Proof.
  intros Hfalsy.
  exact (hidden_subdirectory localeCompare options ig shown Hfalsy
           (Directory "" listing) dirPath currentLevel names).
Qed.

Lemma hidden_exact_witness :
  In [".config"; "settings.json"]
     (treePaths (resultOf (scanDirectory codeUnitCompare
                             (Some [Directory ".config"
                                      (Some [File "settings.json" ""]);
                                    File "readme.md" ""])
                             projectPath
                             (withShowHidden plainOptions (Some true))
                             defaultIgnores 0)))
  /\ ~ In [".config"; "settings.json"]
       (treePaths (resultOf (scanDirectory codeUnitCompare
                               (Some [Directory ".config"
                                        (Some [File "settings.json" ""]);
                                      File "readme.md" ""])
                               projectPath
                               (withShowHidden plainOptions None)
                               defaultIgnores 0))).
Proof.
  split; [simpl; auto|].
  intros H.
  apply (hidden_exact codeUnitCompare plainOptions defaultIgnores None
           (Some [Directory ".config" (Some [File "settings.json" ""]);
                  File "readme.md" ""])
           projectPath 0 [".config"; "settings.json"] eq_refl) in H
    as [_ Hall].
  inversion Hall as [|? ? Hdot _]. discriminate.
Defined.

(** ** What is listed, in full *)

Section ListedFacts.

Variable localeCompare : string -> string -> Z.
Variables (options : GtreeOptions) (ig : list string) (base : string).
Hypothesis base_given : baseDirectory options = Some base.
Hypothesis base_named : base <> "".

Lemma depthReached_earlier (l l' : Z) :
  depthReached options l = false -> (l' <= l)%Z ->
  depthReached options l' = false.
Proof.
  unfold depthReached. destruct (maxDepth options) as [[|negative|d]|];
    try reflexivity; simpl; [trivial|].
  rewrite !Z.leb_gt. lia.
Qed.

Lemma letThrough_one above lvl nm :
  letThrough options ig above lvl [nm]
  <-> (falsy (showHidden options) = true ->
       JsString.startsWith nm "." = false)
      /\ ignores ig (String.concat "/" (above ++ [nm])) = false
      /\ depthReached options lvl = false.
Proof.
  unfold letThrough. simpl List.length.
  replace (lvl + Z.of_nat 1 - 1)%Z with lvl by lia. split.
  - intros [Hdot [Hig Hd]]. split; [|split; [|exact Hd]].
    + intros Hf. specialize (Hdot Hf). now inversion Hdot.
    + apply (Hig 1%nat). lia.
  - intros [Hdot [Hig Hd]]. split; [|split; [|exact Hd]].
    + intros Hf. constructor; [now apply Hdot | constructor].
    + intros k Hk. replace k with 1%nat by lia. exact Hig.
Qed.

Lemma letThrough_cons above lvl nm r rs :
  letThrough options ig above lvl (nm :: r :: rs)
  <-> letThrough options ig above lvl [nm]
      /\ letThrough options ig (above ++ [nm]) (lvl + 1) (r :: rs).
Proof.
  rewrite letThrough_one. unfold letThrough.
  simpl List.length.
  replace (lvl + Z.of_nat (S (S (List.length rs))) - 1)%Z
    with (lvl + 1 + Z.of_nat (S (List.length rs)) - 1)%Z by lia.
  split.
  - intros [Hdot [Hig Hd]]. repeat split.
    + intros Hf. specialize (Hdot Hf). now inversion Hdot.
    + apply (Hig 1%nat). lia.
    + apply (depthReached_earlier _ _ Hd). lia.
    + intros Hf. specialize (Hdot Hf). now inversion Hdot.
    + intros k Hk. rewrite <- app_assoc. apply (Hig (S k)). lia.
    + exact Hd.
  - intros [[Hdot1 [Hig1 Hd1]] [Hdot [Hig Hd]]]. repeat split.
    + intros Hf. constructor; [now apply Hdot1 | now apply Hdot].
    + intros k Hk. destruct k as [|k]; [lia|].
      destruct k as [|k]; [exact Hig1|].
      change (firstn (S (S k)) (nm :: r :: rs))
        with ([nm] ++ firstn (S k) (r :: rs))%list.
      rewrite app_assoc. apply Hig. simpl in *. lia.
    + exact Hd.
Qed.

Lemma skipped_letThrough above lvl entry :
  Forall (fun x => x <> "") above -> dirent_name entry <> "" ->
  (depthReached options lvl = false
   /\ skipped options ig (absoluteOf base above) entry = false)
  <-> letThrough options ig above lvl [dirent_name entry].
Proof.
  intros Habove Hnm. rewrite letThrough_one.
  unfold skipped, hiddenSkip.
  rewrite (IgnoreFacts.relativePathOf_absoluteOf options base base_given
             base_named above (dirent_name entry) Habove Hnm).
  rewrite orb_false_iff, andb_false_iff. split.
  - intros [Hd [[Hf|Hdot] Hig]]; repeat split; trivial; congruence.
  - intros [Hdot [Hig Hd]]. repeat split; trivial.
    destruct (falsy (showHidden options)); [right; now apply Hdot | now left].
Qed.

Lemma listed_iff (names : list string) :
  forall entries above lvl,
    forallb namedEntry entries = true ->
    Forall (fun x => x <> "") above ->
    In names
       (treePaths (resultOf (scanDirectory localeCompare (Some entries)
                               (absoluteOf base above) options ig lvl)))
    <-> onDisk names entries /\ letThrough options ig above lvl names.
Proof.
  induction names as [|nm rest IH]; intros entries above lvl Hnamed Habove.
  - split; [intros H; now apply treePaths_nonempty in H | intros [[] _]].
  - rewrite treePaths_scan. rewrite forallb_forall in Hnamed.
    destruct rest as [|r rs].
    + simpl onDisk. split.
      * intros [Hd [entry [Hentry [Hkept Hnames]]]].
        pose proof (IgnoreFacts.namedEntry_name entry (Hnamed entry Hentry))
          as Hnm.
        destruct Hnames as [Hnames|[_ [rest' [Hnames Hrest]]]].
        -- injection Hnames as ->. split; [now exists entry|].
           now apply skipped_letThrough.
        -- injection Hnames as -> <-. now apply treePaths_nonempty in Hrest.
      * intros [[entry [Hentry <-]] Hthrough].
        pose proof (IgnoreFacts.namedEntry_name entry (Hnamed entry Hentry))
          as Hnm.
        apply skipped_letThrough in Hthrough as [Hd Hkept]; trivial.
        split; [exact Hd|]. exists entry. auto.
    + rewrite letThrough_cons.
      change (onDisk (nm :: r :: rs) entries)
        with (exists sub, In (Directory nm (Some sub)) entries
                          /\ onDisk (r :: rs) sub).
      split.
      * intros [Hd [entry [Hentry [Hkept Hnames]]]].
        pose proof (Hnamed entry Hentry) as Hwf.
        pose proof (IgnoreFacts.namedEntry_name entry Hwf) as Hnm.
        destruct Hnames as [Hnames|[Hdir [rest' [Hnames Hrest]]]];
          [discriminate|].
        injection Hnames as -> <-.
        destruct entry as [nm text | nm [sub|]]; [discriminate | |].
        -- simpl dirent_name in *.
           rewrite scanSubdirectory_Directory in Hrest.
           rewrite IgnoreFacts.join_absoluteOf in Hrest by assumption.
           simpl in Hwf. apply andb_true_iff in Hwf as [_ Hwf].
           apply IH in Hrest as [Hdisk Hthrough]; trivial.
           ++ split; [now exists sub|]. split; [|exact Hthrough].
              apply (skipped_letThrough above lvl (Directory nm (Some sub)));
                auto.
           ++ apply Forall_app. split; [exact Habove | now constructor].
        -- exfalso. revert Hrest. apply treePaths_unread. right. now left.
      * intros [[sub [Hentry Hdisk]] [Hone Hthrough]].
        pose proof (Hnamed _ Hentry) as Hwf.
        pose proof (IgnoreFacts.namedEntry_name _ Hwf) as Hnm.
        simpl dirent_name in Hnm.
        apply (skipped_letThrough above lvl (Directory nm (Some sub)))
          in Hone as [Hd Hkept]; trivial.
        split; [exact Hd|]. exists (Directory nm (Some sub)).
        split; [exact Hentry|]. split; [exact Hkept|].
        right. split; [reflexivity|]. exists (r :: rs).
        split; [reflexivity|].
        rewrite scanSubdirectory_Directory.
        simpl dirent_name.
        rewrite IgnoreFacts.join_absoluteOf by assumption.
        simpl in Hwf. apply andb_true_iff in Hwf as [_ Hwf].
        apply IH; trivial.
        -- apply Forall_app. split; [exact Habove | now constructor].
        -- now split.
Qed.

End ListedFacts.

(** X19. In the scan that [generateTree] starts, an entry is listed
    exactly when the disk holds it below readable directories, no name on
    its path starts with a dot unless [showHidden] is true, the relative
    path of no directory on its path, nor its own, is ignored, and the
    depth limit is not reached at its level. *)
Theorem listed_exactly (localeCompare : string -> string -> Z)
    (options : GtreeOptions) (ig : list string) (base : string)
    (entries : list Dirent) (names : list string) :
  baseDirectory options = Some base -> base <> "" ->
  wellNamed (Some entries) = true ->
  (In names
      (treePaths (resultOf (scanDirectory localeCompare (Some entries) base
                              options ig 0)))
   <-> onDisk names entries /\ letThrough options ig [] 0 names).
Proof.
  intros Hgiven Hbase Hnamed.
  exact (listed_iff localeCompare options ig base Hgiven Hbase names entries
           [] 0%Z Hnamed (Forall_nil _)).
Qed.

Lemma listed_exactly_witness :
  In ["level1_dir"; "level2_dir"]
     (treePaths (resultOf (scanDirectory codeUnitCompare scenarioC projectPath
                             depthTwo defaultIgnores 0)))
  /\ ~ letThrough depthTwo defaultIgnores [] 0
         ["level1_dir"; "level2_dir"; "level3_file.txt"].
Proof.
  split.
  - apply (listed_exactly codeUnitCompare depthTwo defaultIgnores projectPath
             [File "level1_file.txt" "";
              Directory "level1_dir"
                (Some [File "level2_file.txt" ""; level2])]
             ["level1_dir"; "level2_dir"] eq_refl);
      [discriminate | reflexivity |].
    split.
    + exists [File "level2_file.txt" ""; level2]. split; [simpl; auto|].
      exists level2. split; [simpl; auto | reflexivity].
    + split; [|split].
      * intros _. repeat constructor.
      * intros k Hk. simpl in Hk.
        destruct k as [|[|[|k]]]; try lia; reflexivity.
      * reflexivity.
  - intros [_ [_ Hdepth]]. discriminate.
Defined.
